(** * Sorted-segment search and table-scan hot loops of Hyrise

    A shallow embedding of
    - [src/lib/operators/table_scan/sorted_segment_search.hpp]
      ([SortedSegmentSearch] and the scan loops of [BaseTableScanImpl]) and
    - [src/lib/storage/segment_iteration.hpp]
      ([segment_with_iterators], [segment_for_each]),
    together with the properties the specification states about them. *)

From Stdlib Require Import String ZArith NArith Arith Bool Lia List Sorted.
From Stdlib Require DecimalString DecimalN Ascii Finite.
From Equations Require Import Equations.
Import ListNotations.

Set Implicit Arguments.

(** ** Data model (types.hpp) *)

(** Modelled from the spec: the enumeration [PredicateCondition] is declared
    in types.hpp, which is absent.  The six comparison conditions are the ones
    the scan core handles; the remaining constructors are the conditions the
    specification names as out of scope (IS NULL, LIKE, ...). *)
Inductive PredicateCondition : Type :=
| Equals
| NotEquals
| LessThan
| LessThanEquals
| GreaterThan
| GreaterThanEquals
| Between
| In_
| NotIn
| Like
| NotLike
| IsNull
| IsNotNull.

Inductive OrderByMode : Type :=
| Ascending
| Descending
| AscendingNullsLast
| DescendingNullsLast.

Definition PredicateCondition_eqb (a b : PredicateCondition) : bool :=
  match a, b with
  | Equals, Equals | NotEquals, NotEquals | LessThan, LessThan
  | LessThanEquals, LessThanEquals | GreaterThan, GreaterThan
  | GreaterThanEquals, GreaterThanEquals | Between, Between | In_, In_
  | NotIn, NotIn | Like, Like | NotLike, NotLike | IsNull, IsNull
  | IsNotNull, IsNotNull => true
  | _, _ => false
  end.

Definition OrderByMode_eqb (a b : OrderByMode) : bool :=
  match a, b with
  | Ascending, Ascending | Descending, Descending
  | AscendingNullsLast, AscendingNullsLast
  | DescendingNullsLast, DescendingNullsLast => true
  | _, _ => false
  end.

(** [ChunkID] and [ChunkOffset] are 32-bit unsigned integers. *)
Definition ChunkOffset_modulus : Z := 2 ^ 32.

(** [RowID{chunk_id, chunk_offset}]. *)
Record RowID : Type := mkRowID {
  rid_chunk_id : Z;
  rid_chunk_offset : Z
}.

Definition PosList : Type := list RowID.

(** What dereferencing a segment iterator yields: [value()], [is_null()] and
    [chunk_offset()].  Values are integers; a null position still carries a
    (meaningless) value. *)
Record SegmentPosition : Type := mkSegmentPosition {
  value : Z;
  is_null : bool;
  chunk_offset : Z
}.

Definition null_position : SegmentPosition := mkSegmentPosition 0 true 0.

(** The outcome of a call that may hit [Fail(msg)] (utils/assert.hpp). *)
Inductive Result (A : Type) : Type :=
| Ok (a : A)
| Failed (msg : string).
Arguments Ok {A} a.
Arguments Failed {A} msg.

Definition is_comparison (c : PredicateCondition) : bool :=
  match c with
  | Equals | NotEquals | LessThan | LessThanEquals | GreaterThan
  | GreaterThanEquals => true
  | _ => false
  end.

(** The comparison functor a condition stands for ([std::equal_to],
    [std::less], ...); conditions that are not comparisons have none. *)
Definition comparator (c : PredicateCondition) (a b : Z) : bool :=
  match c with
  | Equals => (a =? b)%Z
  | NotEquals => negb (a =? b)%Z
  | LessThan => (a <? b)%Z
  | LessThanEquals => (a <=? b)%Z
  | GreaterThan => (a >? b)%Z
  | GreaterThanEquals => (a >=? b)%Z
  | _ => false
  end.

(** ** Iterators

    A segment iterator is an index into the sequence of positions the
    iterable yields; [deref] is [operator*] and [iterator_range b e] the
    positions visited by [for (it = b; it != e; ++it)]. *)

Section Iterators.
Variable data : list SegmentPosition.

Definition deref (it : nat) : SegmentPosition := nth it data null_position.

Definition iterator_range (b e : nat) : list SegmentPosition :=
  firstn (e - b) (skipn b data).

(** [std::lower_bound(first, first + len, val, comp)], the halving loop of
    the standard library, where [comp p] stands for [comp( *it, val)]. *)
Equations? lower_bound_loop (comp : SegmentPosition -> bool)
           (first len : nat) : nat by wf len lt :=
  lower_bound_loop comp first 0 := first;
  lower_bound_loop comp first (S n)
    with comp (deref (first + Nat.div2 (S n))) => {
    | true := lower_bound_loop comp (first + Nat.div2 (S n) + 1)
                               (S n - Nat.div2 (S n) - 1);
    | false := lower_bound_loop comp first (Nat.div2 (S n)) }.
Proof.
  - change (S n - Nat.div2 (S n) - 1 < S n).
    generalize (Nat.div2 (S n)). intros h. lia.
  - change (Nat.div2 (S n) < S n). apply Nat.lt_div2. lia.
Qed.

Definition lower_bound (first last : nat) (comp : SegmentPosition -> bool)
  : nat :=
  lower_bound_loop comp first (last - first).

(** [std::upper_bound(first, first + len, val, comp)], the halving loop of
    the standard library, where [comp p] stands for [comp(val, *it)]. *)
Equations? upper_bound_loop (comp : SegmentPosition -> bool)
           (first len : nat) : nat by wf len lt :=
  upper_bound_loop comp first 0 := first;
  upper_bound_loop comp first (S n)
    with comp (deref (first + Nat.div2 (S n))) => {
    | true := upper_bound_loop comp first (Nat.div2 (S n));
    | false := upper_bound_loop comp (first + Nat.div2 (S n) + 1)
                                (S n - Nat.div2 (S n) - 1) }.
Proof.
  - change (Nat.div2 (S n) < S n). apply Nat.lt_div2. lia.
  - change (S n - Nat.div2 (S n) - 1 < S n).
    generalize (Nat.div2 (S n)). intros h. lia.
Qed.

Definition upper_bound (first last : nat) (comp : SegmentPosition -> bool)
  : nat :=
  upper_bound_loop comp first (last - first).
End Iterators.

(** ** SortedSegmentSearch (sorted_segment_search.hpp) *)

(** The members of the class.  The iterators [_begin] and [_end] are the only
    ones that change after construction. *)
Record SortedSegmentSearch : Type := mkSortedSegmentSearch {
  _begin : nat;
  _end : nat;
  _predicate_condition : PredicateCondition;
  _search_value : Z;
  _is_ascending : bool;
  _is_nulls_first : bool
}.

Definition set_begin (s : SortedSegmentSearch) (b : nat) : SortedSegmentSearch :=
  mkSortedSegmentSearch b (_end s) (_predicate_condition s) (_search_value s)
                        (_is_ascending s) (_is_nulls_first s).

Definition set_end (s : SortedSegmentSearch) (e : nat) : SortedSegmentSearch :=
  mkSortedSegmentSearch (_begin s) e (_predicate_condition s) (_search_value s)
                        (_is_ascending s) (_is_nulls_first s).

Definition order_is_ascending (order_by : OrderByMode) : bool :=
  OrderByMode_eqb order_by Ascending
  || OrderByMode_eqb order_by AscendingNullsLast.

Definition order_is_nulls_first (order_by : OrderByMode) : bool :=
  OrderByMode_eqb order_by Ascending || OrderByMode_eqb order_by Descending.

(** The constructor. *)
Definition new_SortedSegmentSearch (begin_ end_ : nat) (order_by : OrderByMode)
           (predicate_condition : PredicateCondition) (search_value : Z)
  : SortedSegmentSearch :=
  mkSortedSegmentSearch begin_ end_ predicate_condition search_value
                        (order_is_ascending order_by)
                        (order_is_nulls_first order_by).

Definition Unsupported_predicate : string :=
  "Unsupported predicate condition encountered".

Section Search.
Variable data : list SegmentPosition.

Definition _get_first_bound (s : SortedSegmentSearch) : nat :=
  if _is_ascending s
  then lower_bound data (_begin s) (_end s)
                   (fun p => (value p <? _search_value s)%Z)
  else lower_bound data (_begin s) (_end s)
                   (fun p => (value p >? _search_value s)%Z).

Definition _get_last_bound (s : SortedSegmentSearch) : nat :=
  if _is_ascending s
  then upper_bound data (_begin s) (_end s)
                   (fun p => (value p >? _search_value s)%Z)
  else upper_bound data (_begin s) (_end s)
                   (fun p => (value p <? _search_value s)%Z).

(** Sets the iterators that delimit the result; [Failed] is the [Fail] of
    the two [default:] labels. *)
Definition _set_begin_and_end (s : SortedSegmentSearch)
  : Result SortedSegmentSearch :=
  if PredicateCondition_eqb (_predicate_condition s) Equals then
    let s1 := set_begin s (_get_first_bound s) in
    Ok (set_end s1 (_get_last_bound s1))
  else if _is_ascending s then
    match _predicate_condition s with
    | GreaterThanEquals => Ok (set_begin s (_get_first_bound s))
    | GreaterThan => Ok (set_begin s (_get_last_bound s))
    | LessThanEquals => Ok (set_end s (_get_last_bound s))
    | LessThan => Ok (set_end s (_get_first_bound s))
    | _ => Failed Unsupported_predicate
    end
  else
    match _predicate_condition s with
    | LessThanEquals => Ok (set_begin s (_get_first_bound s))
    | LessThan => Ok (set_begin s (_get_last_bound s))
    | GreaterThanEquals => Ok (set_end s (_get_last_bound s))
    | GreaterThan => Ok (set_end s (_get_first_bound s))
    | _ => Failed Unsupported_predicate
    end.

Section Functor.
(** The functor receives an iterator pair; what it observes is the
    sequence of positions between the two iterators. *)
Variable A : Type.
Variable functor : list SegmentPosition -> A.

(** [boost::join] of two iterator ranges iterates over the first, then
    over the second. *)
Definition join (r1 r2 : list SegmentPosition) : list SegmentPosition :=
  r1 ++ r2.

Definition _handle_not_equals (s : SortedSegmentSearch) : A :=
  let first_occurrence := _get_first_bound s in
  if first_occurrence =? _end s then
    functor (iterator_range data (_begin s) (_end s))
  else
    let last_occurrence := _get_last_bound s in
    if last_occurrence =? _end s then
      functor (iterator_range data (_begin s) first_occurrence)
    else if first_occurrence =? _begin s then
      functor (iterator_range data last_occurrence (_end s))
    else
      functor (join (iterator_range data (_begin s) first_occurrence)
                    (iterator_range data last_occurrence (_end s))).

(** The first statement of [scan_sorted_segment]: one binary search
    drops the null run at the front or at the back. *)
Definition exclude_nulls (s : SortedSegmentSearch) : SortedSegmentSearch :=
  if _is_nulls_first s
  then set_begin s (lower_bound data (_begin s) (_end s)
                                (fun p => is_null p))
  else set_end s (lower_bound data (_begin s) (_end s)
                              (fun p => negb (is_null p))).

Definition scan_sorted_segment (s : SortedSegmentSearch) : Result A :=
  let s := exclude_nulls s in
  if PredicateCondition_eqb (_predicate_condition s) NotEquals then
    Ok (_handle_not_equals s)
  else
    match _set_begin_and_end s with
    | Ok s' => Ok (functor (iterator_range data (_begin s') (_end s')))
    | Failed msg => Failed msg
    end.
End Functor.
End Search.

(** ** The hot loops of [BaseTableScanImpl] *)

Section Scans.
Variable chunk_id : Z.

(** [_unary_scan]: appends to [matches_out]. *)
Fixpoint _unary_scan (func : Z -> bool) (left : list SegmentPosition)
         (matches_out : PosList) : PosList :=
  match left with
  | [] => matches_out
  | p :: left' =>
      if is_null p then _unary_scan func left' matches_out
      else if func (value p)
           then _unary_scan func left'
                            (matches_out ++ [mkRowID chunk_id (chunk_offset p)])
           else _unary_scan func left' matches_out
  end.

(** [_binary_scan]: [right] is what the right iterator yields from
    [right_it] on.  Only [left_end] bounds the loop; dereferencing the
    right iterator past its last position is outside the contract and is
    [None] here. *)
Fixpoint _binary_scan (func : Z -> Z -> bool)
         (left right : list SegmentPosition) (matches_out : PosList)
  : option PosList :=
  match left with
  | [] => Some matches_out
  | l :: left' =>
      match right with
      | [] => None
      | r :: right' =>
          if is_null l || is_null r
          then _binary_scan func left' right' matches_out
          else if func (value l) (value r)
               then _binary_scan func left' right'
                      (matches_out ++ [mkRowID chunk_id (chunk_offset l)])
               else _binary_scan func left' right' matches_out
      end
  end.

(** *** [_unary_scan_with_value] *)

Definition SIMD_SIZE : Z := 64.
(** [sizeof(ValueID)]: types.hpp is absent; [ValueID] is the 32-bit value
    id of a dictionary entry. *)
Definition sizeof_ValueID : Z := 4.
Definition BUFFER_SIZE : nat := Z.to_nat (SIMD_SIZE / sizeof_ValueID).

Definition b2z (b : bool) : Z := if b then 1 else 0.

Section WithValue.
Variable LeftIsNullable : bool.
Variable func : Z -> Z -> bool.
Variable right_value : Z.

(** [(!LeftIsNullable | !left.is_null()) & func(left.value(), right_value)]
    as the integer it is in the block loop. *)
Definition match_flag (p : SegmentPosition) : Z :=
  Z.land (Z.lor (b2z (negb LeftIsNullable)) (b2z (negb (is_null p))))
         (b2z (func (value p) right_value)).

(** [buffer[i] = matches * (left.chunk_offset() + 1)], computed and
    stored as [ChunkOffset], thus modulo 2^32. *)
Definition buffer_entry (p : SegmentPosition) : Z :=
  (match_flag p * ((chunk_offset p + 1) mod ChunkOffset_modulus))
    mod ChunkOffset_modulus.

(** The first [for] loop of a block: fills [n] buffer slots and advances
    [left_it]. *)
Fixpoint fill_buffer (n : nat) (left : list SegmentPosition)
  : list Z * list SegmentPosition :=
  match n with
  | O => ([], left)
  | S n' =>
      match left with
      | [] => ([], [])
      | p :: left' =>
          let '(buffer, rest) := fill_buffer n' left' in
          (buffer_entry p :: buffer, rest)
      end
  end.

(** The second [for] loop:
    [match_positions |= static_cast<bool>(buffer[i]) << i]. *)
Fixpoint collect_match_positions (buffer : list Z) (i : N)
         (match_positions : N) : N :=
  match buffer with
  | [] => match_positions
  | b :: rest =>
      collect_match_positions rest (i + 1)%N
        (N.lor match_positions
               (N.shiftl (if (b =? 0)%Z then 0%N else 1%N) i))
  end.

(** The [while (match_positions)] loop that moves the hits of the buffer
    to [matches_out]. *)
Equations? collect_matches (buffer : list Z) (match_positions : N)
           (buffer_index : nat) (matches_out : PosList)
  : PosList by wf (N.to_nat match_positions) lt :=
  collect_matches buffer match_positions buffer_index matches_out
    with N.eq_dec match_positions 0 => {
    | left _ := matches_out;
    | right _ :=
        collect_matches buffer (N.shiftr match_positions 1)
          (buffer_index + 1)
          (if N.eqb (N.land match_positions 1) 1
           then matches_out ++
                [mkRowID chunk_id
                   ((nth buffer_index buffer 0%Z - 1)
                      mod ChunkOffset_modulus)]
           else matches_out) }.
Proof.
  assert (N.div2 match_positions < match_positions)%N
    by (rewrite N.div2_div; apply N.div_lt; lia).
  lia.
Qed.

(** One pass through the body of [while (left_end - left_it > BUFFER_SIZE)]. *)
Definition scan_block (left : list SegmentPosition) (matches_out : PosList)
  : list SegmentPosition * PosList :=
  let '(buffer, left') := fill_buffer BUFFER_SIZE left in
  let match_positions := collect_match_positions buffer 0 0 in
  (left', collect_matches buffer match_positions 0 matches_out).

(** The block loop; returns the advanced [left_it] (as the remaining
    range) and [matches_out]. *)
Equations? vectorized_blocks (left_it : list SegmentPosition)
           (matches_out : PosList)
  : list SegmentPosition * PosList by wf (length left_it) lt :=
  vectorized_blocks left_it matches_out
    with lt_dec BUFFER_SIZE (length left_it) => {
    | left _ :=
        vectorized_blocks (fst (scan_block left_it matches_out))
                          (snd (scan_block left_it matches_out));
    | right _ := (left_it, matches_out) }.
Proof.
  assert (Hfill : forall n xs,
             length (snd (fill_buffer n xs)) = length xs - n).
  { induction n as [|n IH]; intros [|x xs]; simpl; try lia.
    specialize (IH xs). destruct (fill_buffer n xs). simpl in *. lia. }
  unfold scan_block. specialize (Hfill BUFFER_SIZE left_it).
  destruct (fill_buffer BUFFER_SIZE left_it). simpl in *.
  change BUFFER_SIZE with 16 in *. lia.
Qed.

(** The remainder loop. *)
Fixpoint scalar_loop (left : list SegmentPosition) (matches_out : PosList)
  : PosList :=
  match left with
  | [] => matches_out
  | p :: left' =>
      if (negb LeftIsNullable || negb (is_null p))
         && func (value p) right_value
      then scalar_loop left'
             (matches_out ++ [mkRowID chunk_id (chunk_offset p)])
      else scalar_loop left' matches_out
  end.

(** [vectorized] is the compile-time condition
    [!IS_DEBUG && LeftIterator::IsVectorizable]. *)
Definition _unary_scan_with_value (vectorized : bool)
           (left : list SegmentPosition) (matches_out : PosList)
  : PosList :=
  let '(left', matches_out') :=
    if vectorized then vectorized_blocks left matches_out
    else (left, matches_out) in
  scalar_loop left' matches_out'.
End WithValue.
End Scans.


(** ** Segment iteration (segment_iteration.hpp) *)

(** Modelled from the spec: the enumeration [DataType] (all_type_variant.hpp,
    absent), a closed enumeration of the supported logical value types. *)
Inductive DataType : Type :=
| Int
| Long
| Float
| Double
| String_.

(** What the driver needs of a [BaseSegment]: its [data_type()], the
    positions a sequential iteration yields, and whether the iterable that
    [create_iterable_from_segment] builds for its encoding derives from
    [PointAccessibleSegmentIterable]. *)
Record BaseSegment : Type := mkBaseSegment {
  data_type : DataType;
  segment_positions : list SegmentPosition;
  point_accessible : bool
}.

Inductive SegmentIterationTypeErasure : Type :=
| OnlyInDebug
| Always.

Definition SegmentIterationTypeErasure_eqb
           (a b : SegmentIterationTypeErasure) : bool :=
  match a, b with
  | OnlyInDebug, OnlyInDebug | Always, Always => true
  | _, _ => false
  end.

Definition Cannot_access_non_point_accessible : string :=
  "Cannot access non-PointAccessibleSegmentIterable with position_filter".

Section SegmentIteration.
(** The build-time constant [IS_DEBUG]. *)
Variable IS_DEBUG : bool.
(** The positions a point-accessible iterable visits under a position
    filter (segment_iterables.hpp, absent). *)
Variable point_access : BaseSegment -> PosList -> list SegmentPosition.
(** The message of the failure inside [AnySegmentIterable]
    (any_segment_iterable.hpp, absent). *)
Variable any_segment_iterable_message : string.

Section Functor.
Variable A : Type.
Variable functor : list SegmentPosition -> A.

(** [segment_iterable.with_iterators(functor)]. *)
Definition with_iterators (segment : BaseSegment) : A :=
  functor (segment_positions segment).

(** [segment_iterable.with_iterators(position_filter, functor)] of a
    point-accessible iterable. *)
Definition with_iterators_filtered (segment : BaseSegment)
           (position_filter : PosList) : A :=
  functor (point_access segment position_filter).

(** Modelled from the spec: [AnySegmentIterable::with_iterators(functor)]
    (any_segment_iterable.hpp is absent); the type-erased iterable
    iterates over the same positions as the iterable it wraps. *)
Definition any_with_iterators (segment : BaseSegment) : Result A :=
  Ok (with_iterators segment).

(** Modelled from the spec:
    [AnySegmentIterable::with_iterators(position_filter, functor)]
    (any_segment_iterable.hpp is absent): "If a position filter is
    supplied but the segment's iteration abstraction does not support
    point access, the call fails with a capability-not-supported
    error". *)
Definition any_with_iterators_filtered (segment : BaseSegment)
           (position_filter : PosList) : Result A :=
  if point_accessible segment
  then Ok (with_iterators_filtered segment position_filter)
  else Failed any_segment_iterable_message.

(** [segment_with_iterators<T, type_erasure>(base_segment, functor)];
    [T = None] is [ResolveDataTypeTag], in which case [resolve_data_type]
    re-enters the function with the segment's own data type. *)
Definition segment_with_iterators (T : option DataType)
           (type_erasure : SegmentIterationTypeErasure)
           (base_segment : BaseSegment) : Result A :=
  let typed (_ : DataType) :=
    if IS_DEBUG || SegmentIterationTypeErasure_eqb type_erasure Always
    then any_with_iterators base_segment
    else Ok (with_iterators base_segment) in
  match T with
  | None => typed (data_type base_segment)
  | Some t => typed t
  end.

(** [segment_with_iterators<T, type_erasure>(base_segment,
    position_filter, functor)]; [position_filter = None] is the null
    [shared_ptr]. *)
Definition segment_with_iterators_filtered (T : option DataType)
           (type_erasure : SegmentIterationTypeErasure)
           (base_segment : BaseSegment) (position_filter : option PosList)
  : Result A :=
  match position_filter with
  | None => segment_with_iterators T type_erasure base_segment
  | Some filter =>
      let typed (_ : DataType) :=
        if IS_DEBUG || SegmentIterationTypeErasure_eqb type_erasure Always
        then any_with_iterators_filtered base_segment filter
        else if point_accessible base_segment
             then Ok (with_iterators_filtered base_segment filter)
             else Failed Cannot_access_non_point_accessible in
      match T with
      | None => typed (data_type base_segment)
      | Some t => typed t
      end
  end.
End Functor.

Section ForEach.
(** The per-value functor acts on a state of the caller. *)
Variable St : Type.
Variable functor : SegmentPosition -> St -> St.

(** [while (it != end) { functor( *it); ++it; }] *)
Definition for_each_loop (st : St) (r : list SegmentPosition) : St :=
  fold_left (fun st p => functor p st) r st.

Definition segment_for_each_filtered (T : option DataType)
           (type_erasure : SegmentIterationTypeErasure)
           (base_segment : BaseSegment) (position_filter : option PosList)
           (st : St) : Result St :=
  segment_with_iterators_filtered (for_each_loop st) T type_erasure
                                  base_segment position_filter.

Definition segment_for_each (T : option DataType)
           (type_erasure : SegmentIterationTypeErasure)
           (base_segment : BaseSegment) (st : St) : Result St :=
  segment_with_iterators (for_each_loop st) T type_erasure base_segment.
End ForEach.
End SegmentIteration.

(** ** Vocabulary of the specification *)

(** [position_before order_by p q]: [p] may stand before [q] in a range
    sorted per [order_by]. *)
Definition position_before (order_by : OrderByMode) (p q : SegmentPosition)
  : bool :=
  let value_before :=
    if order_is_ascending order_by then (value p <=? value q)%Z
    else (value q <=? value p)%Z in
  if order_is_nulls_first order_by
  then is_null p || (negb (is_null q) && value_before)
  else is_null q || (negb (is_null p) && value_before).

(** A range is sorted per [order_by] when neighbours are in order. *)
Fixpoint sorted_per (order_by : OrderByMode) (l : list SegmentPosition)
  : bool :=
  match l with
  | [] => true
  | p :: tl =>
      match tl with
      | [] => true
      | q :: _ => position_before order_by p q && sorted_per order_by tl
      end
  end.

(** All positions satisfying [f] stand before all the others. *)
Fixpoint partitioned (f : SegmentPosition -> bool) (l : list SegmentPosition)
  : bool :=
  match l with
  | [] => true
  | p :: tl =>
      if f p then partitioned f tl else forallb (fun q => negb (f q)) tl
  end.

(** The nulls form one run at the end of the range [order_by] dictates. *)
Definition nulls_at_end (order_by : OrderByMode) (l : list SegmentPosition)
  : bool :=
  if order_is_nulls_first order_by
  then partitioned (fun p => is_null p) l
  else partitioned (fun p => negb (is_null p)) l.

Fixpoint strictly_increasing (l : list Z) : bool :=
  match l with
  | [] => true
  | x :: tl =>
      match tl with
      | [] => true
      | y :: _ => (x <? y)%Z && strictly_increasing tl
      end
  end.

Definition offsets_of (l : PosList) : list Z := map rid_chunk_offset l.

(** [chunk_offset()] returns a [ChunkOffset]. *)
Definition offsets_in_range (l : list SegmentPosition) : Prop :=
  Forall (fun p => (0 <= chunk_offset p < ChunkOffset_modulus)%Z) l.

(** The bit mask the second loop of a block builds for a buffer: bit [i] is
    set when slot [i] is non-zero. *)
Fixpoint flags_of (buffer : list Z) : N :=
  match buffer with
  | [] => 0%N
  | b :: rest => ((if (b =? 0)%Z then 0 else 1) + 2 * flags_of rest)%N
  end.

(** What [collect_matches] makes of a non-zero buffer slot. *)
Definition decode_entry (chunk_id : Z) (b : Z) : RowID :=
  mkRowID chunk_id ((b - 1) mod ChunkOffset_modulus).

(** The condition of the scalar loop of [_unary_scan_with_value]. *)
Definition scalar_hit (LeftIsNullable : bool) (func : Z -> Z -> bool)
           (right_value : Z) (p : SegmentPosition) : bool :=
  (negb LeftIsNullable || negb (is_null p)) && func (value p) right_value.

(** [subsequence xs ys]: [xs] is [ys] with some elements left out, in the
    order of [ys]. *)
Inductive subsequence {A : Type} : list A -> list A -> Prop :=
| subsequence_nil : subsequence [] []
| subsequence_keep x xs ys :
    subsequence xs ys -> subsequence (x :: xs) (x :: ys)
| subsequence_skip y xs ys :
    subsequence xs ys -> subsequence xs (y :: ys).

(** The positions between the two iterators of a search, and what the
    constructor expects of these iterators. *)
Definition range_of (data : list SegmentPosition) (s : SortedSegmentSearch)
  : list SegmentPosition :=
  iterator_range data (_begin s) (_end s).

Definition valid_range (data : list SegmentPosition) (s : SortedSegmentSearch)
  : Prop :=
  _begin s <= _end s <= length data.

(** A search whose range holds no null and is sorted per [order_by]: the
    state after the nulls have been excluded. *)
Definition sorted_non_null (data : list SegmentPosition)
           (order_by : OrderByMode) (s : SortedSegmentSearch) : Prop :=
  valid_range data s
  /\ _is_ascending s = order_is_ascending order_by
  /\ sorted_per order_by (range_of data s) = true
  /\ forallb (fun p => negb (is_null p)) (range_of data s) = true.

(** Whether a position satisfies [predicate_condition] against
    [search_value] under SQL semantics: never when it is null. *)
Definition position_matches (predicate_condition : PredicateCondition)
           (search_value : Z) (p : SegmentPosition) : bool :=
  negb (is_null p) && comparator predicate_condition (value p) search_value.

(** A plain scan of the whole range with the comparison functor. *)
Definition plain_scan (chunk_id : Z) (predicate_condition : PredicateCondition)
           (search_value : Z) (l : list SegmentPosition) : PosList :=
  _unary_scan chunk_id
              (fun v => comparator predicate_condition v search_value) l [].

Definition SegmentPosition_eqb (p q : SegmentPosition) : bool :=
  (value p =? value q)%Z && Bool.eqb (is_null p) (is_null q)
  && (chunk_offset p =? chunk_offset q)%Z.

(** [l1] without the positions that occur in [l2]. *)
Definition range_minus (l1 l2 : list SegmentPosition) : list SegmentPosition :=
  filter (fun p => negb (existsb (SegmentPosition_eqb p) l2)) l1.

(** The functor [scan_sorted_segment] is used with: every position of the
    narrowed range becomes a match. *)
Definition emit_range (chunk_id : Z) (r : list SegmentPosition) : PosList :=
  map (fun p => mkRowID chunk_id (chunk_offset p)) r.

(** ** The search and the plain scan at any value type

    [SortedSegmentSearch] and the scan loops are templates over the
    iterator and with it over the type of the values.  This is the same
    code with the value type [T] and its comparison operators left open;
    the definitions above are its instance at [int32_t]. *)

Module Generic.

(** The comparison operators of a value type, by the functors of
    <functional> that stand for them: [==], [!=], [<], [<=], [>], [>=]. *)
Record Comparisons (T : Type) : Type := mkComparisons {
  equal_to : T -> T -> bool;
  not_equal_to : T -> T -> bool;
  less : T -> T -> bool;
  less_equal : T -> T -> bool;
  greater : T -> T -> bool;
  greater_equal : T -> T -> bool
}.

(** What dereferencing a segment iterator yields. *)
Record SegmentPosition (T : Type) : Type := mkSegmentPosition {
  value : T;
  is_null : bool;
  chunk_offset : Z
}.

(** The members of [SortedSegmentSearch<IteratorType, SearchValueType>]. *)
Record SortedSegmentSearch (T : Type) : Type := mkSortedSegmentSearch {
  _begin : nat;
  _end : nat;
  _predicate_condition : PredicateCondition;
  _search_value : T;
  _is_ascending : bool;
  _is_nulls_first : bool
}.

Section ValueType.
Variable T : Type.
Variable operators : Comparisons T.
(** The value-initialised [T{}], for the value of a position that does not
    exist. *)
Variable T_default : T.

Definition null_position : SegmentPosition T :=
  mkSegmentPosition T_default true 0.

Definition comparator (c : PredicateCondition) (a b : T) : bool :=
  match c with
  | Equals => equal_to operators a b
  | NotEquals => not_equal_to operators a b
  | LessThan => less operators a b
  | LessThanEquals => less_equal operators a b
  | GreaterThan => greater operators a b
  | GreaterThanEquals => greater_equal operators a b
  | _ => false
  end.

Section Iterators.
Variable data : list (SegmentPosition T).

Definition deref (it : nat) : SegmentPosition T := nth it data null_position.

Definition iterator_range (b e : nat) : list (SegmentPosition T) :=
  firstn (e - b) (skipn b data).

(** [std::lower_bound(first, first + len, val, comp)], where [comp p]
    stands for [comp( *it, val)]. *)
Equations? lower_bound_loop (comp : SegmentPosition T -> bool)
           (first len : nat) : nat by wf len lt :=
  lower_bound_loop comp first 0 := first;
  lower_bound_loop comp first (S n)
    with comp (deref (first + Nat.div2 (S n))) => {
    | true := lower_bound_loop comp (first + Nat.div2 (S n) + 1)
                               (S n - Nat.div2 (S n) - 1);
    | false := lower_bound_loop comp first (Nat.div2 (S n)) }.
Proof.
  - change (S n - Nat.div2 (S n) - 1 < S n).
    generalize (Nat.div2 (S n)). intros h. lia.
  - change (Nat.div2 (S n) < S n). apply Nat.lt_div2. lia.
Qed.

Definition lower_bound (first last : nat) (comp : SegmentPosition T -> bool)
  : nat :=
  lower_bound_loop comp first (last - first).

(** [std::upper_bound(first, first + len, val, comp)], where [comp p]
    stands for [comp(val, *it)]. *)
Equations? upper_bound_loop (comp : SegmentPosition T -> bool)
           (first len : nat) : nat by wf len lt :=
  upper_bound_loop comp first 0 := first;
  upper_bound_loop comp first (S n)
    with comp (deref (first + Nat.div2 (S n))) => {
    | true := upper_bound_loop comp first (Nat.div2 (S n));
    | false := upper_bound_loop comp (first + Nat.div2 (S n) + 1)
                                (S n - Nat.div2 (S n) - 1) }.
Proof.
  - change (Nat.div2 (S n) < S n). apply Nat.lt_div2. lia.
  - change (S n - Nat.div2 (S n) - 1 < S n).
    generalize (Nat.div2 (S n)). intros h. lia.
Qed.

Definition upper_bound (first last : nat) (comp : SegmentPosition T -> bool)
  : nat :=
  upper_bound_loop comp first (last - first).
End Iterators.

Definition set_begin (s : SortedSegmentSearch T) (b : nat)
  : SortedSegmentSearch T :=
  mkSortedSegmentSearch b (_end s) (_predicate_condition s) (_search_value s)
                        (_is_ascending s) (_is_nulls_first s).

Definition set_end (s : SortedSegmentSearch T) (e : nat)
  : SortedSegmentSearch T :=
  mkSortedSegmentSearch (_begin s) e (_predicate_condition s) (_search_value s)
                        (_is_ascending s) (_is_nulls_first s).

(** The constructor. *)
Definition new_SortedSegmentSearch (begin_ end_ : nat) (order_by : OrderByMode)
           (predicate_condition : PredicateCondition) (search_value : T)
  : SortedSegmentSearch T :=
  mkSortedSegmentSearch begin_ end_ predicate_condition search_value
                        (order_is_ascending order_by)
                        (order_is_nulls_first order_by).

Section Search.
Variable data : list (SegmentPosition T).

Definition _get_first_bound (s : SortedSegmentSearch T) : nat :=
  if _is_ascending s
  then lower_bound data (_begin s) (_end s)
                   (fun p => less operators (value p) (_search_value s))
  else lower_bound data (_begin s) (_end s)
                   (fun p => greater operators (value p) (_search_value s)).

Definition _get_last_bound (s : SortedSegmentSearch T) : nat :=
  if _is_ascending s
  then upper_bound data (_begin s) (_end s)
                   (fun p => greater operators (value p) (_search_value s))
  else upper_bound data (_begin s) (_end s)
                   (fun p => less operators (value p) (_search_value s)).

Definition _set_begin_and_end (s : SortedSegmentSearch T)
  : Result (SortedSegmentSearch T) :=
  if PredicateCondition_eqb (_predicate_condition s) Equals then
    let s1 := set_begin s (_get_first_bound s) in
    Ok (set_end s1 (_get_last_bound s1))
  else if _is_ascending s then
    match _predicate_condition s with
    | GreaterThanEquals => Ok (set_begin s (_get_first_bound s))
    | GreaterThan => Ok (set_begin s (_get_last_bound s))
    | LessThanEquals => Ok (set_end s (_get_last_bound s))
    | LessThan => Ok (set_end s (_get_first_bound s))
    | _ => Failed Unsupported_predicate
    end
  else
    match _predicate_condition s with
    | LessThanEquals => Ok (set_begin s (_get_first_bound s))
    | LessThan => Ok (set_begin s (_get_last_bound s))
    | GreaterThanEquals => Ok (set_end s (_get_last_bound s))
    | GreaterThan => Ok (set_end s (_get_first_bound s))
    | _ => Failed Unsupported_predicate
    end.

Section Functor.
Variable A : Type.
Variable functor : list (SegmentPosition T) -> A.

Definition _handle_not_equals (s : SortedSegmentSearch T) : A :=
  let first_occurrence := _get_first_bound s in
  if first_occurrence =? _end s then
    functor (iterator_range data (_begin s) (_end s))
  else
    let last_occurrence := _get_last_bound s in
    if last_occurrence =? _end s then
      functor (iterator_range data (_begin s) first_occurrence)
    else if first_occurrence =? _begin s then
      functor (iterator_range data last_occurrence (_end s))
    else
      functor (iterator_range data (_begin s) first_occurrence
               ++ iterator_range data last_occurrence (_end s)).

Definition exclude_nulls (s : SortedSegmentSearch T) : SortedSegmentSearch T :=
  if _is_nulls_first s
  then set_begin s (lower_bound data (_begin s) (_end s)
                                (fun p => is_null p))
  else set_end s (lower_bound data (_begin s) (_end s)
                              (fun p => negb (is_null p))).

Definition scan_sorted_segment (s : SortedSegmentSearch T) : Result A :=
  let s := exclude_nulls s in
  if PredicateCondition_eqb (_predicate_condition s) NotEquals then
    Ok (_handle_not_equals s)
  else
    match _set_begin_and_end s with
    | Ok s' => Ok (functor (iterator_range data (_begin s') (_end s')))
    | Failed msg => Failed msg
    end.
End Functor.
End Search.

(** [_unary_scan]. *)
Fixpoint _unary_scan (chunk_id : Z) (func : T -> bool)
         (left : list (SegmentPosition T)) (matches_out : PosList) : PosList :=
  match left with
  | [] => matches_out
  | p :: left' =>
      if is_null p then _unary_scan chunk_id func left' matches_out
      else if func (value p)
           then _unary_scan chunk_id func left'
                            (matches_out ++ [mkRowID chunk_id (chunk_offset p)])
           else _unary_scan chunk_id func left' matches_out
  end.

(** The vocabulary of the specification at this value type. *)
Definition position_before (order_by : OrderByMode) (p q : SegmentPosition T)
  : bool :=
  let value_before :=
    if order_is_ascending order_by
    then less_equal operators (value p) (value q)
    else less_equal operators (value q) (value p) in
  if order_is_nulls_first order_by
  then is_null p || (negb (is_null q) && value_before)
  else is_null q || (negb (is_null p) && value_before).

Fixpoint sorted_per (order_by : OrderByMode) (l : list (SegmentPosition T))
  : bool :=
  match l with
  | [] => true
  | p :: tl =>
      match tl with
      | [] => true
      | q :: _ => position_before order_by p q && sorted_per order_by tl
      end
  end.

Definition position_matches (predicate_condition : PredicateCondition)
           (search_value : T) (p : SegmentPosition T) : bool :=
  negb (is_null p) && comparator predicate_condition (value p) search_value.

Definition plain_scan (chunk_id : Z) (predicate_condition : PredicateCondition)
           (search_value : T) (l : list (SegmentPosition T)) : PosList :=
  _unary_scan chunk_id
              (fun v => comparator predicate_condition v search_value) l [].

Definition emit_range (chunk_id : Z) (r : list (SegmentPosition T)) : PosList :=
  map (fun p => mkRowID chunk_id (chunk_offset p)) r.

(** The operators of a type whose [<] is a strict total order and whose
    other operators are the usual ones for it: integers and strings are
    such types, a floating-point type with its NaN is not. *)
Record strict_total_order : Prop := {
  less_irreflexive : forall a, less operators a a = false;
  less_transitive : forall a b c,
      less operators a b = true -> less operators b c = true ->
      less operators a c = true;
  less_total : forall a b,
      less operators a b = false -> less operators b a = false -> a = b;
  equal_to_is_equality : forall a b, equal_to operators a b = true <-> a = b;
  not_equal_to_is_negation : forall a b,
      not_equal_to operators a b = negb (equal_to operators a b);
  greater_is_converse : forall a b, greater operators a b = less operators b a;
  less_equal_is_not_greater : forall a b,
      less_equal operators a b = negb (less operators b a);
  greater_equal_is_not_less : forall a b,
      greater_equal operators a b = negb (less operators a b)
}.

End ValueType.

(** A [double] column as far as its comparisons go: the values here are the
    integers, each of which a [double] holds exactly up to 2^53, and NaN, on
    which every comparison but [!=] is false. *)
Inductive Double : Type :=
| Finite (z : Z)
| NaN.


(** The operators of [int32_t]. *)
Definition int32_t_operators : Comparisons Z :=
  mkComparisons Z.eqb (fun x y => negb (x =? y)%Z) Z.ltb Z.leb Z.gtb Z.geb.

End Generic.

(** How a value compares with the search value: -1 when it is less, 1 when
    it is greater, 0 otherwise; and the position of an [int32_t] column
    that stands to 0 as a position stands to the search value. *)
Definition compared_with (T : Type) (operators : Generic.Comparisons T)
           (search_value x : T) : Z :=
  if Generic.less operators x search_value then (-1)%Z
  else if Generic.greater operators x search_value then 1%Z
  else 0%Z.

Definition as_compared_with (T : Type) (operators : Generic.Comparisons T)
           (search_value : T) (p : Generic.SegmentPosition T)
  : SegmentPosition :=
  mkSegmentPosition (compared_with operators search_value (Generic.value p))
                    (Generic.is_null p) (Generic.chunk_offset p).

(** The search over the [int32_t] column that stands for a column of [T]. *)
Definition search_compared (T : Type) (s : Generic.SortedSegmentSearch T)
  : SortedSegmentSearch :=
  mkSortedSegmentSearch (Generic._begin s) (Generic._end s)
                        (Generic._predicate_condition s) 0
                        (Generic._is_ascending s) (Generic._is_nulls_first s).

(** ** Expression functors (expression_functors.hpp) *)

Module ExpressionFunctors.

(** An argument of a functor: a value of a column type, here [int32_t], or
    the [NullValue] that a NULL literal has as its type. *)
Inductive Argument : Type :=
| Int32 (v : Z)
| NullValue.

(** [to_bool(const bool)] receives an [int32_t] through the conversion to
    [bool]; [to_bool(const NullValue&)] is [false]. *)
Definition to_bool (a : Argument) : bool :=
  match a with
  | Int32 v => negb (v =? 0)%Z
  | NullValue => false
  end.

(** [TernaryOr::operator()]: the pair [(result_value, result_null)]. *)
Definition TernaryOr (a_value : Argument) (a_null : bool)
           (b_value : Argument) (b_null : bool) : bool * bool :=
  let a_is_true := negb a_null && to_bool a_value in
  let b_is_true := negb b_null && to_bool b_value in
  let result_value := a_is_true || b_is_true in
  let result_null := (a_null || b_null) && negb result_value in
  (result_value, result_null).

(** [TernaryAnd::operator()]; the two [if constexpr] lines apply to
    arguments that are not of type [NullValue]. *)
Definition TernaryAnd (a_value : Argument) (a_null : bool)
           (b_value : Argument) (b_null : bool) : bool * bool :=
  let a_is_true := negb a_null && to_bool a_value in
  let b_is_true := negb b_null && to_bool b_value in
  let result_value := a_is_true && b_is_true in
  let result_null := a_null && b_null in
  let result_null :=
    match a_value with
    | Int32 v => result_null || (negb (v =? 0)%Z && b_null)
    | NullValue => result_null
    end in
  let result_null :=
    match b_value with
    | Int32 v => result_null || (negb (v =? 0)%Z && a_null)
    | NullValue => result_null
    end in
  (result_value, result_null).

(** [STLComparisonFunctorWrapper<Functor>::operator()] with [Result =
    int32_t]: [Result{}] when an argument is a [NullValue], else the
    comparison cast to [int32_t]. *)
Definition STLComparisonFunctorWrapper (Functor : Z -> Z -> bool)
           (a b : Argument) : Z :=
  match a, b with
  | Int32 x, Int32 y => if Functor x y then 1%Z else 0%Z
  | _, _ => 0%Z
  end.

Definition Equals := STLComparisonFunctorWrapper Z.eqb.
Definition NotEquals := STLComparisonFunctorWrapper (fun x y => negb (x =? y)%Z).
Definition GreaterThan := STLComparisonFunctorWrapper Z.gtb.
Definition GreaterThanEquals := STLComparisonFunctorWrapper Z.geb.
Definition LessThan := STLComparisonFunctorWrapper Z.ltb.
Definition LessThanEquals := STLComparisonFunctorWrapper Z.leb.

Definition INT32_MIN : Z := - 2 ^ 31.
Definition INT32_MAX : Z := 2 ^ 31 - 1.

Definition is_int32_t (z : Z) : bool :=
  (INT32_MIN <=? z)%Z && (z <=? INT32_MAX)%Z.

(** [a / b] and [a % b] on [int32_t] with [b != 0].  Both truncate towards
    zero, and both are undefined where the quotient is no [int32_t], which
    is [INT32_MIN] by [-1]; undefined is [None]. *)
Definition int32_t_quot (a b : Z) : option Z :=
  if is_int32_t (Z.quot a b) then Some (Z.quot a b) else None.

Definition int32_t_rem (a b : Z) : option Z :=
  if is_int32_t (Z.quot a b) then Some (Z.rem a b) else None.

(** [Modulo::operator()] on [int32_t] arguments.  [result_value] is an
    in-out parameter: the first component is what it holds afterwards.
    [None] is undefined behaviour. *)
Definition Modulo (result_value : Z) (a_value : Argument) (a_null : bool)
           (b_value : Argument) (b_null : bool) : option (Z * bool) :=
  let result_null := a_null || b_null in
  if result_null then Some (result_value, result_null)
  else
    match a_value, b_value with
    | Int32 a, Int32 b =>
        if (b =? 0)%Z then Some (result_value, true)
        else match int32_t_rem a b with
             | Some r => Some (r, result_null)
             | None => None
             end
    | _, _ => Some (0%Z, result_null)
    end.

(** [Division::operator()] on [int32_t] arguments; there is no early
    return, so the quotient is computed for null arguments too. *)
Definition Division (result_value : Z) (a_value : Argument) (a_null : bool)
           (b_value : Argument) (b_null : bool) : option (Z * bool) :=
  let result_null := a_null || b_null in
  match a_value, b_value with
  | Int32 a, Int32 b =>
      if (b =? 0)%Z then Some (result_value, true)
      else match int32_t_quot a b with
           | Some q => Some (q, result_null)
           | None => None
           end
  | _, _ => Some (0%Z, result_null)
  end.

(** SQL's three truth values, and the tables of its OR and AND. *)
Inductive Ternary : Type :=
| TRUE
| FALSE
| NULL.

Definition sql_or (a b : Ternary) : Ternary :=
  match a, b with
  | TRUE, _ | _, TRUE => TRUE
  | FALSE, FALSE => FALSE
  | _, _ => NULL
  end.

Definition sql_and (a b : Ternary) : Ternary :=
  match a, b with
  | FALSE, _ | _, FALSE => FALSE
  | TRUE, TRUE => TRUE
  | _, _ => NULL
  end.

(** The truth value an argument with its null flag stands for, and the one
    a result pair stands for. *)
Definition truth (value : Argument) (null : bool) : Ternary :=
  if null then NULL else if to_bool value then TRUE else FALSE.

Definition truth_of_result (r : bool * bool) : Ternary :=
  if snd r then NULL else if fst r then TRUE else FALSE.

End ExpressionFunctors.

(** ** Expression results (expression_result.hpp) *)

Module ExpressionResult.

Definition Invalid_ExpressionResult_access : string :=
  "Invalid ExpressionResult access".

Definition Null_idx_out_of_bounds : string := "Null idx out of bounds".

Section Typed.
Variable T : Type.
(** The value-initialised [T{}]. *)
Variable T_default : T.
(** The build-time constant [IS_DEBUG]. *)
Variable IS_DEBUG : bool.

(** [DebugAssert(expr, msg)] (utils/assert.hpp, absent): in a debug build a
    false [expr] is [Fail(msg)]; a release build does not evaluate it. *)
Definition DebugAssert (A : Type) (expr : bool) (msg : string)
           (rest : Result A) : Result A :=
  if IS_DEBUG && negb expr then Failed msg else rest.

Record ExpressionResult : Type := mkExpressionResult {
  values : list T;
  nulls : list bool
}.

Definition make_null : ExpressionResult :=
  mkExpressionResult [T_default] [true].

Definition size (r : ExpressionResult) : nat := length (values r).

Definition is_nullable_series (r : ExpressionResult) : bool :=
  negb (size r =? 1).

Definition is_literal (r : ExpressionResult) : bool := size r =? 1.

Definition is_nullable (r : ExpressionResult) : bool :=
  match nulls r with
  | [] => false
  | _ :: _ => true
  end.

Definition size_t_modulus : N := 2 ^ 64.

(** [std::min(idx, n - 1)] on [size_t]: [n - 1] wraps around for [n = 0]. *)
Definition clamped_index (idx : N) (n : nat) : N :=
  N.min idx ((N.of_nat n + size_t_modulus - 1) mod size_t_modulus).

(** The condition of both assertions: [size() == 1 || idx < size()]. *)
Definition valid_access (r : ExpressionResult) (idx : N) : bool :=
  (size r =? 1) || (idx <? N.of_nat (size r))%N.

(** [value(idx)]; reading outside the vector is [None]. *)
Definition value (r : ExpressionResult) (idx : N) : Result (option T) :=
  DebugAssert (valid_access r idx) Invalid_ExpressionResult_access
    (Ok (nth_error (values r)
                   (N.to_nat (clamped_index idx (length (values r)))))).

(** [is_null(idx)]. *)
Definition is_null (r : ExpressionResult) (idx : N) : Result (option bool) :=
  DebugAssert (valid_access r idx) Null_idx_out_of_bounds
    (Ok match nulls r with
        | [] => Some false
        | _ :: _ =>
            nth_error (nulls r)
                      (N.to_nat (clamped_index idx (length (nulls r))))
        end).

(** The three views of expression_result_views.hpp, by what they are
    constructed from. *)
Inductive View : Type :=
| ExpressionResultLiteral (value : T) (null : bool)
| ExpressionResultNonNullSeries (values : list T)
| ExpressionResultNullableSeries (values : list T) (nulls : list bool).

(** [as_view(fn)].  [values.front()] and [nulls.front()] are only reached
    on non-empty vectors. *)
Definition as_view (A : Type) (fn : View -> A) (r : ExpressionResult) : A :=
  if size r =? 1 then
    fn (ExpressionResultLiteral (hd T_default (values r))
                                (is_nullable r && hd false (nulls r)))
  else if (length (nulls r) =? 1) && hd false (nulls r) then
    fn (ExpressionResultLiteral T_default true)
  else if negb (is_nullable r) then
    fn (ExpressionResultNonNullSeries (values r))
  else
    fn (ExpressionResultNullableSeries (values r) (nulls r)).
End Typed.
End ExpressionResult.

(** ** The text logger (simple_logger.cpp) *)

Module SimpleLogger.
Section Printers.
(** [AllTypeVariant], [operator<<] for it and for [RowID] are declared in
    absent headers and are taken as they come. *)
Variable AllTypeVariant : Type.
Variable print_value : AllTypeVariant -> string.
Variable print_RowID : RowID -> string.

(** [ss << n] for an unsigned integer: its decimal digits. *)
Definition decimal (n : N) : string :=
  DecimalString.NilZero.string_of_uint (N.to_uint n).

(** [s.size()]. *)
Definition size (s : string) : N := N.of_nat (String.length s).

Definition newline : string := String (Ascii.ascii_of_nat 10) EmptyString.

(** The log file as the logger sees it: what has been written through the
    descriptor (opened with [O_APPEND]) and how much of it [fsync] has
    forced out.  [write] is taken to write all of [data]; its result is
    not looked at by the code. *)
Record Logger : Type := mkLogger {
  logfile : string;
  flushed : nat
}.

Definition _write_to_logfile (logger : Logger) (data : string) : Logger :=
  mkLogger (logfile logger ++ data)%string (flushed logger).

Definition log_flush (logger : Logger) : Logger :=
  mkLogger (logfile logger) (String.length (logfile logger)).

(** What the string stream of [log_commit] holds. *)
Definition commit_entry (transaction_id : N) : string :=
  ("(t," ++ decimal transaction_id ++ ")" ++ newline)%string.

Definition log_commit (A : Type) (logger : Logger) (transaction_id : N)
           (callback : N -> A -> A) (world : A) : Logger * A :=
  let logger := _write_to_logfile logger (commit_entry transaction_id) in
  let logger := log_flush logger in
  (logger, callback transaction_id world).

(** The loop of [log_value] over the values after the first. *)
Fixpoint further_values (values : list AllTypeVariant) : string :=
  match values with
  | [] => EmptyString
  | value :: values' =>
      ("," ++ decimal (size (print_value value)) ++ ","
           ++ print_value value ++ further_values values')%string
  end.

(** What the string stream of [log_value] holds; [values[0]] of an empty
    vector is outside the vector, which is [None]. *)
Definition value_entry (transaction_id : N) (table_name : string)
           (row_id : RowID) (values : list AllTypeVariant) : option string :=
  match values with
  | [] => None
  | first :: values' =>
      Some ("(v," ++ decimal transaction_id ++ ","
                 ++ decimal (size table_name) ++ "," ++ table_name ++ ","
                 ++ print_RowID row_id ++ ",("
                 ++ decimal (size (print_value first)) ++ ","
                 ++ print_value first ++ further_values values'
                 ++ "))" ++ newline)%string
  end.

Definition log_value (logger : Logger) (transaction_id : N)
           (table_name : string) (row_id : RowID)
           (values : list AllTypeVariant) : option Logger :=
  match value_entry transaction_id table_name row_id values with
  | Some data => Some (_write_to_logfile logger data)
  | None => None
  end.

Definition invalidate_entry (transaction_id : N) (table_name : string)
           (row_id : RowID) : string :=
  ("(i," ++ decimal transaction_id ++ "," ++ decimal (size table_name) ++ ","
         ++ table_name ++ "," ++ print_RowID row_id ++ ")" ++ newline)%string.

Definition log_invalidate (logger : Logger) (transaction_id : N)
           (table_name : string) (row_id : RowID) : Logger :=
  _write_to_logfile logger (invalidate_entry transaction_id table_name row_id).

Definition load_table_entry (file_path table_name : string) : string :=
  ("(l," ++ decimal (size file_path) ++ "," ++ file_path ++ ","
         ++ decimal (size table_name) ++ "," ++ table_name ++ ")"
         ++ newline)%string.

Definition log_load_table (logger : Logger) (file_path table_name : string)
  : Logger :=
  log_flush (_write_to_logfile logger (load_table_entry file_path table_name)).

(** One call of the logger, and a run of calls from a given state of the
    log; a call of [log_value] without values ends the run. *)
Inductive Call : Type :=
| Commit (transaction_id : N)
| Value (transaction_id : N) (table_name : string) (row_id : RowID)
        (values : list AllTypeVariant)
| Invalidate (transaction_id : N) (table_name : string) (row_id : RowID)
| LoadTable (file_path table_name : string).

Definition call (logger : Logger) (c : Call) : option Logger :=
  match c with
  | Commit t => Some (fst (log_commit logger t (fun _ (u : unit) => u) tt))
  | Value t n r vs => log_value logger t n r vs
  | Invalidate t n r => Some (log_invalidate logger t n r)
  | LoadTable p n => Some (log_load_table logger p n)
  end.

Fixpoint run (logger : Logger) (calls : list Call) : option Logger :=
  match calls with
  | [] => Some logger
  | c :: calls' =>
      match call logger c with
      | Some logger' => run logger' calls'
      | None => None
      end
  end.

(** The entry a call writes. *)
Definition entry_of (c : Call) : option string :=
  match c with
  | Commit t => Some (commit_entry t)
  | Value t n r vs => value_entry t n r vs
  | Invalidate t n r => Some (invalidate_entry t n r)
  | LoadTable p n => Some (load_table_entry p n)
  end.

(** Two calls that a reader of the log cannot tell apart: the same kind of
    call with the same arguments, values as far as they are printed. *)
Definition same_call (c1 c2 : Call) : Prop :=
  match c1, c2 with
  | Commit t1, Commit t2 => t1 = t2
  | Value t1 n1 r1 vs1, Value t2 n2 r2 vs2 =>
      t1 = t2 /\ n1 = n2 /\ r1 = r2
      /\ map print_value vs1 = map print_value vs2
  | Invalidate t1 n1 r1, Invalidate t2 n2 r2 => t1 = t2 /\ n1 = n2 /\ r1 = r2
  | LoadTable p1 n1, LoadTable p2 n2 => p1 = p2 /\ n1 = n2
  | _, _ => False
  end.

(** The entries of a run of calls, one after the other. *)
Fixpoint entries (calls : list Call) : option string :=
  match calls with
  | [] => Some EmptyString
  | c :: calls' =>
      match entry_of c, entries calls' with
      | Some e, Some s => Some (e ++ s)%string
      | _, _ => None
      end
  end.

(** No row id is printed as the beginning of the print of another. *)
Definition unambiguous_RowIDs : Prop :=
  forall rid1 rid2 tail1 tail2,
    (print_RowID rid1 ++ tail1 = print_RowID rid2 ++ tail2)%string ->
    rid1 = rid2 /\ tail1 = tail2.

(** The calls that end in [log_flush]. *)
Definition flushes (c : Call) : bool :=
  match c with
  | Commit _ | LoadTable _ _ => true
  | Value _ _ _ _ | Invalidate _ _ _ => false
  end.

Definition is_digit (c : Ascii.ascii) : bool :=
  (48 <=? Ascii.nat_of_ascii c) && (Ascii.nat_of_ascii c <=? 57).

Fixpoint all_digits (s : string) : bool :=
  match s with
  | EmptyString => true
  | String c s' => is_digit c && all_digits s'
  end.
End Printers.

(** A printer of row ids that no reader can misread, for use in examples:
    two numbers, each an integer folded into the naturals. *)
Definition fold_Z (z : Z) : N :=
  Z.to_N (if (z <? 0)%Z then - 2 * z - 1 else 2 * z)%Z.

Definition example_print_RowID (r : RowID) : string :=
  ("RowID(" ++ decimal (fold_Z (rid_chunk_id r)) ++ ","
            ++ decimal (fold_Z (rid_chunk_offset r)) ++ ")")%string.
End SimpleLogger.

(** ** The benchmark of scans of sorted tables
       (table_scan_sorted_benchmark.cpp) *)

Module Benchmark.

(** An [int32_t] after an increment; an increment past [INT32_MAX] is taken
    to wrap around. *)
Definition int32_t (z : Z) : Z := ((z + 2 ^ 31) mod 2 ^ 32 - 2 ^ 31)%Z.

(** [std::iota(first, last, counter)] over [n] slots: each slot takes the
    counter, which is then incremented. *)
Fixpoint iota (n : nat) (counter : Z) : list Z :=
  match n with
  | O => []
  | S n' => counter :: iota n' (int32_t (counter + 1))
  end.

(** [generate_values<int32_t>]; filling through the reverse iterators puts
    the first counter value into the last slot. *)
Definition generate_values_int32_t (table_size : nat) (order_by : OrderByMode)
  : list Z :=
  if OrderByMode_eqb order_by Ascending
     || OrderByMode_eqb order_by AscendingNullsLast
  then iota table_size 0
  else rev (iota table_size 0).

Section Strings.
Import Ascii.

Definition string_size : nat := 512.

(** [std::string(n, '0')]. *)
Fixpoint zeros (n : nat) : string :=
  match n with
  | O => EmptyString
  | S n' => String "0"%char (zeros n')
  end.

(** [pad_string]; for a [str] longer than [size] the unsigned difference
    wraps around and a string of that many characters cannot be built
    ([std::length_error]), which is [None]. *)
Definition pad_string (str : string) (size : nat) : option string :=
  if String.length str <=? size
  then Some (zeros (size - String.length str) ++ str)%string
  else None.

(** [std::to_string] of an unsigned integer. *)
Definition to_string (n : N) : string :=
  DecimalString.NilZero.string_of_uint (N.to_uint n).

(** A loop of [generate_values<pmr_string>] over the rows:
    [values[row_index] = pad_string(std::to_string(number), string_size)]. *)
Fixpoint fill_rows (number : nat -> N) (rows : list nat)
  : option (list string) :=
  match rows with
  | [] => Some []
  | row_index :: rows' =>
      match pad_string (to_string (number row_index)) string_size,
            fill_rows number rows' with
      | Some v, Some values => Some (v :: values)
      | _, _ => None
      end
  end.

(** [generate_values<pmr_string>]; no [row_index] reaches [table_size], so
    the unsigned [table_size - row_index - 1] does not wrap. *)
Definition generate_values_pmr_string (table_size : nat)
           (order_by : OrderByMode) : option (list string) :=
  if OrderByMode_eqb order_by Ascending
     || OrderByMode_eqb order_by AscendingNullsLast
  then fill_rows (fun row_index => N.of_nat row_index) (seq 0 table_size)
  else fill_rows (fun row_index => N.of_nat (table_size - row_index - 1))
                 (seq 0 table_size).

(** The number a string of decimal digits denotes. *)
Fixpoint digits_value (s : string) : N :=
  match s with
  | EmptyString => 0
  | String c s' =>
      ((N_of_ascii c - 48) * 10 ^ N.of_nat (String.length s')
       + digits_value s')%N
  end.
End Strings.

(** A chunk of the one-column table: the values of its segment and what
    [set_ordered_by] has recorded. *)
Record Chunk (A : Type) : Type := mkChunk {
  segment : list A;
  ordered_by : option (nat * OrderByMode)
}.

Section Table.
(** The template parameter [Type]. *)
Variable A : Type.
(** The global [CHUNK_SIZE], which the file sets to 100'000 and never
    assigns again. *)
Variable CHUNK_SIZE : nat.
(** What [std::shuffle] makes of the values with the generator it is given. *)
Variable shuffle : list A -> list A.

(** [create_table]: the chunks of the table it wraps.  [table_size] is taken
    not to be negative and [value_generator] to return [table_size] values,
    as both generators do, so that no chunk reaches past the end of
    [values]; the division by a [CHUNK_SIZE] of zero is [None].  Encoding
    the chunks (chunk_encoder.hpp, absent) leaves their values as they are
    and is left out. *)
Definition create_table (table_size : nat)
           (value_generator : nat -> OrderByMode -> list A)
           (order_by : option OrderByMode) : option (list (Chunk A)) :=
  let values :=
    value_generator table_size
                    (match order_by with Some o => o | None => Ascending end) in
  let values :=
    match order_by with
    | None => shuffle values
    | Some _ => values
    end in
  if CHUNK_SIZE =? 0 then None
  else
    let chunks :=
      map (fun chunk_index =>
             mkChunk (firstn CHUNK_SIZE
                             (skipn (CHUNK_SIZE * chunk_index) values))
                     (@None (nat * OrderByMode)))
          (seq 0 (table_size / CHUNK_SIZE)) in
    Some match order_by with
         | Some o => map (fun chunk => mkChunk (segment chunk) (Some (0, o)))
                         chunks
         | None => chunks
         end.
End Table.

(** The positions an iteration over a value segment without null values
    yields (value_segment_iterable.hpp, absent): its values in order, none
    null, with chunk offsets counted from [offset]. *)
Fixpoint positions_from (offset : Z) (values : list Z) : list SegmentPosition :=
  match values with
  | [] => []
  | v :: values' =>
      mkSegmentPosition v false offset :: positions_from (offset + 1) values'
  end.

Definition value_segment_positions (values : list Z) : list SegmentPosition :=
  positions_from 0 values.

End Benchmark.

(** * Properties *)

(** ** The scenarios of the specification *)

Example scenario_1 :
  let data := map (fun '(v, o) => mkSegmentPosition v false o)
                  [(0, 0); (1, 1); (2, 2); (2, 3); (3, 4); (4, 5)]%Z in
  scan_sorted_segment data (emit_range 0)
    (new_SortedSegmentSearch 0 (length data) Ascending Equals 2)
  = Ok [mkRowID 0 2; mkRowID 0 3].
Proof. vm_compute. reflexivity. Qed.

Example scenario_2 :
  let data := [mkSegmentPosition 5 false 0; mkSegmentPosition 4 false 1;
               mkSegmentPosition 3 false 2; mkSegmentPosition 2 false 3;
               mkSegmentPosition 1 false 4; mkSegmentPosition 0 true 5;
               mkSegmentPosition 0 true 6] in
  scan_sorted_segment data (emit_range 0)
    (new_SortedSegmentSearch 0 (length data) DescendingNullsLast GreaterThan 3)
  = Ok [mkRowID 0 0; mkRowID 0 1].
Proof. vm_compute. reflexivity. Qed.

Example scenario_4 :
  let data := map (fun '(v, o) => mkSegmentPosition v false o)
                  [(1, 0); (1, 1); (2, 2); (2, 3); (3, 4)]%Z in
  scan_sorted_segment data (emit_range 0)
    (new_SortedSegmentSearch 0 (length data) Ascending NotEquals 2)
  = Ok [mkRowID 0 0; mkRowID 0 1; mkRowID 0 4].
Proof. vm_compute. reflexivity. Qed.

Example scenario_3 :
  plain_scan 0 NotEquals 1
    (map (fun '(v, o) => mkSegmentPosition v false o)
         [(3, 0); (1, 1); (4, 2); (1, 3); (5, 4)]%Z)
  = [mkRowID 0 0; mkRowID 0 2; mkRowID 0 4].
Proof. reflexivity. Qed.

(** Scenario 5 at a smaller size: 49 equal values cross three block seams. *)
Example scenario_5 :
  let left := map (fun i => mkSegmentPosition 7 false (Z.of_nat i))
                  (seq 0 49) in
  offsets_of (_unary_scan_with_value 0 false Z.eqb 7 true left [])
  = map Z.of_nat (seq 0 49).
Proof. vm_compute. reflexivity. Qed.

(** ** Binary searches *)

Section BinarySearchFacts.
Variable data : list SegmentPosition.

Lemma div2_lt_S n : Nat.div2 (S n) < S n.
Proof. apply Nat.lt_div2. lia. Qed.

(** Names the midpoint offset [len >> 1] and keeps only its bound. *)
Ltac name_half n h Hd :=
  pose proof (div2_lt_S n) as Hd;
  remember (Nat.div2 (S n)) as h eqn:Eh; clear Eh.

(** The result of a search lies inside the searched range, whatever the
    range holds. *)
Lemma lower_bound_loop_bounds comp first len :
  first <= lower_bound_loop data comp first len <= first + len.
Proof.
  funelim (lower_bound_loop data comp first len).
  - lia.
  - name_half n h Hd. lia.
  - name_half n h Hd. lia.
Qed.

Lemma upper_bound_loop_bounds comp first len :
  first <= upper_bound_loop data comp first len <= first + len.
Proof.
  funelim (upper_bound_loop data comp first len).
  - lia.
  - name_half n h Hd. lia.
  - name_half n h Hd. lia.
Qed.

(** On a range whose first [k] positions satisfy [comp] and whose other
    positions do not, [lower_bound] returns the partition point. *)
Lemma lower_bound_loop_partition_point comp first len :
  forall k,
    k <= len ->
    (forall i, i < k -> comp (deref data (first + i)) = true) ->
    (forall i, k <= i < len -> comp (deref data (first + i)) = false) ->
    lower_bound_loop data comp first len = first + k.
Proof.
  funelim (lower_bound_loop data comp first len); intros k Hk Ht Hf.
  - lia.
  - name_half n h Hd.
    assert (Hlt : h < k).
    { destruct (Nat.lt_ge_cases h k) as [|Hge]; [assumption|].
      rewrite (Hf h) in Heq by lia. discriminate. }
    rewrite (H (k - h - 1)); try lia.
    + intros i Hi.
      replace (first + h + 1 + i) with (first + (h + 1 + i)) by lia.
      apply Ht. lia.
    + intros i Hi.
      replace (first + h + 1 + i) with (first + (h + 1 + i)) by lia.
      apply Hf. lia.
  - name_half n h Hd.
    assert (Hle : k <= h).
    { destruct (Nat.lt_ge_cases h k) as [Hlt|]; [|assumption].
      rewrite (Ht h) in Heq by lia. discriminate. }
    apply H; try lia.
    + assumption.
    + intros i Hi. apply Hf. lia.
Qed.

(** [upper_bound] returns the partition point of a range whose first [k]
    positions do not satisfy [comp] and whose other positions do. *)
Lemma upper_bound_loop_partition_point comp first len :
  forall k,
    k <= len ->
    (forall i, i < k -> comp (deref data (first + i)) = false) ->
    (forall i, k <= i < len -> comp (deref data (first + i)) = true) ->
    upper_bound_loop data comp first len = first + k.
Proof.
  funelim (upper_bound_loop data comp first len); intros k Hk Hf Ht.
  - lia.
  - name_half n h Hd.
    assert (Hle : k <= h).
    { destruct (Nat.lt_ge_cases h k) as [Hlt|]; [|assumption].
      rewrite (Hf h) in Heq by lia. discriminate. }
    apply H; try lia.
    + assumption.
    + intros i Hi. apply Ht. lia.
  - name_half n h Hd.
    assert (Hlt : h < k).
    { destruct (Nat.lt_ge_cases h k) as [|Hge]; [assumption|].
      rewrite (Ht h) in Heq by lia. discriminate. }
    rewrite (H (k - h - 1)); try lia.
    + intros i Hi.
      replace (first + h + 1 + i) with (first + (h + 1 + i)) by lia.
      apply Hf. lia.
    + intros i Hi.
      replace (first + h + 1 + i) with (first + (h + 1 + i)) by lia.
      apply Ht. lia.
Qed.
End BinarySearchFacts.

(** ** Partitioned ranges *)

Section PartitionFacts.
Variable f : SegmentPosition -> bool.

Lemma forallb_negb_filter l :
  forallb (fun q => negb (f q)) l = true ->
  filter f l = [] /\ filter (fun q => negb (f q)) l = l.
Proof.
  induction l as [|p l IH]; simpl; [auto|].
  intros H. apply andb_prop in H. destruct H as [Hp Hl].
  destruct (IH Hl) as [E1 E2]. destruct (f p); simpl in *; try discriminate.
  rewrite E1, E2. auto.
Qed.

(** A partitioned range is its [f]-part followed by the rest. *)
Lemma partitioned_split l :
  partitioned f l = true ->
  l = filter f l ++ filter (fun q => negb (f q)) l.
Proof.
  induction l as [|p l IH]; simpl; [reflexivity|].
  destruct (f p) eqn:Ep; simpl; intros H.
  - f_equal. apply IH. exact H.
  - destruct (forallb_negb_filter l H) as [E1 E2]. rewrite E1, E2.
    reflexivity.
Qed.

Lemma partitioned_firstn l :
  partitioned f l = true ->
  firstn (length (filter f l)) l = filter f l.
Proof.
  intros H. rewrite (partitioned_split l H) at 2.
  rewrite firstn_app, Nat.sub_diag, firstn_all. simpl.
  apply app_nil_r.
Qed.

Lemma partitioned_skipn l :
  partitioned f l = true ->
  skipn (length (filter f l)) l = filter (fun q => negb (f q)) l.
Proof.
  intros H. rewrite (partitioned_split l H) at 2.
  rewrite skipn_app, Nat.sub_diag, skipn_all. reflexivity.
Qed.

Lemma partitioned_nth_true l i :
  partitioned f l = true ->
  i < length (filter f l) -> f (nth i l null_position) = true.
Proof.
  intros H Hi. rewrite (partitioned_split l H), app_nth1 by assumption.
  assert (Hin : In (nth i (filter f l) null_position) (filter f l))
    by (apply nth_In; assumption).
  apply filter_In in Hin. tauto.
Qed.

Lemma partitioned_nth_false l i :
  partitioned f l = true ->
  length (filter f l) <= i < length l -> f (nth i l null_position) = false.
Proof.
  intros H Hi. pose proof (filter_length f l) as Hlen.
  rewrite (partitioned_split l H), app_nth2 by lia.
  set (g := fun q => negb (f q)) in *.
  assert (Hin : In (nth (i - length (filter f l)) (filter g l) null_position)
                   (filter g l))
    by (apply nth_In; lia).
  apply filter_In in Hin. destruct Hin as [_ Hg]. unfold g in Hg.
  apply negb_true_iff in Hg. exact Hg.
Qed.
End PartitionFacts.

(** ** Iterator ranges *)

Section RangeFacts.
Variable data : list SegmentPosition.

Lemma iterator_range_length b e :
  b <= e <= length data -> length (iterator_range data b e) = e - b.
Proof.
  intros H. unfold iterator_range.
  rewrite length_firstn, length_skipn. lia.
Qed.

Lemma iterator_range_all :
  iterator_range data 0 (length data) = data.
Proof.
  unfold iterator_range. rewrite Nat.sub_0_r. simpl. apply firstn_all.
Qed.

Lemma deref_iterator_range b e i :
  i < e - b ->
  deref data (b + i) = nth i (iterator_range data b e) null_position.
Proof.
  intros Hi. unfold deref, iterator_range.
  rewrite nth_firstn, nth_skipn.
  destruct (Nat.ltb_spec i (e - b)); [reflexivity|lia].
Qed.

Lemma iterator_range_prefix b e k :
  k <= e - b ->
  iterator_range data b (b + k) = firstn k (iterator_range data b e).
Proof.
  intros Hk. unfold iterator_range.
  rewrite firstn_firstn. f_equal. lia.
Qed.

Lemma iterator_range_suffix b e k :
  k <= e - b ->
  iterator_range data (b + k) e = skipn k (iterator_range data b e).
Proof.
  intros Hk. unfold iterator_range.
  rewrite skipn_firstn_comm, skipn_skipn. f_equal; [lia|].
  f_equal. lia.
Qed.

Lemma iterator_range_empty b : iterator_range data b b = [].
Proof. unfold iterator_range. rewrite Nat.sub_diag. reflexivity. Qed.

Lemma iterator_range_incl b e p :
  In p (iterator_range data b e) -> In p data.
Proof.
  unfold iterator_range. intros H.
  rewrite <- (firstn_skipn b data). apply in_or_app. right.
  rewrite <- (firstn_skipn (e - b) (skipn b data)). apply in_or_app.
  left. exact H.
Qed.

(** [lower_bound] on a range partitioned by [comp] cuts it into its
    [comp]-part and the rest. *)
Lemma lower_bound_cut b e comp :
  b <= e <= length data ->
  partitioned comp (iterator_range data b e) = true ->
  let m := lower_bound data b e comp in
  b <= m <= e
  /\ iterator_range data b m = filter comp (iterator_range data b e)
  /\ iterator_range data m e
     = filter (fun q => negb (comp q)) (iterator_range data b e).
Proof.
  intros Hbe Hp. set (r := iterator_range data b e) in *.
  pose proof (iterator_range_length Hbe) as Hlen. fold r in Hlen.
  pose proof (filter_length_le comp r) as Hk.
  assert (Hm : lower_bound data b e comp = b + length (filter comp r)).
  { unfold lower_bound. apply lower_bound_loop_partition_point.
    - lia.
    - intros i Hi. rewrite (@deref_iterator_range b e i) by lia.
      apply partitioned_nth_true; assumption.
    - intros i Hi. rewrite (@deref_iterator_range b e i) by lia.
      apply partitioned_nth_false; [assumption|]. fold r. lia. }
  cbv zeta. rewrite Hm. split; [lia|]. split.
  - rewrite (@iterator_range_prefix b e) by lia. fold r.
    apply partitioned_firstn. exact Hp.
  - rewrite (@iterator_range_suffix b e) by lia. fold r.
    apply partitioned_skipn. exact Hp.
Qed.

(** [upper_bound] on a range whose positions not satisfying [comp] come
    first cuts it there. *)
Lemma upper_bound_cut b e comp :
  b <= e <= length data ->
  partitioned (fun q => negb (comp q)) (iterator_range data b e) = true ->
  let m := upper_bound data b e comp in
  b <= m <= e
  /\ iterator_range data b m
     = filter (fun q => negb (comp q)) (iterator_range data b e)
  /\ iterator_range data m e = filter comp (iterator_range data b e).
Proof.
  intros Hbe Hp. set (r := iterator_range data b e) in *.
  set (g := fun q => negb (comp q)) in *.
  pose proof (iterator_range_length Hbe) as Hlen. fold r in Hlen.
  pose proof (filter_length_le g r) as Hk.
  assert (Hm : upper_bound data b e comp = b + length (filter g r)).
  { unfold upper_bound. apply upper_bound_loop_partition_point.
    - lia.
    - intros i Hi. rewrite (@deref_iterator_range b e i) by lia.
      fold r. apply negb_true_iff.
      apply (partitioned_nth_true g r); assumption.
    - intros i Hi. rewrite (@deref_iterator_range b e i) by lia.
      fold r. apply negb_false_iff.
      apply (partitioned_nth_false g r); [assumption|]. lia. }
  cbv zeta. rewrite Hm. split; [lia|]. split.
  - rewrite (@iterator_range_prefix b e) by lia. fold r.
    apply partitioned_firstn. exact Hp.
  - rewrite (@iterator_range_suffix b e) by lia. fold r.
    rewrite (partitioned_skipn g r Hp). apply filter_ext.
    intros a. unfold g. apply negb_involutive.
Qed.

Lemma lower_bound_bounds b e comp :
  b <= e -> b <= lower_bound data b e comp <= e.
Proof.
  intros H. unfold lower_bound.
  pose proof (lower_bound_loop_bounds data comp b (e - b)). lia.
Qed.

Lemma upper_bound_bounds b e comp :
  b <= e -> b <= upper_bound data b e comp <= e.
Proof.
  intros H. unfold upper_bound.
  pose proof (upper_bound_loop_bounds data comp b (e - b)). lia.
Qed.
End RangeFacts.

(** ** Sorted ranges *)

Section SortedFacts.
Variable order_by : OrderByMode.

Lemma position_before_trans p q r :
  position_before order_by p q = true ->
  position_before order_by q r = true ->
  position_before order_by p r = true.
Proof.
  unfold position_before.
  destruct (order_is_nulls_first order_by), (order_is_ascending order_by),
    (is_null p), (is_null q), (is_null r); simpl; try reflexivity;
    try discriminate; rewrite !Z.leb_le; lia.
Qed.

Lemma sorted_per_cons_inv p tl :
  sorted_per order_by (p :: tl) = true ->
  sorted_per order_by tl = true
  /\ forallb (position_before order_by p) tl = true.
Proof.
  revert p. induction tl as [|q tl IH]; intros p H; [simpl; auto|].
  change (position_before order_by p q && sorted_per order_by (q :: tl)
          = true) in H.
  apply andb_prop in H. destruct H as [Hpq Hs]. split; [exact Hs|].
  destruct (IH q Hs) as [_ Hq]. simpl. rewrite Hpq. simpl.
  rewrite forallb_forall in *. intros x Hx.
  apply position_before_trans with q; auto.
Qed.

Lemma sorted_per_cons p tl :
  sorted_per order_by tl = true ->
  forallb (position_before order_by p) tl = true ->
  sorted_per order_by (p :: tl) = true.
Proof.
  destruct tl as [|q tl]; [reflexivity|]. intros Hs Hall.
  change (position_before order_by p q && sorted_per order_by (q :: tl)
          = true).
  simpl in Hall. apply andb_prop in Hall. destruct Hall as [Hpq _].
  rewrite Hpq, Hs. reflexivity.
Qed.

(** Dropping positions keeps a range sorted. *)
Lemma sorted_per_filter f l :
  sorted_per order_by l = true ->
  sorted_per order_by (filter f l) = true.
Proof.
  induction l as [|p l IH]; intros H; [reflexivity|].
  apply sorted_per_cons_inv in H. destruct H as [Hs Hall].
  simpl. destruct (f p); [|auto].
  apply sorted_per_cons; [auto|].
  rewrite forallb_forall in *. intros x Hx. apply filter_In in Hx.
  apply Hall. tauto.
Qed.

(** A predicate that is closed towards the front of a sorted range
    partitions it. *)
Lemma sorted_per_partitioned f l :
  sorted_per order_by l = true ->
  (forall p q, In p l -> In q l -> position_before order_by p q = true ->
               f q = true -> f p = true) ->
  partitioned f l = true.
Proof.
  induction l as [|p l IH]; intros H Hclosed; [reflexivity|].
  apply sorted_per_cons_inv in H. destruct H as [Hs Hall].
  simpl. destruct (f p) eqn:Ep.
  - apply IH; [exact Hs|]. intros x y Hx Hy. apply Hclosed; simpl; auto.
  - rewrite forallb_forall in *. intros q Hq.
    destruct (f q) eqn:Eq; [|reflexivity].
    assert (f p = true) by (apply (Hclosed p q); simpl; auto).
    congruence.
Qed.

Lemma sorted_per_nulls_at_end l :
  sorted_per order_by l = true -> nulls_at_end order_by l = true.
Proof.
  intros H. unfold nulls_at_end.
  destruct (order_is_nulls_first order_by) eqn:En;
    apply sorted_per_partitioned; try exact H;
    intros p q _ _; unfold position_before; rewrite En;
    destruct (is_null p), (is_null q); simpl; congruence.
Qed.

(** Among non-null positions the order is the order of the values. *)
Lemma sorted_values_partitioned f l :
  sorted_per order_by l = true ->
  forallb (fun p => negb (is_null p)) l = true ->
  (forall p q,
      (if order_is_ascending order_by then (value p <= value q)%Z
       else (value q <= value p)%Z) ->
      f q = true -> f p = true) ->
  partitioned f l = true.
Proof.
  intros Hs Hnn Hclosed. apply sorted_per_partitioned; [exact Hs|].
  rewrite forallb_forall in Hnn.
  intros p q Hp Hq. apply Hnn in Hp. apply Hnn in Hq.
  apply negb_true_iff in Hp. apply negb_true_iff in Hq.
  unfold position_before. rewrite Hp, Hq. intros Hb. apply Hclosed.
  destruct (order_is_nulls_first order_by),
    (order_is_ascending order_by); simpl in Hb;
    apply Z.leb_le in Hb; exact Hb.
Qed.
End SortedFacts.

(** ** The scalar scan loops as filters *)

Section ScanFacts.
Variable chunk_id : Z.

Lemma _unary_scan_filter func l out :
  _unary_scan chunk_id func l out
  = out ++ emit_range chunk_id
             (filter (fun p => negb (is_null p) && func (value p)) l).
Proof.
  revert out. induction l as [|p l IH]; intros out; simpl.
  - symmetry. apply app_nil_r.
  - destruct (is_null p); simpl; [apply IH|].
    destruct (func (value p)); simpl; [|apply IH].
    rewrite IH, <- app_assoc. reflexivity.
Qed.

Lemma plain_scan_filter predicate_condition search_value l :
  plain_scan chunk_id predicate_condition search_value l
  = emit_range chunk_id
               (filter (position_matches predicate_condition search_value) l).
Proof. unfold plain_scan. rewrite _unary_scan_filter. reflexivity. Qed.

Lemma scalar_loop_filter LeftIsNullable func right_value l out :
  scalar_loop chunk_id LeftIsNullable func right_value l out
  = out ++ emit_range chunk_id
             (filter (fun p => (negb LeftIsNullable || negb (is_null p))
                               && func (value p) right_value) l).
Proof.
  revert out. induction l as [|p l IH]; intros out; simpl.
  - symmetry. apply app_nil_r.
  - destruct ((negb LeftIsNullable || negb (is_null p))
              && func (value p) right_value); simpl; [|apply IH].
    rewrite IH, <- app_assoc. reflexivity.
Qed.
End ScanFacts.

(** ** Narrowing *)

Lemma filter_filter (f g : SegmentPosition -> bool) l :
  filter f (filter g l) = filter (fun p => g p && f p) l.
Proof.
  induction l as [|p l IH]; simpl; [reflexivity|].
  destruct (g p); simpl; [destruct (f p)|]; rewrite IH; reflexivity.
Qed.

Lemma filter_by_partition (f g : SegmentPosition -> bool) l :
  partitioned f l = true ->
  filter g l = filter (fun p => f p && g p) l
               ++ filter (fun p => negb (f p) && g p) l.
Proof.
  intros H. rewrite <- !filter_filter, <- filter_app.
  rewrite <- (partitioned_split f l H). reflexivity.
Qed.

Lemma forallb_filter_keep (f g : SegmentPosition -> bool) l :
  forallb f l = true -> forallb f (filter g l) = true.
Proof.
  rewrite !forallb_forall. intros H x Hx. apply filter_In in Hx.
  apply H. tauto.
Qed.

(** Decides equations between boolean comparisons of integers. *)
Ltac zbool :=
  unfold comparator; rewrite ?Z.gtb_ltb, ?Z.geb_leb;
  repeat match goal with
    | |- context [(?a <? ?b)%Z] => destruct (Z.ltb_spec a b)
    | |- context [(?a <=? ?b)%Z] => destruct (Z.leb_spec a b)
    | |- context [(?a =? ?b)%Z] => destruct (Z.eqb_spec a b)
    end; simpl; try reflexivity; try discriminate; try lia.

Section NarrowingFacts.
Variable data : list SegmentPosition.
Variable order_by : OrderByMode.

Local Abbreviation value_sorted := (sorted_non_null data order_by).

Lemma first_bound_cut s :
  value_sorted s ->
  let m := _get_first_bound data s in
  _begin s <= m <= _end s
  /\ iterator_range data (_begin s) m
     = filter (fun p => comparator
                          (if _is_ascending s then LessThan else GreaterThan)
                          (value p) (_search_value s))
              (range_of data s)
  /\ iterator_range data m (_end s)
     = filter (fun p => comparator
                          (if _is_ascending s then GreaterThanEquals
                           else LessThanEquals)
                          (value p) (_search_value s))
              (range_of data s).
Proof.
  intros (Hv & Ha & Hs & Hn). unfold _get_first_bound.
  destruct (_is_ascending s) eqn:Ea.
  - assert (Hp : partitioned (fun p => (value p <? _search_value s)%Z)
                             (range_of data s) = true).
    { apply sorted_values_partitioned with order_by; auto.
      intros p q. rewrite <- Ha. rewrite !Z.ltb_lt. lia. }
    destruct (lower_bound_cut data _ Hv Hp) as (Hm & E1 & E2).
    split; [exact Hm|]. split; [exact E1|].
    fold (range_of data s) in E2. rewrite E2. apply filter_ext.
    intros a. zbool.
  - assert (Hp : partitioned (fun p => (value p >? _search_value s)%Z)
                             (range_of data s) = true).
    { apply sorted_values_partitioned with order_by; auto.
      intros p q. rewrite <- Ha. rewrite !Z.gtb_ltb, !Z.ltb_lt. lia. }
    destruct (lower_bound_cut data _ Hv Hp) as (Hm & E1 & E2).
    split; [exact Hm|]. split; [exact E1|].
    fold (range_of data s) in E2. rewrite E2. apply filter_ext.
    intros a. zbool.
Qed.

Lemma last_bound_cut s :
  value_sorted s ->
  let m := _get_last_bound data s in
  _begin s <= m <= _end s
  /\ iterator_range data (_begin s) m
     = filter (fun p => comparator
                          (if _is_ascending s then LessThanEquals
                           else GreaterThanEquals)
                          (value p) (_search_value s))
              (range_of data s)
  /\ iterator_range data m (_end s)
     = filter (fun p => comparator
                          (if _is_ascending s then GreaterThan else LessThan)
                          (value p) (_search_value s))
              (range_of data s).
Proof.
  intros (Hv & Ha & Hs & Hn). unfold _get_last_bound.
  destruct (_is_ascending s) eqn:Ea.
  - assert (Hp : partitioned
                   (fun p => negb (value p >? _search_value s)%Z)
                   (range_of data s) = true).
    { apply sorted_values_partitioned with order_by; auto.
      intros p q. rewrite <- Ha.
      rewrite !Z.gtb_ltb, !negb_true_iff, !Z.ltb_ge. lia. }
    destruct (upper_bound_cut data _ Hv Hp) as (Hm & E1 & E2).
    split; [exact Hm|]. split; [|exact E2].
    fold (range_of data s) in E1. rewrite E1. apply filter_ext.
    intros a. zbool.
  - assert (Hp : partitioned
                   (fun p => negb (value p <? _search_value s)%Z)
                   (range_of data s) = true).
    { apply sorted_values_partitioned with order_by; auto.
      intros p q. rewrite <- Ha.
      rewrite !negb_true_iff, !Z.ltb_ge. lia. }
    destruct (upper_bound_cut data _ Hv Hp) as (Hm & E1 & E2).
    split; [exact Hm|]. split; [|exact E2].
    fold (range_of data s) in E1. rewrite E1. apply filter_ext.
    intros a. zbool.
Qed.

Lemma value_sorted_set_begin s m l :
  value_sorted s ->
  _begin s <= m <= _end s ->
  iterator_range data m (_end s) = filter l (range_of data s) ->
  value_sorted (set_begin s m).
Proof.
  intros (Hv & Ha & Hs & Hn) Hm E. unfold sorted_non_null, valid_range in *.
  unfold range_of, set_begin. simpl. rewrite E.
  repeat split; try lia; auto using sorted_per_filter, forallb_filter_keep.
Qed.

(** For the five conditions of the table, [_set_begin_and_end] narrows the
    range to the positions whose value satisfies the condition. *)
Lemma _set_begin_and_end_narrows s :
  value_sorted s ->
  is_comparison (_predicate_condition s) = true ->
  _predicate_condition s <> NotEquals ->
  exists s',
    _set_begin_and_end data s = Ok s'
    /\ range_of data s'
       = filter (fun p => comparator (_predicate_condition s) (value p)
                                     (_search_value s))
                (range_of data s).
Proof.
  intros Hvs Hc Hne.
  destruct (first_bound_cut Hvs) as (Hf & F1 & F2).
  destruct (last_bound_cut Hvs) as (Hl & L1 & L2).
  unfold _set_begin_and_end.
  destruct (_predicate_condition s) eqn:Ec; try discriminate;
    try congruence; simpl PredicateCondition_eqb; cbv iota.
  - (* Equals *)
    eexists. split; [reflexivity|].
    assert (Hvs1 : value_sorted (set_begin s (_get_first_bound data s)))
      by (eapply value_sorted_set_begin; eauto).
    destruct (last_bound_cut Hvs1) as (_ & M1 & _).
    unfold range_of in *. simpl in *. rewrite M1, F2, filter_filter.
    apply filter_ext. intros a. destruct (_is_ascending s); zbool.
  - (* LessThan *)
    destruct (_is_ascending s); eexists; (split; [reflexivity|]);
      unfold range_of; simpl; assumption.
  - (* LessThanEquals *)
    destruct (_is_ascending s); eexists; (split; [reflexivity|]);
      unfold range_of; simpl; assumption.
  - (* GreaterThan *)
    destruct (_is_ascending s); eexists; (split; [reflexivity|]);
      unfold range_of; simpl; assumption.
  - (* GreaterThanEquals *)
    destruct (_is_ascending s); eexists; (split; [reflexivity|]);
      unfold range_of; simpl; assumption.
Qed.

(** On a sorted range the positions different from the search value are
    those before its run followed by those after it. *)
Lemma not_equals_split s :
  value_sorted s ->
  filter (fun p => comparator NotEquals (value p) (_search_value s))
         (range_of data s)
  = iterator_range data (_begin s) (_get_first_bound data s)
    ++ iterator_range data (_get_last_bound data s) (_end s).
Proof.
  intros Hvs.
  destruct (first_bound_cut Hvs) as (Hf & F1 & F2).
  destruct (last_bound_cut Hvs) as (Hl & L1 & L2).
  rewrite F1, L2.
  destruct Hvs as (Hv & Ha & Hs & Hn).
  set (v := _search_value s) in *.
  assert (Hp : partitioned
                 (fun p => comparator
                             (if _is_ascending s then LessThanEquals
                              else GreaterThanEquals) (value p) v)
                 (range_of data s) = true).
  { apply sorted_values_partitioned with order_by; auto.
    intros p q. rewrite <- Ha. destruct (_is_ascending s); simpl;
      rewrite ?Z.geb_leb, !Z.leb_le; lia. }
  rewrite (@filter_by_partition _
             (fun p => comparator NotEquals (value p) v) _ Hp).
  f_equal; apply filter_ext;
    intros a; destruct (_is_ascending s); zbool.
Qed.

Lemma _handle_not_equals_narrows A (functor : list SegmentPosition -> A) s :
  value_sorted s ->
  _handle_not_equals data functor s
  = functor (filter (fun p => comparator NotEquals (value p)
                                         (_search_value s))
                    (range_of data s)).
Proof.
  intros Hvs. rewrite (not_equals_split Hvs).
  destruct (first_bound_cut Hvs) as (Hf & F1 & F2).
  destruct (last_bound_cut Hvs) as (Hl & L1 & L2).
  unfold _handle_not_equals, join.
  destruct (Nat.eqb_spec (_get_first_bound data s) (_end s)) as [E1|N1].
  - (* nothing at or after the search value *)
    rewrite E1 in *. f_equal.
    assert (Hnone : iterator_range data (_get_last_bound data s) (_end s)
                    = []).
    { rewrite L2. rewrite iterator_range_empty in F2.
      apply (f_equal (filter (fun p => comparator
              (if _is_ascending s then GreaterThan else LessThan)
              (value p) (_search_value s)))) in F2.
      rewrite filter_filter in F2. simpl in F2. rewrite F2.
      apply filter_ext. intros a. destruct (_is_ascending s); zbool. }
    rewrite Hnone, app_nil_r. reflexivity.
  - destruct (Nat.eqb_spec (_get_last_bound data s) (_end s)) as [E2|N2].
    + rewrite E2, iterator_range_empty, app_nil_r. reflexivity.
    + destruct (Nat.eqb_spec (_get_first_bound data s) (_begin s))
        as [E3|N3].
      * rewrite E3, iterator_range_empty. reflexivity.
      * reflexivity.
Qed.

(** The first step of [scan_sorted_segment] leaves exactly the non-null
    positions of the range. *)
Lemma exclude_nulls_cut s :
  valid_range data s ->
  _is_nulls_first s = order_is_nulls_first order_by ->
  nulls_at_end order_by (range_of data s) = true ->
  valid_range data (exclude_nulls data s)
  /\ range_of data (exclude_nulls data s)
     = filter (fun p => negb (is_null p)) (range_of data s).
Proof.
  intros Hv Hnf Hnulls. unfold nulls_at_end in Hnulls. rewrite <- Hnf in *.
  unfold exclude_nulls, valid_range, range_of in *.
  destruct (_is_nulls_first s).
  - destruct (lower_bound_cut data _ Hv Hnulls) as (Hm & _ & E).
    simpl. split; [lia|exact E].
  - destruct (lower_bound_cut data _ Hv Hnulls) as (Hm & E & _).
    simpl. split; [lia|exact E].
Qed.

Lemma exclude_nulls_value_sorted s :
  valid_range data s ->
  _is_nulls_first s = order_is_nulls_first order_by ->
  _is_ascending s = order_is_ascending order_by ->
  sorted_per order_by (range_of data s) = true ->
  value_sorted (exclude_nulls data s).
Proof.
  intros Hv Hnf Ha Hs.
  destruct (exclude_nulls_cut Hv Hnf (sorted_per_nulls_at_end _ _ Hs))
    as (Hv' & E).
  unfold sorted_non_null. rewrite E. repeat split; try apply Hv'.
  - unfold exclude_nulls. destruct (_is_nulls_first s); exact Ha.
  - apply sorted_per_filter. exact Hs.
  - apply forallb_filter.
Qed.
End NarrowingFacts.

(** ** [scan_sorted_segment] on sorted ranges *)

Lemma exclude_nulls_fields data s :
  _predicate_condition (exclude_nulls data s) = _predicate_condition s
  /\ _search_value (exclude_nulls data s) = _search_value s.
Proof. unfold exclude_nulls. destruct (_is_nulls_first s); auto. Qed.

(** Whatever the functor, it is handed the matching positions of the range,
    in their order, and nothing else. *)
Lemma scan_sorted_segment_narrows data b e order_by predicate_condition
      search_value A (functor : list SegmentPosition -> A) :
  b <= e <= length data ->
  is_comparison predicate_condition = true ->
  sorted_per order_by (iterator_range data b e) = true ->
  scan_sorted_segment data functor
    (new_SortedSegmentSearch b e order_by predicate_condition search_value)
  = Ok (functor (filter (position_matches predicate_condition search_value)
                        (iterator_range data b e))).
Proof.
  intros Hbe Hc Hs.
  set (s := new_SortedSegmentSearch b e order_by predicate_condition
                                    search_value).
  assert (Hvs : sorted_non_null data order_by (exclude_nulls data s))
    by (apply exclude_nulls_value_sorted; auto).
  assert (Hr : range_of data (exclude_nulls data s)
               = filter (fun p => negb (is_null p)) (iterator_range data b e)).
  { apply (@exclude_nulls_cut data order_by s); auto.
    apply sorted_per_nulls_at_end. exact Hs. }
  destruct (exclude_nulls_fields data s) as [Ec Ev]. simpl in Ec, Ev.
  unfold scan_sorted_segment. cbv zeta. rewrite Ec.
  destruct (PredicateCondition_eqb predicate_condition NotEquals) eqn:Ene.
  - assert (predicate_condition = NotEquals)
      by (destruct predicate_condition; try discriminate; reflexivity).
    subst s. subst predicate_condition.
    rewrite (_handle_not_equals_narrows functor Hvs), Hr, Ev, filter_filter.
    reflexivity.
  - destruct (@_set_begin_and_end_narrows data order_by _ Hvs)
      as (s' & Es & Er).
    + rewrite Ec. exact Hc.
    + rewrite Ec. intros ->. discriminate.
    + rewrite Es. fold (range_of data s'). rewrite Er, Hr, Ec, Ev.
      rewrite filter_filter. reflexivity.
Qed.

Lemma filter_idempotent (f : SegmentPosition -> bool) l :
  filter f (filter f l) = filter f l.
Proof.
  rewrite filter_filter. apply filter_ext. intros a. apply andb_diag.
Qed.

(** The same at [int32_t], on the definitions of the first part: for each of
    the six comparison conditions, each [OrderByMode] and each range of
    integers sorted per that mode, [scan_sorted_segment] hands its functor
    exactly the matching positions. *)
Lemma int32_t_sorted_scan_refines_plain_scan :
  forall (data : list SegmentPosition) (b e : nat) (order_by : OrderByMode)
         (predicate_condition : PredicateCondition) (search_value chunk_id : Z),
    b <= e <= length data ->
    is_comparison predicate_condition = true ->
    sorted_per order_by (iterator_range data b e) = true ->
    let s := new_SortedSegmentSearch b e order_by predicate_condition
                                     search_value in
    let whole := iterator_range data b e in
    (forall A (functor : list SegmentPosition -> A),
        scan_sorted_segment data functor s
        = Ok (functor (filter (position_matches predicate_condition
                                                search_value) whole)))
    /\ scan_sorted_segment data (emit_range chunk_id) s
       = Ok (plain_scan chunk_id predicate_condition search_value whole)
    /\ scan_sorted_segment data
         (plain_scan chunk_id predicate_condition search_value) s
       = Ok (plain_scan chunk_id predicate_condition search_value whole).
Proof.
  intros data b e order_by predicate_condition search_value chunk_id
         Hbe Hc Hs s whole.
  split; [|split].
  - intros A functor. apply scan_sorted_segment_narrows; assumption.
  - unfold s, whole. rewrite scan_sorted_segment_narrows by assumption.
    rewrite plain_scan_filter. reflexivity.
  - unfold s, whole. rewrite scan_sorted_segment_narrows by assumption.
    rewrite !plain_scan_filter, filter_idempotent. reflexivity.
Qed.

Lemma int32_t_sorted_scan_refines_plain_scan_example :
  let data := [mkSegmentPosition 5 false 0; mkSegmentPosition 4 false 1;
               mkSegmentPosition 3 false 2; mkSegmentPosition 3 false 3;
               mkSegmentPosition 1 false 4; mkSegmentPosition 0 true 5;
               mkSegmentPosition 0 true 6] in
  scan_sorted_segment data (emit_range 7)
    (new_SortedSegmentSearch 0 7 DescendingNullsLast GreaterThanEquals 3)
  = Ok (plain_scan 7 GreaterThanEquals 3 (iterator_range data 0 7)).
Proof.
  intros data.
  refine (proj1 (proj2 (@int32_t_sorted_scan_refines_plain_scan
                          data 0 7 DescendingNullsLast GreaterThanEquals 3 7
                          _ _ _))).
  - simpl. lia.
  - reflexivity.
  - reflexivity.
Defined.

(** ** Strictly increasing offsets *)

Lemma strictly_increasing_cons_inv x l :
  strictly_increasing (x :: l) = true ->
  strictly_increasing l = true /\ Forall (fun y => (x < y)%Z) l.
Proof.
  revert x. induction l as [|y l IH]; intros x H; [simpl; auto|].
  change ((x <? y)%Z && strictly_increasing (y :: l) = true) in H.
  apply andb_prop in H. destruct H as [Hxy Hs]. apply Z.ltb_lt in Hxy.
  split; [exact Hs|]. destruct (IH y Hs) as [_ Hy].
  constructor; [exact Hxy|].
  eapply Forall_impl; [|exact Hy]. simpl. intros; lia.
Qed.

Lemma strictly_increasing_cons x l :
  strictly_increasing l = true ->
  Forall (fun y => (x < y)%Z) l ->
  strictly_increasing (x :: l) = true.
Proof.
  destruct l as [|y l]; [reflexivity|]. intros Hs Hall.
  change ((x <? y)%Z && strictly_increasing (y :: l) = true).
  inversion Hall; subst. rewrite Hs, andb_true_r. apply Z.ltb_lt. assumption.
Qed.

(** Skipping positions keeps the offsets strictly increasing. *)
Lemma strictly_increasing_filter (f : SegmentPosition -> bool) l :
  strictly_increasing (map chunk_offset l) = true ->
  strictly_increasing (map chunk_offset (filter f l)) = true.
Proof.
  induction l as [|p l IH]; intros H; [reflexivity|].
  simpl in H. apply strictly_increasing_cons_inv in H.
  destruct H as [Hs Hall]. simpl. destruct (f p); [|auto].
  simpl. apply strictly_increasing_cons; [auto|].
  rewrite Forall_forall in *. intros y Hy. apply Hall.
  rewrite in_map_iff in *. destruct Hy as (q & Eq & Hq).
  apply filter_In in Hq. exists q. tauto.
Qed.

Lemma strictly_increasing_injective l p q :
  strictly_increasing (map chunk_offset l) = true ->
  In p l -> In q l -> chunk_offset p = chunk_offset q -> p = q.
Proof.
  induction l as [|x l IH]; intros H Hp Hq E; [contradiction|].
  simpl in H. apply strictly_increasing_cons_inv in H.
  destruct H as [Hs Hall]. rewrite Forall_forall in Hall.
  assert (Hlt : forall y, In y l -> (chunk_offset x < chunk_offset y)%Z)
    by (intros y Hy; apply Hall, in_map; exact Hy).
  destruct Hp as [->|Hp], Hq as [->|Hq]; auto.
  - apply Hlt in Hq. lia.
  - apply Hlt in Hp. lia.
Qed.

Lemma offsets_of_emit_range chunk_id l :
  offsets_of (emit_range chunk_id l) = map chunk_offset l.
Proof.
  unfold offsets_of, emit_range. rewrite map_map. reflexivity.
Qed.

(** ** NotEquals *)

(** C3: on a sorted range without nulls, [_handle_not_equals] hands its
    functor the whole range when the first bound is the end; else the
    range up to the first bound when the last bound is the end; else the
    range from the last bound when the first bound is the begin; else the
    first sub-range followed by the second, and the offsets of this
    concatenation are strictly increasing whenever those of the range are. *)
Theorem handle_not_equals_cases :
  forall (data : list SegmentPosition) (order_by : OrderByMode)
         (s : SortedSegmentSearch) (A : Type)
         (functor : list SegmentPosition -> A),
    sorted_non_null data order_by s ->
    let first_bound := _get_first_bound data s in
    let last_bound := _get_last_bound data s in
    let emitted := _handle_not_equals data functor s in
    (first_bound = _end s ->
     emitted = functor (iterator_range data (_begin s) (_end s)))
    /\ (first_bound <> _end s -> last_bound = _end s ->
        emitted = functor (iterator_range data (_begin s) first_bound))
    /\ (first_bound <> _end s -> last_bound <> _end s ->
        first_bound = _begin s ->
        emitted = functor (iterator_range data last_bound (_end s)))
    /\ (first_bound <> _end s -> last_bound <> _end s ->
        first_bound <> _begin s ->
        emitted = functor (iterator_range data (_begin s) first_bound
                           ++ iterator_range data last_bound (_end s))
        /\ (strictly_increasing (map chunk_offset (range_of data s)) = true ->
            strictly_increasing
              (map chunk_offset
                   (iterator_range data (_begin s) first_bound
                    ++ iterator_range data last_bound (_end s))) = true)).
Proof.
  intros data order_by s A functor Hvs first_bound last_bound emitted.
  unfold emitted, _handle_not_equals, join. fold first_bound last_bound.
  split; [|split; [|split]].
  - intros E. rewrite E, Nat.eqb_refl. reflexivity.
  - intros N1 E2. apply Nat.eqb_neq in N1. rewrite N1, E2, Nat.eqb_refl.
    reflexivity.
  - intros N1 N2 E3. apply Nat.eqb_neq in N1, N2.
    rewrite N1, N2, E3, Nat.eqb_refl. reflexivity.
  - intros N1 N2 N3. split.
    + apply Nat.eqb_neq in N1, N2, N3. rewrite N1, N2, N3. reflexivity.
    + intros Hinc. unfold first_bound, last_bound.
      rewrite <- (not_equals_split Hvs).
      apply strictly_increasing_filter. exact Hinc.
Qed.

Lemma handle_not_equals_cases_witness :
  let data := [mkSegmentPosition 1 false 0; mkSegmentPosition 1 false 1;
               mkSegmentPosition 2 false 2; mkSegmentPosition 2 false 3;
               mkSegmentPosition 3 false 4] in
  let s := new_SortedSegmentSearch 0 5 Ascending NotEquals 2 in
  _handle_not_equals data (emit_range 0) s
  = emit_range 0 (iterator_range data 0 2 ++ iterator_range data 4 5)
  /\ strictly_increasing
       (map chunk_offset (iterator_range data 0 2 ++ iterator_range data 4 5))
     = true.
Proof.
  intros data s.
  assert (Hvs : sorted_non_null data Ascending s).
  { unfold sorted_non_null, valid_range. simpl.
    repeat split; try reflexivity; lia. }
  destruct (@handle_not_equals_cases data Ascending s PosList (emit_range 0)
              Hvs) as (_ & _ & _ & H).
  destruct H as [H1 H2].
  - vm_compute. discriminate.
  - vm_compute. discriminate.
  - vm_compute. discriminate.
  - split; [exact H1|]. apply H2. reflexivity.
Defined.

(** C4: on a range sorted per [order_by], what [scan_sorted_segment] hands
    over for [NotEquals] is the null-free range minus what it hands over
    for [Equals]; when the offsets of the range are strictly increasing the
    same holds for the emitted row ids. *)
Theorem not_equals_complements_equals :
  forall (data : list SegmentPosition) (b e : nat) (order_by : OrderByMode)
         (search_value chunk_id : Z),
    b <= e <= length data ->
    sorted_per order_by (iterator_range data b e) = true ->
    let whole := iterator_range data b e in
    let null_free := filter (fun p => negb (is_null p)) whole in
    let scan c A (functor : list SegmentPosition -> A) :=
      scan_sorted_segment data functor
        (new_SortedSegmentSearch b e order_by c search_value) in
    exists ne eq,
      scan NotEquals _ (fun r => r) = Ok ne
      /\ scan Equals _ (fun r => r) = Ok eq
      /\ ne = range_minus null_free eq
      /\ scan NotEquals _ (emit_range chunk_id) = Ok (emit_range chunk_id ne)
      /\ scan Equals _ (emit_range chunk_id) = Ok (emit_range chunk_id eq)
      /\ (strictly_increasing (map chunk_offset whole) = true ->
          forall r, In r (emit_range chunk_id ne) <->
                    In r (emit_range chunk_id null_free)
                    /\ ~ In r (emit_range chunk_id eq)).
Proof.
  intros data b e order_by search_value chunk_id Hbe Hs whole null_free scan.
  exists (filter (position_matches NotEquals search_value) whole),
         (filter (position_matches Equals search_value) whole).
  unfold scan.
  rewrite !(@scan_sorted_segment_narrows data b e order_by) by auto.
  fold whole.
  assert (Hne : forall p,
             In p (filter (position_matches NotEquals search_value) whole)
             <-> In p null_free
                 /\ ~ In p (filter (position_matches Equals search_value)
                                   whole)).
  { intros p. unfold null_free. rewrite !filter_In.
    unfold position_matches, comparator.
    destruct (is_null p), (value p =? search_value)%Z; simpl;
      intuition congruence. }
  split; [reflexivity|]. split; [reflexivity|]. split; [|split; [|split]];
    try reflexivity.
  - unfold range_minus, null_free. rewrite filter_filter.
    apply filter_ext_in. intros p Hp.
    destruct (existsb (SegmentPosition_eqb p)
                      (filter (position_matches Equals search_value) whole))
      eqn:Ex.
    + apply existsb_exists in Ex. destruct Ex as (q & Hq & Epq).
      assert (p = q).
      { unfold SegmentPosition_eqb in Epq.
        apply andb_prop in Epq. destruct Epq as [Epq E3].
        apply andb_prop in Epq. destruct Epq as [E1 E2].
        apply Z.eqb_eq in E1, E3. apply Bool.eqb_prop in E2.
        destruct p, q; simpl in *; congruence. }
      subst q. apply filter_In in Hq. destruct Hq as [_ Hq].
      unfold position_matches, comparator in *.
      destruct (is_null p), (value p =? search_value)%Z; simpl in *;
        congruence.
    + assert (Hnot : ~ In p (filter (position_matches Equals search_value)
                                    whole)).
      { intros Hin. apply not_true_iff_false in Ex. apply Ex.
        apply existsb_exists. exists p. split; [exact Hin|].
        unfold SegmentPosition_eqb.
        rewrite !Z.eqb_refl, Bool.eqb_reflx. reflexivity. }
      rewrite filter_In in Hnot.
      unfold position_matches, comparator in *.
      destruct (is_null p), (value p =? search_value)%Z; simpl in *;
        try reflexivity; tauto.
  - intros Hinc r. unfold emit_range. rewrite !in_map_iff. split.
    + intros (p & <- & Hp). apply Hne in Hp. split.
      * exists p. tauto.
      * intros (q & Eq & Hq).
        assert (p = q).
        { apply strictly_increasing_injective with whole; auto.
          - destruct Hp as [Hp _]. apply filter_In in Hp. tauto.
          - apply filter_In in Hq. tauto.
          - congruence. }
        subst q. tauto.
    + intros [(p & <- & Hp) Hr']. exists p. split; [reflexivity|].
      apply Hne. split; [exact Hp|]. intros Hin. apply Hr'.
      exists p. auto.
Qed.

Lemma not_equals_complements_equals_witness :
  let data := [mkSegmentPosition 0 true 0; mkSegmentPosition 1 false 1;
               mkSegmentPosition 2 false 2; mkSegmentPosition 2 false 3;
               mkSegmentPosition 3 false 4] in
  exists ne eq,
    scan_sorted_segment data (fun r => r)
      (new_SortedSegmentSearch 0 5 Ascending NotEquals 2) = Ok ne
    /\ scan_sorted_segment data (fun r => r)
         (new_SortedSegmentSearch 0 5 Ascending Equals 2) = Ok eq
    /\ ne = range_minus
              (filter (fun p => negb (is_null p)) (iterator_range data 0 5)) eq.
Proof.
  intros data.
  destruct (@not_equals_complements_equals data 0 5 Ascending 2 0)
    as (ne & eq & H1 & H2 & H3 & _).
  - simpl. lia.
  - reflexivity.
  - exists ne, eq. auto.
Defined.

(** ** Unsupported predicate conditions *)

(** C7: [scan_sorted_segment] succeeds for the six comparison conditions and
    for every other condition reaches the [default:] label of
    [_set_begin_and_end] and fails with the unsupported-predicate message,
    whatever the sort order. *)
Theorem unsupported_predicate_fails :
  forall (data : list SegmentPosition) (b e : nat) (order_by : OrderByMode)
         (predicate_condition : PredicateCondition) (search_value : Z)
         (A : Type) (functor : list SegmentPosition -> A),
    let s := new_SortedSegmentSearch b e order_by predicate_condition
                                     search_value in
    if is_comparison predicate_condition
    then exists a, scan_sorted_segment data functor s = Ok a
    else scan_sorted_segment data functor s = Failed Unsupported_predicate
         /\ _set_begin_and_end data (exclude_nulls data s)
            = Failed Unsupported_predicate.
Proof.
  intros data b e order_by predicate_condition search_value A functor s.
  destruct (exclude_nulls_fields data s) as [Ec _].
  unfold scan_sorted_segment, _set_begin_and_end. cbv zeta.
  rewrite Ec.
  assert (Ea : _is_ascending (exclude_nulls data s)
               = order_is_ascending order_by)
    by (unfold exclude_nulls; destruct (_is_nulls_first s); reflexivity).
  rewrite Ea.
  destruct predicate_condition, (order_is_ascending order_by); simpl;
    try (eexists; reflexivity); split; reflexivity.
Qed.

Example unsupported_predicate_IsNull :
  scan_sorted_segment [mkSegmentPosition 1 false 0] (emit_range 0)
    (new_SortedSegmentSearch 0 1 Descending IsNull 1)
  = Failed Unsupported_predicate.
Proof. reflexivity. Qed.

(** ** Segment iteration *)

(** C8: with a position filter and a segment whose iterable is not point
    accessible, [segment_with_iterators] fails under both resolution
    strategies, with or without a known data type; in the statically
    specialised strategy the message is the one of the [Fail] in the
    function itself.  No result of the functor is returned. *)
Theorem position_filter_needs_point_access :
  forall (IS_DEBUG : bool)
         (point_access : BaseSegment -> PosList -> list SegmentPosition)
         (any_segment_iterable_message : string)
         (A : Type) (functor : list SegmentPosition -> A)
         (T : option DataType) (type_erasure : SegmentIterationTypeErasure)
         (base_segment : BaseSegment) (position_filter : PosList),
    point_accessible base_segment = false ->
    segment_with_iterators_filtered IS_DEBUG point_access
      any_segment_iterable_message functor T type_erasure base_segment
      (Some position_filter)
    = Failed (if IS_DEBUG || SegmentIterationTypeErasure_eqb type_erasure Always
              then any_segment_iterable_message
              else Cannot_access_non_point_accessible).
Proof.
  intros IS_DEBUG point_access msg A functor T type_erasure base_segment
         position_filter Hpa.
  unfold segment_with_iterators_filtered, any_with_iterators_filtered.
  rewrite Hpa.
  destruct T, (IS_DEBUG || SegmentIterationTypeErasure_eqb type_erasure Always);
    reflexivity.
Qed.

Lemma position_filter_needs_point_access_witness :
  segment_with_iterators_filtered false (fun _ _ => []) "no point access"
    (emit_range 0) None OnlyInDebug
    (mkBaseSegment Int [mkSegmentPosition 1 false 0] false)
    (Some [mkRowID 0 0])
  = Failed Cannot_access_non_point_accessible.
Proof.
  apply (@position_filter_needs_point_access false (fun _ _ => [])
           "no point access" PosList (emit_range 0) None OnlyInDebug
           (mkBaseSegment Int [mkSegmentPosition 1 false 0] false)
           [mkRowID 0 0]).
  reflexivity.
Defined.

(** C9: with a null position filter, [segment_with_iterators] and
    [segment_for_each] are the overloads without a filter: the functor sees
    the whole segment and the call cannot fail. *)
Theorem null_position_filter_is_no_filter :
  forall (IS_DEBUG : bool)
         (point_access : BaseSegment -> PosList -> list SegmentPosition)
         (any_segment_iterable_message : string)
         (A : Type) (functor : list SegmentPosition -> A)
         (St : Type) (each : SegmentPosition -> St -> St) (st : St)
         (T : option DataType) (type_erasure : SegmentIterationTypeErasure)
         (base_segment : BaseSegment),
    segment_with_iterators_filtered IS_DEBUG point_access
      any_segment_iterable_message functor T type_erasure base_segment None
    = segment_with_iterators IS_DEBUG functor T type_erasure base_segment
    /\ segment_with_iterators IS_DEBUG functor T type_erasure base_segment
       = Ok (functor (segment_positions base_segment))
    /\ segment_for_each_filtered IS_DEBUG point_access
         any_segment_iterable_message each T type_erasure base_segment None st
       = segment_for_each IS_DEBUG each T type_erasure base_segment st
    /\ segment_for_each IS_DEBUG each T type_erasure base_segment st
       = Ok (fold_left (fun st p => each p st)
                       (segment_positions base_segment) st).
Proof.
  intros IS_DEBUG point_access msg A functor St each st T type_erasure
         base_segment.
  unfold segment_for_each_filtered, segment_for_each,
    segment_with_iterators_filtered, segment_with_iterators,
    any_with_iterators, with_iterators, for_each_loop.
  destruct T, (IS_DEBUG || SegmentIterationTypeErasure_eqb type_erasure Always);
    repeat split; reflexivity.
Qed.

(** ** The block loop of [_unary_scan_with_value] *)

Section BlockFacts.
Variable chunk_id : Z.
Variable LeftIsNullable : bool.
Variable func : Z -> Z -> bool.
Variable right_value : Z.

Local Abbreviation entry := (buffer_entry LeftIsNullable func right_value).
Local Abbreviation hit := (scalar_hit LeftIsNullable func right_value).

Lemma match_flag_hit p :
  match_flag LeftIsNullable func right_value p = b2z (hit p).
Proof.
  unfold match_flag, scalar_hit.
  destruct LeftIsNullable, (is_null p), (func (value p) right_value);
    reflexivity.
Qed.

Lemma buffer_entry_hit p :
  entry p = if hit p then ((chunk_offset p + 1) mod ChunkOffset_modulus)%Z
            else 0%Z.
Proof.
  unfold buffer_entry. rewrite match_flag_hit.
  destruct (hit p); simpl b2z.
  - rewrite Z.mul_1_l. apply Z.mod_mod. discriminate.
  - reflexivity.
Qed.

(** A slot is non-zero exactly for a hit whose offset plus one does not
    wrap, and then decodes to the offset. *)
Lemma buffer_entry_nonzero p :
  (0 <= chunk_offset p < ChunkOffset_modulus)%Z ->
  negb (entry p =? 0)%Z
  = hit p && negb (chunk_offset p =? ChunkOffset_modulus - 1)%Z.
Proof.
  intros Hr. rewrite buffer_entry_hit. unfold ChunkOffset_modulus in *.
  destruct (hit p); [|reflexivity]. rewrite andb_true_l.
  destruct (Z.eqb_spec (chunk_offset p) (2 ^ 32 - 1)) as [E|N].
  - rewrite E. reflexivity.
  - rewrite Z.mod_small by lia.
    destruct (Z.eqb_spec (chunk_offset p + 1) 0); [lia|reflexivity].
Qed.

Lemma decode_entry_offset p :
  (0 <= chunk_offset p < ChunkOffset_modulus)%Z ->
  (entry p =? 0)%Z = false ->
  decode_entry chunk_id (entry p) = mkRowID chunk_id (chunk_offset p).
Proof.
  intros Hr Hnz. pose proof (buffer_entry_nonzero p Hr) as Hb.
  rewrite Hnz in Hb. simpl in Hb. symmetry in Hb.
  apply andb_prop in Hb. destruct Hb as [Hh Hw].
  apply negb_true_iff, Z.eqb_neq in Hw.
  unfold decode_entry. rewrite buffer_entry_hit, Hh.
  unfold ChunkOffset_modulus in *.
  rewrite (Z.mod_small (chunk_offset p + 1)) by lia.
  replace (chunk_offset p + 1 - 1)%Z with (chunk_offset p) by lia.
  rewrite Z.mod_small by lia. reflexivity.
Qed.

Lemma fill_buffer_map n l :
  fill_buffer LeftIsNullable func right_value n l
  = (map entry (firstn n l), skipn n l).
Proof.
  revert l. induction n as [|n IH]; intros [|p l]; simpl; try reflexivity.
  rewrite IH. reflexivity.
Qed.

Lemma flags_bit_lor bit m :
  (bit = 0 \/ bit = 1)%N ->
  (bit + 2 * m)%N = N.lor bit (N.shiftl m 1).
Proof. intros [->| ->]; destruct m; reflexivity. Qed.

Lemma collect_match_positions_flags buffer i acc :
  collect_match_positions buffer i acc
  = N.lor acc (N.shiftl (flags_of buffer) i).
Proof.
  revert i acc. induction buffer as [|b rest IH]; intros i acc;
    cbn [flags_of collect_match_positions].
  - rewrite N.shiftl_0_l, N.lor_0_r. reflexivity.
  - rewrite IH, flags_bit_lor by (destruct (b =? 0)%Z; auto).
    rewrite N.shiftl_lor, N.shiftl_shiftl, N.lor_assoc.
    rewrite (N.add_comm 1 i). reflexivity.
Qed.

Lemma flags_of_zero buffer :
  flags_of buffer = 0%N ->
  filter (fun b => negb (b =? 0)%Z) buffer = [].
Proof.
  induction buffer as [|b rest IH]; cbn [flags_of filter]; [reflexivity|].
  destruct (b =? 0)%Z; cbn [negb]; intros H; [apply IH|]; lia.
Qed.

Lemma flags_of_cons_bits b rest :
  N.land (flags_of (b :: rest)) 1 = (if (b =? 0)%Z then 0 else 1)%N
  /\ N.shiftr (flags_of (b :: rest)) 1 = flags_of rest.
Proof.
  cbn [flags_of].
  set (bit := if (b =? 0)%Z then 0%N else 1%N).
  assert (Hbit : (bit < 2)%N) by (unfold bit; destruct (b =? 0)%Z; lia).
  generalize (flags_of rest). intros m.
  pose proof (N.land_ones (bit + 2 * m) 1) as Hland.
  change (N.ones 1) with 1%N in Hland. change (2 ^ 1)%N with 2%N in Hland.
  rewrite Hland, N.shiftr_div_pow2. change (2 ^ 1)%N with 2%N.
  split.
  - rewrite N.mul_comm, N.Div0.mod_add.
    apply N.mod_small. exact Hbit.
  - rewrite N.add_comm, N.mul_comm, N.div_add_l by lia.
    rewrite (N.div_small bit) by exact Hbit. lia.
Qed.

(** The [while (match_positions)] loop moves the non-zero slots from
    [buffer_index] on, in order. *)
Lemma collect_matches_decodes buffer rest :
  forall buffer_index out,
    skipn buffer_index buffer = rest ->
    collect_matches chunk_id buffer (flags_of rest) buffer_index out
    = out ++ map (decode_entry chunk_id)
                 (filter (fun b => negb (b =? 0)%Z) rest).
Proof.
  induction rest as [|b rest IH]; intros buffer_index out Hskip.
  - simp collect_matches. simpl. symmetry. apply app_nil_r.
  - rewrite collect_matches_equation_1.
    destruct (N.eq_dec (flags_of (b :: rest)) 0) as [Hz|Hnz].
    + rewrite (flags_of_zero _ Hz). simpl. symmetry. apply app_nil_r.
    + cbn [collect_matches_unfold_clause_1].
      destruct (flags_of_cons_bits b rest) as [Eland Eshift].
      rewrite Eland, Eshift.
      assert (Hb : nth buffer_index buffer 0%Z = b).
      { rewrite <- (Nat.add_0_r buffer_index), <- nth_skipn, Hskip.
        reflexivity. }
      assert (Hrest : skipn (buffer_index + 1) buffer = rest).
      { rewrite Nat.add_comm, <- skipn_skipn, Hskip. reflexivity. }
      rewrite (IH _ _ Hrest), Hb. simpl filter.
      destruct (b =? 0)%Z; simpl; [reflexivity|].
      rewrite <- app_assoc. reflexivity.
Qed.

(** One block: the slots of the first [BUFFER_SIZE] positions are
    decoded and appended. *)
Lemma scan_block_decodes l out :
  scan_block chunk_id LeftIsNullable func right_value l out
  = (skipn BUFFER_SIZE l,
     out ++ map (decode_entry chunk_id)
                (filter (fun b => negb (b =? 0)%Z)
                        (map entry (firstn BUFFER_SIZE l)))).
Proof.
  unfold scan_block. rewrite fill_buffer_map.
  rewrite collect_match_positions_flags, N.shiftl_0_r, N.lor_0_l.
  rewrite (@collect_matches_decodes (map entry (firstn BUFFER_SIZE l))
             (map entry (firstn BUFFER_SIZE l)) 0 out eq_refl).
  reflexivity.
Qed.
End BlockFacts.

(** ** Subsequences *)

Section SubsequenceFacts.
Variable A : Type.

Lemma subsequence_refl (l : list A) : subsequence l l.
Proof. induction l; constructor; assumption. Qed.

Lemma subsequence_filter (f : A -> bool) l : subsequence (filter f l) l.
Proof.
  induction l as [|x l IH]; simpl; [constructor|].
  destruct (f x); constructor; assumption.
Qed.

Lemma subsequence_app (xs1 ys1 xs2 ys2 : list A) :
  subsequence xs1 ys1 -> subsequence xs2 ys2 ->
  subsequence (xs1 ++ xs2) (ys1 ++ ys2).
Proof.
  intros H1 H2. induction H1; simpl; try constructor; assumption.
Qed.

Lemma subsequence_In (xs ys : list A) x :
  subsequence xs ys -> In x xs -> In x ys.
Proof.
  intros H. induction H; simpl; intros Hx; tauto.
Qed.

Lemma subsequence_map B (g : A -> B) (xs ys : list A) :
  subsequence xs ys -> subsequence (map g xs) (map g ys).
Proof. intros H. induction H; simpl; constructor; assumption. Qed.
End SubsequenceFacts.

Lemma subsequence_strictly_increasing xs ys :
  subsequence xs ys ->
  strictly_increasing ys = true -> strictly_increasing xs = true.
Proof.
  intros H. induction H as [|x xs ys H IH|y xs ys H IH]; intros Hs.
  - reflexivity.
  - apply strictly_increasing_cons_inv in Hs. destruct Hs as [Hs Hall].
    apply strictly_increasing_cons; [auto|].
    rewrite Forall_forall in *. intros z Hz. apply Hall.
    eapply subsequence_In; eassumption.
  - apply strictly_increasing_cons_inv in Hs. destruct Hs as [Hs _]. auto.
Qed.

(** ** What the scan loops append *)

Section ScanResults.
Variable chunk_id : Z.

Section WithValue.
Variable LeftIsNullable : bool.
Variable func : Z -> Z -> bool.
Variable right_value : Z.

Local Abbreviation entry := (buffer_entry LeftIsNullable func right_value).
Local Abbreviation hit := (scalar_hit LeftIsNullable func right_value).
Local Abbreviation decoded l :=
  (map (decode_entry chunk_id)
       (filter (fun b => negb (b =? 0)%Z) (map entry l))).

(** The block loop consumes a prefix of the range, leaves at most
    [BUFFER_SIZE] positions and, unless the range is empty, at least
    one. *)
Lemma vectorized_blocks_decodes l out :
  exists l1 l2,
    l = l1 ++ l2
    /\ vectorized_blocks chunk_id LeftIsNullable func right_value l out
       = (l2, out ++ decoded l1)
    /\ length l2 <= BUFFER_SIZE
    /\ (l = [] \/ l2 <> []).
Proof.
  funelim (vectorized_blocks chunk_id LeftIsNullable func right_value
                             l out).
  - rewrite scan_block_decodes in H. cbn [fst snd] in H.
    destruct H as (l1 & l2 & El & Ev & Hlen & Hne).
    exists (firstn BUFFER_SIZE left_it ++ l1), l2.
    split; [|split; [|split]].
    + rewrite <- app_assoc, <- El. symmetry. apply firstn_skipn.
    + rewrite scan_block_decodes. cbn [fst snd].
      rewrite Ev. rewrite map_app, filter_app, map_app, app_assoc.
      reflexivity.
    + exact Hlen.
    + right. destruct Hne as [Hnil|Hne]; [|exact Hne].
      assert (Hl : length (skipn BUFFER_SIZE left_it) = 0)
        by (rewrite Hnil; reflexivity).
      rewrite length_skipn in Hl. lia.
  - exists [], left_it. simpl. rewrite app_nil_r.
    repeat split; try lia.
    destruct left_it; [left; reflexivity|right; discriminate].
Qed.

(** With offsets that are [ChunkOffset]s, a decoded block is the hits
    whose offset is not the largest [ChunkOffset]. *)
Lemma decoded_in_range l :
  offsets_in_range l ->
  decoded l
  = emit_range chunk_id
      (filter (fun p => hit p
                        && negb (chunk_offset p =? ChunkOffset_modulus - 1)%Z)
              l).
Proof.
  induction 1 as [|p l Hp Hl IH]; [reflexivity|].
  simpl. rewrite <- (buffer_entry_nonzero _ _ _ _ Hp).
  destruct (entry p =? 0)%Z eqn:Ez; simpl; [exact IH|].
  rewrite (decode_entry_offset chunk_id _ _ _ _ Hp Ez). f_equal.
  exact IH.
Qed.

Lemma _unary_scan_with_value_scalar l out :
  _unary_scan_with_value chunk_id LeftIsNullable func right_value false
                         l out
  = out ++ emit_range chunk_id (filter hit l).
Proof. unfold _unary_scan_with_value. apply scalar_loop_filter. Qed.

Lemma _unary_scan_with_value_vectorized l out :
  exists l1 l2,
    l = l1 ++ l2
    /\ (l = [] \/ l2 <> [])
    /\ _unary_scan_with_value chunk_id LeftIsNullable func right_value
                              true l out
       = out ++ decoded l1 ++ emit_range chunk_id (filter hit l2).
Proof.
  destruct (vectorized_blocks_decodes l out)
    as (l1 & l2 & El & Ev & _ & Hne).
  exists l1, l2. split; [exact El|]. split; [exact Hne|].
  unfold _unary_scan_with_value. rewrite Ev, scalar_loop_filter.
  rewrite <- app_assoc. reflexivity.
Qed.
End WithValue.
End ScanResults.

(** ** Vectorized and scalar path of [_unary_scan_with_value] *)

Lemma Forall_app_inv (P : SegmentPosition -> Prop) l1 l2 :
  Forall P (l1 ++ l2) -> Forall P l1 /\ Forall P l2.
Proof. apply Forall_app. Qed.

(** When the offsets are [ChunkOffset]s and no position before the last one
    carries the offset [2^32 - 1], no buffer slot of a hit wraps to zero and
    the two paths agree. *)
Lemma vectorized_equals_scalar_without_wrap :
  forall (chunk_id : Z) (LeftIsNullable : bool) (func : Z -> Z -> bool)
         (right_value : Z) (left : list SegmentPosition)
         (matches_out : PosList),
    offsets_in_range left ->
    Forall (fun p => chunk_offset p <> (ChunkOffset_modulus - 1)%Z)
           (removelast left) ->
    _unary_scan_with_value chunk_id LeftIsNullable func right_value true
                           left matches_out
    = _unary_scan_with_value chunk_id LeftIsNullable func right_value false
                             left matches_out.
Proof.
  intros chunk_id LeftIsNullable func right_value left matches_out Hr Hw.
  destruct (_unary_scan_with_value_vectorized chunk_id LeftIsNullable func
              right_value left matches_out) as (l1 & l2 & El & Hne & Ev).
  rewrite Ev, _unary_scan_with_value_scalar. subst left.
  apply Forall_app_inv in Hr. destruct Hr as [Hr1 _].
  rewrite (decoded_in_range chunk_id LeftIsNullable func right_value Hr1).
  assert (Hl1 : Forall (fun p => chunk_offset p
                                 <> (ChunkOffset_modulus - 1)%Z) l1).
  { destruct Hne as [Hnil|Hne].
    - apply app_eq_nil in Hnil. destruct Hnil as [-> _]. constructor.
    - rewrite removelast_app in Hw by exact Hne.
      apply Forall_app_inv in Hw. tauto. }
  f_equal. unfold emit_range. rewrite <- map_app, filter_app. f_equal.
  f_equal. apply filter_ext_in. intros p Hp.
  rewrite Forall_forall in Hl1. apply Hl1 in Hp.
  apply Z.eqb_neq in Hp. rewrite Hp. apply andb_true_r.
Qed.

(** Where offsets increase strictly, only the last position can carry the
    largest [ChunkOffset]. *)
Lemma increasing_offsets_wrap_last_only (l : list SegmentPosition) :
  offsets_in_range l ->
  strictly_increasing (map chunk_offset l) = true ->
  Forall (fun p => chunk_offset p <> (ChunkOffset_modulus - 1)%Z)
         (removelast l).
Proof.
  induction l as [|p l IH]; intros Hr Hs; [constructor|].
  apply Forall_cons_iff in Hr. destruct Hr as [Hp Hr].
  cbn [map] in Hs. apply strictly_increasing_cons_inv in Hs.
  destruct Hs as [Hs Hall].
  destruct l as [|q l]; [constructor|].
  change (removelast (p :: q :: l)) with (p :: removelast (q :: l)).
  constructor; [|apply IH; assumption].
  apply Forall_inv in Hall. apply Forall_inv in Hr. lia.
Qed.

(** C2: on the positions a segment iterator yields, whose chunk offsets are
    [ChunkOffset]s and increase strictly, the block-buffered path of
    [_unary_scan_with_value] and its scalar loop append the same row ids in
    the same order to [matches_out], for every length of the range, every
    functor and value, and either setting of [LeftIsNullable]. *)
Theorem vectorized_scan_equals_scalar_scan :
  forall (chunk_id : Z) (LeftIsNullable : bool) (func : Z -> Z -> bool)
         (right_value : Z) (left : list SegmentPosition)
         (matches_out : PosList),
    offsets_in_range left ->
    strictly_increasing (map chunk_offset left) = true ->
    _unary_scan_with_value chunk_id LeftIsNullable func right_value true
                           left matches_out
    = _unary_scan_with_value chunk_id LeftIsNullable func right_value false
                             left matches_out.
Proof.
  intros chunk_id LeftIsNullable func right_value left matches_out Hr Hs.
  apply vectorized_equals_scalar_without_wrap; [exact Hr|].
  apply increasing_offsets_wrap_last_only; assumption.
Qed.

Lemma vectorized_scan_equals_scalar_scan_witness :
  let range n := map (fun i => mkSegmentPosition (Z.of_nat (i mod 3))
                                                 (Nat.eqb (i mod 5) 0)
                                                 (Z.of_nat i))
                     (seq 0 n) in
  Forall (fun n =>
            _unary_scan_with_value 0 true Z.eqb 1 true (range n) []
            = _unary_scan_with_value 0 true Z.eqb 1 false (range n) [])
         [31; 32; 33].
Proof.
  intros range.
  repeat (apply Forall_cons;
          [apply (@vectorized_scan_equals_scalar_scan 0 true Z.eqb 1 _ []);
           [unfold offsets_in_range, ChunkOffset_modulus, range; simpl;
            repeat constructor; discriminate
           |reflexivity]|]).
  apply Forall_nil.
Defined.

(** C10: inside a block the slot of a position is
    [match_flag * (chunk_offset + 1)] in 32-bit unsigned arithmetic, where
    [match_flag] is 1 for a position that is non-null and satisfies the
    comparison and 0 otherwise, given that [LeftIsNullable] is only unset
    for ranges without nulls.  A slot is decoded as a match exactly when it
    is non-zero.  Position by position, whatever the other positions of the
    block hold: a position whose offset is below [2^32 - 1] has a non-zero
    slot exactly when it is non-null and satisfies the comparison, and the
    slot then decodes to its offset; the block appends, in order, the row
    ids of exactly the non-null positions that satisfy the comparison and
    whose offset plus one does not wrap. *)
Theorem block_buffer_decodes_hits :
  forall (chunk_id : Z) (LeftIsNullable : bool) (func : Z -> Z -> bool)
         (right_value : Z) (block rest : list SegmentPosition)
         (matches_out : PosList),
    length block = BUFFER_SIZE ->
    offsets_in_range block ->
    (LeftIsNullable = false -> Forall (fun p => is_null p = false) block) ->
    let entry := buffer_entry LeftIsNullable func right_value in
    let matches p := negb (is_null p) && func (value p) right_value in
    Forall (fun p =>
              match_flag LeftIsNullable func right_value p = b2z (matches p)
              /\ entry p
                 = ((b2z (matches p) * ((chunk_offset p + 1) mod 2 ^ 32))
                    mod 2 ^ 32)%Z
              /\ ((chunk_offset p < 2 ^ 32 - 1)%Z ->
                  negb (entry p =? 0)%Z = matches p
                  /\ (matches p = true ->
                      decode_entry chunk_id (entry p)
                      = mkRowID chunk_id (chunk_offset p)))
              /\ (chunk_offset p = (2 ^ 32 - 1)%Z -> entry p = 0%Z))
           block
    /\ snd (scan_block chunk_id LeftIsNullable func right_value
                       (block ++ rest) matches_out)
       = matches_out
         ++ map (decode_entry chunk_id)
                (filter (fun b => negb (b =? 0)%Z) (map entry block))
    /\ scan_block chunk_id LeftIsNullable func right_value (block ++ rest)
                  matches_out
       = (rest,
          matches_out
          ++ emit_range chunk_id
               (filter (fun p => matches p
                                 && (chunk_offset p <? 2 ^ 32 - 1)%Z)
                       block)).
Proof.
  intros chunk_id LeftIsNullable func right_value block rest matches_out
         Hlen Hr Htruthful entry matches.
  assert (Hhit : forall p, In p block ->
                   scalar_hit LeftIsNullable func right_value p = matches p).
  { intros p Hp. unfold scalar_hit, matches.
    destruct LeftIsNullable; [reflexivity|].
    specialize (Htruthful eq_refl). rewrite Forall_forall in Htruthful.
    rewrite (Htruthful p Hp). reflexivity. }
  assert (Hblock : firstn BUFFER_SIZE (block ++ rest) = block
                   /\ skipn BUFFER_SIZE (block ++ rest) = rest).
  { rewrite <- Hlen.
    rewrite firstn_app, Nat.sub_diag, firstn_all, firstn_O, app_nil_r.
    rewrite skipn_app, Nat.sub_diag, skipn_all. auto. }
  destruct Hblock as [Hfirst Hskip].
  unfold offsets_in_range in Hr. rewrite Forall_forall in Hr.
  split; [|split].
  - rewrite Forall_forall. intros p Hp.
    pose proof (Hr p Hp) as Hp_range. cbv beta in Hp_range.
    unfold ChunkOffset_modulus in Hp_range.
    assert (Hflag : match_flag LeftIsNullable func right_value p
                    = b2z (matches p))
      by (rewrite match_flag_hit, Hhit by exact Hp; reflexivity).
    split; [exact Hflag|].
    split; [unfold entry, buffer_entry; rewrite Hflag; reflexivity|].
    split.
    + intros Hsmall.
      assert (Hnz : negb (entry p =? 0)%Z = matches p).
      { unfold entry. rewrite buffer_entry_nonzero by exact (Hr p Hp).
        rewrite Hhit by exact Hp. unfold ChunkOffset_modulus.
        destruct (Z.eqb_spec (chunk_offset p) (2 ^ 32 - 1)); [lia|].
        apply andb_true_r. }
      split; [exact Hnz|]. intros Hm.
      apply decode_entry_offset; [exact (Hr p Hp)|].
      apply negb_true_iff. fold entry. rewrite Hnz. exact Hm.
    + intros Hwrap. unfold entry. rewrite buffer_entry_hit, Hwrap.
      destruct (scalar_hit LeftIsNullable func right_value p); reflexivity.
  - rewrite scan_block_decodes. cbn [snd]. rewrite Hfirst. reflexivity.
  - rewrite scan_block_decodes, Hfirst, Hskip. f_equal. f_equal.
    assert (Hr' : offsets_in_range block)
      by (apply Forall_forall; exact Hr).
    rewrite (decoded_in_range chunk_id LeftIsNullable func right_value Hr').
    f_equal. apply filter_ext_in. intros p Hp.
    rewrite Hhit by exact Hp. f_equal.
    pose proof (Hr p Hp) as Hp_range. cbv beta in Hp_range.
    unfold ChunkOffset_modulus in *.
    destruct (Z.eqb_spec (chunk_offset p) (2 ^ 32 - 1)),
      (Z.ltb_spec (chunk_offset p) (2 ^ 32 - 1)); simpl; try reflexivity; lia.
Qed.

Lemma block_buffer_decodes_hits_witness :
  let block := map (fun i => mkSegmentPosition (Z.of_nat (i mod 2))
                                               (Nat.eqb (i mod 4) 3)
                                               (Z.of_nat i))
                   (seq 0 16) in
  scan_block 0 true Z.eqb 1 (block ++ [mkSegmentPosition 1 false 16]) []
  = ([mkSegmentPosition 1 false 16],
     [] ++ emit_range 0
             (filter (fun p => negb (is_null p) && Z.eqb (value p) 1
                               && (chunk_offset p <? 2 ^ 32 - 1)%Z) block)).
Proof.
  intros block.
  refine (proj2 (proj2 (@block_buffer_decodes_hits
                          0 true Z.eqb 1 block [mkSegmentPosition 1 false 16]
                          [] _ _ _))).
  - reflexivity.
  - unfold offsets_in_range, ChunkOffset_modulus, block. simpl.
    repeat constructor; discriminate.
  - discriminate.
Defined.

(** ** Sub-ranges *)

Lemma In_firstn (n : nat) (l : list SegmentPosition) p :
  In p (firstn n l) -> In p l.
Proof.
  intros H. rewrite <- (firstn_skipn n l). apply in_or_app. left. exact H.
Qed.

Lemma In_skipn (n : nat) (l : list SegmentPosition) p :
  In p (skipn n l) -> In p l.
Proof.
  intros H. rewrite <- (firstn_skipn n l). apply in_or_app. right. exact H.
Qed.

Section SubRangeFacts.
Variable data : list SegmentPosition.

Lemma iterator_range_sub b e b' e' :
  b <= b' -> e' <= e ->
  incl (iterator_range data b' e') (iterator_range data b e).
Proof.
  intros Hb He p Hp.
  destruct (Nat.le_gt_cases e' b') as [Hle|Hlt].
  - unfold iterator_range in Hp.
    replace (e' - b') with 0 in Hp by lia. contradiction.
  - rewrite <- (Nat.sub_add b' e'), (Nat.add_comm _ b') in Hp by lia.
    rewrite (@iterator_range_prefix data b' e) in Hp by lia.
    apply In_firstn in Hp.
    replace b' with (b + (b' - b)) in Hp by lia.
    rewrite (@iterator_range_suffix data b e) in Hp by lia.
    apply In_skipn in Hp. exact Hp.
Qed.

Lemma first_bound_bounds s :
  _begin s <= _end s ->
  _begin s <= _get_first_bound data s <= _end s.
Proof.
  intros H. unfold _get_first_bound.
  destruct (_is_ascending s); apply lower_bound_bounds; exact H.
Qed.

Lemma last_bound_bounds s :
  _begin s <= _end s ->
  _begin s <= _get_last_bound data s <= _end s.
Proof.
  intros H. unfold _get_last_bound.
  destruct (_is_ascending s); apply upper_bound_bounds; exact H.
Qed.

(** Whatever the range holds, narrowing stays inside it. *)
Lemma _set_begin_and_end_within s s' :
  _begin s <= _end s ->
  _set_begin_and_end data s = Ok s' ->
  incl (range_of data s') (range_of data s).
Proof.
  intros Hbe. pose proof (first_bound_bounds s Hbe) as Hf.
  pose proof (last_bound_bounds s Hbe) as Hl.
  assert (Hl1 : _get_first_bound data s
                <= _get_last_bound data
                     (set_begin s (_get_first_bound data s))
                <= _end s)
    by (apply (last_bound_bounds (set_begin s (_get_first_bound data s)));
        simpl; lia).
  unfold _set_begin_and_end, range_of.
  destruct (_predicate_condition s), (_is_ascending s); simpl;
    intros H; inversion H; subst s'; simpl;
    apply iterator_range_sub; lia.
Qed.

Lemma _handle_not_equals_within A (functor : list SegmentPosition -> A) s :
  _begin s <= _end s ->
  exists l,
    _handle_not_equals data functor s = functor l
    /\ incl l (range_of data s).
Proof.
  intros Hbe. pose proof (first_bound_bounds s Hbe) as Hf.
  pose proof (last_bound_bounds s Hbe) as Hl.
  unfold _handle_not_equals, join, range_of.
  destruct (_get_first_bound data s =? _end s);
    [|destruct (_get_last_bound data s =? _end s);
      [|destruct (_get_first_bound data s =? _begin s)]];
    eexists; (split; [reflexivity|]);
    try (apply incl_app); apply iterator_range_sub; lia.
Qed.
End SubRangeFacts.

Lemma _binary_scan_appends chunk_id func left :
  forall right out,
    length left <= length right ->
    exists sub,
      _binary_scan chunk_id func left right out
      = Some (out ++ emit_range chunk_id sub)
      /\ subsequence sub left
      /\ Forall (fun p => is_null p = false) sub.
Proof.
  induction left as [|l left IH]; intros right out Hlen.
  - exists []. simpl. rewrite app_nil_r. repeat constructor.
  - destruct right as [|r right]; [simpl in Hlen; lia|].
    simpl in Hlen. simpl.
    destruct (is_null l) eqn:Enl; simpl.
    + destruct (IH right out) as (sub & E & Hs & Hn); [lia|].
      exists sub. rewrite E. repeat split; [constructor|]; assumption.
    + destruct (is_null r); simpl.
      * destruct (IH right out) as (sub & E & Hs & Hn); [lia|].
        exists sub. rewrite E. repeat split; [constructor|]; assumption.
      * destruct (func (value l) (value r)).
        -- destruct (IH right (out ++ [mkRowID chunk_id (chunk_offset l)]))
             as (sub & E & Hs & Hn); [lia|].
           exists (l :: sub). rewrite E, <- app_assoc.
           repeat split; constructor; assumption.
        -- destruct (IH right out) as (sub & E & Hs & Hn); [lia|].
           exists sub. rewrite E. repeat split; [constructor|]; assumption.
Qed.

Lemma _unary_scan_with_value_appends chunk_id LeftIsNullable func right_value
      vectorized left out :
  offsets_in_range left ->
  exists sub,
    _unary_scan_with_value chunk_id LeftIsNullable func right_value vectorized
                           left out
    = out ++ emit_range chunk_id sub
    /\ subsequence sub left
    /\ Forall (fun p => scalar_hit LeftIsNullable func right_value p = true)
              sub.
Proof.
  intros Hr. destruct vectorized.
  - destruct (_unary_scan_with_value_vectorized chunk_id LeftIsNullable func
                right_value left out) as (l1 & l2 & El & _ & Ev).
    subst left. apply Forall_app_inv in Hr. destruct Hr as [Hr1 _].
    rewrite (decoded_in_range chunk_id LeftIsNullable func right_value Hr1)
      in Ev.
    eexists. split; [|split].
    + rewrite Ev. unfold emit_range. rewrite <- map_app. reflexivity.
    + apply subsequence_app; apply subsequence_filter.
    + apply Forall_app. split; apply Forall_forall; intros p Hp;
        apply filter_In in Hp; destruct Hp as [_ Hp];
        [apply andb_prop in Hp; tauto|exact Hp].
  - exists (filter (scalar_hit LeftIsNullable func right_value) left).
    split; [apply _unary_scan_with_value_scalar|].
    split; [apply subsequence_filter|].
    apply Forall_forall. intros p Hp. apply filter_In in Hp. tauto.
Qed.

(** ** Null exclusion and monotonicity *)

(** C5: no returned row id stems from a null position.  For the sorted
    search it suffices that the nulls stand at the end [order_by] dictates:
    the first binary search leaves exactly the non-null positions, every
    range handed to the functor lies inside them, and the search fails only
    on a condition that is no comparison.  [_unary_scan], [_binary_scan] and
    both paths of [_unary_scan_with_value] (given a truthful
    [LeftIsNullable]) append row ids of non-null positions only. *)
Theorem null_positions_are_never_returned :
  (forall (data : list SegmentPosition) (b e : nat) (order_by : OrderByMode)
          (predicate_condition : PredicateCondition)
          (search_value chunk_id : Z),
      b <= e <= length data ->
      nulls_at_end order_by (iterator_range data b e) = true ->
      let s := new_SortedSegmentSearch b e order_by predicate_condition
                                       search_value in
      let whole := iterator_range data b e in
      range_of data (exclude_nulls data s)
      = filter (fun p => negb (is_null p)) whole
      /\ (forall A (functor : list SegmentPosition -> A),
             (exists l, scan_sorted_segment data functor s = Ok (functor l)
                        /\ incl l (filter (fun p => negb (is_null p)) whole))
             \/ (scan_sorted_segment data functor s
                 = Failed Unsupported_predicate
                 /\ is_comparison predicate_condition = false))
      /\ match scan_sorted_segment data (emit_range chunk_id) s with
         | Ok matches =>
             forall r, In r matches ->
                       exists p, In p whole /\ is_null p = false
                                 /\ r = mkRowID chunk_id (chunk_offset p)
         | Failed _ => is_comparison predicate_condition = false
         end)
  /\ (forall (chunk_id : Z) (func : Z -> bool) (left : list SegmentPosition)
             (matches_out : PosList),
         exists new,
           _unary_scan chunk_id func left matches_out = matches_out ++ new
           /\ forall r, In r new ->
                        exists p, In p left /\ is_null p = false
                                  /\ r = mkRowID chunk_id (chunk_offset p))
  /\ (forall (chunk_id : Z) (LeftIsNullable : bool) (func : Z -> Z -> bool)
             (right_value : Z) (vectorized : bool)
             (left : list SegmentPosition) (matches_out : PosList),
         (LeftIsNullable = false ->
          forallb (fun p => negb (is_null p)) left = true) ->
         offsets_in_range left ->
         exists new,
           _unary_scan_with_value chunk_id LeftIsNullable func right_value
                                  vectorized left matches_out
           = matches_out ++ new
           /\ forall r, In r new ->
                        exists p, In p left /\ is_null p = false
                                  /\ r = mkRowID chunk_id (chunk_offset p))
  /\ (forall (chunk_id : Z) (func : Z -> Z -> bool)
             (left right : list SegmentPosition) (matches_out : PosList),
         length left <= length right ->
         exists new,
           _binary_scan chunk_id func left right matches_out
           = Some (matches_out ++ new)
           /\ forall r, In r new ->
                        exists p, In p left /\ is_null p = false
                                  /\ r = mkRowID chunk_id (chunk_offset p)).
Proof.
  split; [|split; [|split]].
  - intros data b e order_by predicate_condition search_value chunk_id
           Hbe Hnulls s whole.
    destruct (@exclude_nulls_cut data order_by s) as (Hv & Er); auto.
    change (range_of data s) with whole in Er.
    destruct (exclude_nulls_fields data s) as [Ec _]. simpl in Ec.
    assert (Hgen : forall A (functor : list SegmentPosition -> A),
               (exists l, scan_sorted_segment data functor s = Ok (functor l)
                          /\ incl l (filter (fun p => negb (is_null p)) whole))
               \/ (scan_sorted_segment data functor s
                   = Failed Unsupported_predicate
                   /\ is_comparison predicate_condition = false)).
    { intros A functor. unfold scan_sorted_segment. cbv zeta. rewrite Ec.
      destruct (PredicateCondition_eqb predicate_condition NotEquals) eqn:Ene.
      - left.
        destruct (@_handle_not_equals_within data A functor
                    (exclude_nulls data s)) as (l & El & Hl);
          [apply Hv|].
        exists l. rewrite El, <- Er. auto.
      - destruct (_set_begin_and_end data (exclude_nulls data s)) as [s'|msg]
          eqn:Es.
        + left. eexists. split; [reflexivity|]. rewrite <- Er.
          apply (@_set_begin_and_end_within data _ s'); [apply Hv|exact Es].
        + right. unfold _set_begin_and_end in Es. rewrite Ec in Es.
          destruct predicate_condition,
            (_is_ascending (exclude_nulls data s)); simpl in Es, Ene;
            try discriminate; inversion Es; auto. }
    split; [exact Er|]. split; [exact Hgen|].
    destruct (Hgen PosList (emit_range chunk_id))
      as [(l & El & Hl)|[Ef Hc]].
    + rewrite El. intros r Hr. unfold emit_range in Hr.
      apply in_map_iff in Hr. destruct Hr as (p & <- & Hp).
      apply Hl, filter_In in Hp. destruct Hp as [Hp Hn].
      apply negb_true_iff in Hn. exists p. auto.
    + rewrite Ef. exact Hc.
  - intros chunk_id func left matches_out. eexists.
    split; [apply _unary_scan_filter|].
    intros r Hr. unfold emit_range in Hr. apply in_map_iff in Hr.
    destruct Hr as (p & <- & Hp). apply filter_In in Hp.
    destruct Hp as [Hp Hh]. apply andb_prop in Hh. destruct Hh as [Hn _].
    apply negb_true_iff in Hn. exists p. auto.
  - intros chunk_id LeftIsNullable func right_value vectorized left
           matches_out Htruth Hr.
    destruct (@_unary_scan_with_value_appends chunk_id LeftIsNullable func
                right_value vectorized left matches_out Hr)
      as (sub & E & Hs & Hh).
    eexists. split; [exact E|].
    intros r Hin. unfold emit_range in Hin. apply in_map_iff in Hin.
    destruct Hin as (p & <- & Hp). exists p.
    assert (Hpl : In p left) by (eapply subsequence_In; eassumption).
    split; [exact Hpl|]. split; [|reflexivity].
    rewrite Forall_forall in Hh. specialize (Hh p Hp).
    unfold scalar_hit in Hh. destruct LeftIsNullable.
    + simpl in Hh. apply andb_prop in Hh. destruct Hh as [Hn _].
      apply negb_true_iff in Hn. exact Hn.
    + specialize (Htruth eq_refl). rewrite forallb_forall in Htruth.
      apply negb_true_iff. auto.
  - intros chunk_id func left right matches_out Hlen.
    destruct (@_binary_scan_appends chunk_id func left right matches_out Hlen)
      as (sub & E & Hs & Hn).
    eexists. split; [exact E|].
    intros r Hin. unfold emit_range in Hin. apply in_map_iff in Hin.
    destruct Hin as (p & <- & Hp). exists p.
    rewrite Forall_forall in Hn.
    split; [eapply subsequence_In; eassumption|]. auto.
Qed.

Lemma null_positions_are_never_returned_witness :
  let data := [mkSegmentPosition 7 true 0; mkSegmentPosition 9 true 1;
               mkSegmentPosition 4 false 2; mkSegmentPosition 2 false 3;
               mkSegmentPosition 4 false 4] in
  range_of data (exclude_nulls data
                   (new_SortedSegmentSearch 0 5 Ascending Equals 4))
  = filter (fun p => negb (is_null p)) (iterator_range data 0 5)
  /\ exists new,
      _unary_scan_with_value 0 true Z.eqb 4 true data [] = [] ++ new
      /\ forall r, In r new ->
                   exists p, In p data /\ is_null p = false
                             /\ r = mkRowID 0 (chunk_offset p).
Proof.
  intros data.
  destruct null_positions_are_never_returned as (H1 & _ & H3 & _).
  split.
  - refine (proj1 (H1 data 0 5 Ascending Equals 4%Z 0%Z _ _)).
    + simpl. lia.
    + reflexivity.
  - apply (H3 0%Z true Z.eqb 4%Z true data []).
    + discriminate.
    + unfold offsets_in_range, ChunkOffset_modulus, data.
      repeat constructor; discriminate.
Defined.

(** C6: fed with strictly increasing chunk offsets, each scan loop appends
    row ids whose chunk offsets are strictly increasing; they are the
    offsets of the input with some left out, in the order of the input. *)
Theorem scan_offsets_strictly_increasing :
  (forall (chunk_id : Z) (func : Z -> bool) (left : list SegmentPosition)
          (matches_out : PosList),
      strictly_increasing (map chunk_offset left) = true ->
      exists new,
        _unary_scan chunk_id func left matches_out = matches_out ++ new
        /\ subsequence (offsets_of new) (map chunk_offset left)
        /\ strictly_increasing (offsets_of new) = true)
  /\ (forall (chunk_id : Z) (LeftIsNullable : bool) (func : Z -> Z -> bool)
             (right_value : Z) (vectorized : bool)
             (left : list SegmentPosition) (matches_out : PosList),
         offsets_in_range left ->
         strictly_increasing (map chunk_offset left) = true ->
         exists new,
           _unary_scan_with_value chunk_id LeftIsNullable func right_value
                                  vectorized left matches_out
           = matches_out ++ new
           /\ subsequence (offsets_of new) (map chunk_offset left)
           /\ strictly_increasing (offsets_of new) = true)
  /\ (forall (chunk_id : Z) (func : Z -> Z -> bool)
             (left right : list SegmentPosition) (matches_out : PosList),
         length left <= length right ->
         strictly_increasing (map chunk_offset left) = true ->
         exists new,
           _binary_scan chunk_id func left right matches_out
           = Some (matches_out ++ new)
           /\ subsequence (offsets_of new) (map chunk_offset left)
           /\ strictly_increasing (offsets_of new) = true).
Proof.
  assert (Hsub : forall chunk_id sub left,
             subsequence sub left ->
             strictly_increasing (map chunk_offset left) = true ->
             subsequence (offsets_of (emit_range chunk_id sub))
                         (map chunk_offset left)
             /\ strictly_increasing (offsets_of (emit_range chunk_id sub))
                = true).
  { intros chunk_id sub left Hs Hinc. rewrite offsets_of_emit_range.
    assert (Hm : subsequence (map chunk_offset sub) (map chunk_offset left))
      by (apply subsequence_map; exact Hs).
    split; [exact Hm|].
    eapply subsequence_strictly_increasing; eassumption. }
  split; [|split].
  - intros chunk_id func left matches_out Hinc. eexists.
    split; [apply _unary_scan_filter|].
    apply Hsub; [apply subsequence_filter|exact Hinc].
  - intros chunk_id LeftIsNullable func right_value vectorized left
           matches_out Hr Hinc.
    destruct (@_unary_scan_with_value_appends chunk_id LeftIsNullable func
                right_value vectorized left matches_out Hr)
      as (sub & E & Hs & _).
    eexists. split; [exact E|]. apply Hsub; assumption.
  - intros chunk_id func left right matches_out Hlen Hinc.
    destruct (@_binary_scan_appends chunk_id func left right matches_out Hlen)
      as (sub & E & Hs & _).
    eexists. split; [exact E|]. apply Hsub; assumption.
Qed.

Lemma scan_offsets_strictly_increasing_witness :
  let left := map (fun i => mkSegmentPosition (Z.of_nat (i mod 3))
                                              (Nat.eqb (i mod 5) 0)
                                              (Z.of_nat (2 * i)))
                  (seq 0 35) in
  exists new,
    _unary_scan_with_value 0 true Z.eqb 1 true left [] = [] ++ new
    /\ subsequence (offsets_of new) (map chunk_offset left)
    /\ strictly_increasing (offsets_of new) = true.
Proof.
  intros left.
  destruct scan_offsets_strictly_increasing as (_ & H2 & _).
  apply (H2 0%Z true Z.eqb 1%Z true left []).
  - unfold offsets_in_range, ChunkOffset_modulus, left. simpl.
    repeat constructor; discriminate.
  - reflexivity.
Defined.

(** * Further properties of the sorted search *)

Lemma iterator_range_split data b m e :
  b <= m <= e ->
  iterator_range data b e = iterator_range data b m ++ iterator_range data m e.
Proof.
  intros H.
  replace m with (b + (m - b)) at 1 2 by lia.
  rewrite (@iterator_range_prefix data b e), (@iterator_range_suffix data b e)
    by lia.
  symmetry. apply firstn_skipn.
Qed.

(** X1: whatever the range holds, sorted or not, the two bound queries
    return iterators inside the range they were given. *)
Theorem bounds_stay_inside_range :
  forall (data : list SegmentPosition) (s : SortedSegmentSearch),
    _begin s <= _end s ->
    _begin s <= _get_first_bound data s <= _end s
    /\ _begin s <= _get_last_bound data s <= _end s.
Proof.
  intros data s H. split.
  - apply first_bound_bounds. exact H.
  - apply last_bound_bounds. exact H.
Qed.

Lemma bounds_stay_inside_range_witness :
  let data := [mkSegmentPosition 4 false 0; mkSegmentPosition 1 false 1;
               mkSegmentPosition 9 false 2; mkSegmentPosition 1 false 3] in
  let s := new_SortedSegmentSearch 1 4 Descending Equals 1 in
  1 <= _get_first_bound data s <= 4 /\ 1 <= _get_last_bound data s <= 4.
Proof.
  intros data s.
  apply (@bounds_stay_inside_range data s). simpl. lia.
Defined.

(** X3: [_set_begin_and_end] never widens a range, on sorted and unsorted
    data alike: for [Equals] and the four order comparisons it returns
    iterators with [begin <= begin' <= end' <= end]; called with any other
    condition, [NotEquals] included, it fails. *)
Theorem set_begin_and_end_only_narrows :
  forall (data : list SegmentPosition) (s : SortedSegmentSearch),
    _begin s <= _end s ->
    if is_comparison (_predicate_condition s)
       && negb (PredicateCondition_eqb (_predicate_condition s) NotEquals)
    then exists s',
        _set_begin_and_end data s = Ok s'
        /\ _begin s <= _begin s' /\ _begin s' <= _end s'
        /\ _end s' <= _end s
        /\ _predicate_condition s' = _predicate_condition s
        /\ _search_value s' = _search_value s
    else _set_begin_and_end data s = Failed Unsupported_predicate.
Proof.
  intros data s Hbe.
  pose proof (first_bound_bounds data s Hbe) as Hf.
  pose proof (last_bound_bounds data s Hbe) as Hl.
  assert (Hl1 : _get_first_bound data s
                <= _get_last_bound data
                     (set_begin s (_get_first_bound data s))
                <= _end s)
    by (apply (last_bound_bounds data (set_begin s (_get_first_bound data s)));
        simpl; lia).
  unfold _set_begin_and_end.
  destruct (_predicate_condition s) eqn:Ec, (_is_ascending s); simpl;
    try reflexivity; eexists; (split; [reflexivity|]); simpl;
    repeat split; try assumption; try reflexivity; lia.
Qed.

Lemma set_begin_and_end_only_narrows_witness :
  let data := [mkSegmentPosition 4 false 0; mkSegmentPosition 1 false 1;
               mkSegmentPosition 9 false 2; mkSegmentPosition 1 false 3] in
  exists s',
    _set_begin_and_end data (new_SortedSegmentSearch 0 4 Ascending LessThan 5)
    = Ok s'
    /\ 0 <= _begin s' /\ _begin s' <= _end s' /\ _end s' <= 4
    /\ _predicate_condition s' = LessThan /\ _search_value s' = 5%Z.
Proof.
  intros data.
  apply (@set_begin_and_end_only_narrows data
           (new_SortedSegmentSearch 0 4 Ascending LessThan 5)).
  simpl. lia.
Defined.

Lemma sorted_values_two_partitions order_by search_value l :
  sorted_per order_by l = true ->
  forallb (fun p => negb (is_null p)) l = true ->
  partitioned (fun p => comparator
                          (if order_is_ascending order_by then LessThan
                           else GreaterThan) (value p) search_value) l = true
  /\ partitioned (fun p => comparator
                             (if order_is_ascending order_by
                              then LessThanEquals else GreaterThanEquals)
                             (value p) search_value) l = true.
Proof.
  intros Hs Hn. split; apply sorted_values_partitioned with order_by; auto;
    intros p q; destruct (order_is_ascending order_by); simpl;
    rewrite ?Z.gtb_ltb, ?Z.geb_leb, ?Z.ltb_lt, ?Z.leb_le; lia.
Qed.

Lemma filter_matches_null_free predicate_condition search_value l :
  filter (position_matches predicate_condition search_value) l
  = filter (fun p => comparator predicate_condition (value p) search_value)
           (filter (fun p => negb (is_null p)) l).
Proof. rewrite filter_filter. reflexivity. Qed.

(** X4: on a sorted range the results of the six conditions fit together.
    Ascending, the non-null positions are the [LessThan] result, then the
    [Equals] result, then the [GreaterThan] result; [LessThanEquals],
    [GreaterThanEquals] and [NotEquals] are the matching concatenations of
    two of them.  Descending, the order of the three parts is reversed. *)
Theorem sorted_scans_partition_the_range :
  forall (data : list SegmentPosition) (b e : nat) (order_by : OrderByMode)
         (search_value : Z),
    b <= e <= length data ->
    sorted_per order_by (iterator_range data b e) = true ->
    let scan c :=
      scan_sorted_segment data (fun r => r)
        (new_SortedSegmentSearch b e order_by c search_value) in
    let in_order (x y : list SegmentPosition) :=
      if order_is_ascending order_by then x ++ y else y ++ x in
    exists lt eq gt,
      scan LessThan = Ok lt /\ scan Equals = Ok eq /\ scan GreaterThan = Ok gt
      /\ scan LessThanEquals = Ok (in_order lt eq)
      /\ scan GreaterThanEquals = Ok (in_order eq gt)
      /\ scan NotEquals = Ok (in_order lt gt)
      /\ filter (fun p => negb (is_null p)) (iterator_range data b e)
         = in_order lt (in_order eq gt).
Proof.
  intros data b e order_by search_value Hbe Hs scan in_order.
  unfold scan.
  rewrite !(@scan_sorted_segment_narrows data b e order_by) by auto.
  do 3 eexists. do 3 (split; [reflexivity|]).
  rewrite !filter_matches_null_free.
  set (nn := filter (fun p => negb (is_null p)) (iterator_range data b e)).
  assert (Hsn : sorted_per order_by nn = true)
    by (apply sorted_per_filter; exact Hs).
  assert (Hnn : forallb (fun p => negb (is_null p)) nn = true)
    by apply forallb_filter.
  destruct (sorted_values_two_partitions order_by search_value nn Hsn Hnn)
    as [P1 P2].
  unfold in_order. destruct (order_is_ascending order_by).
  - repeat split; f_equal.
    + rewrite (@filter_by_partition _
                 (fun p => comparator LessThanEquals (value p) search_value)
                 _ P1).
      f_equal; apply filter_ext; intros a; zbool.
    + rewrite (@filter_by_partition _
                 (fun p => comparator GreaterThanEquals (value p) search_value)
                 _ P2).
      f_equal; apply filter_ext; intros a; zbool.
    + rewrite (@filter_by_partition _
                 (fun p => comparator NotEquals (value p) search_value)
                 _ P2).
      f_equal; apply filter_ext; intros a; zbool.
    + rewrite <- (filter_true nn) at 1.
      rewrite (@filter_by_partition _ (fun _ => true) _ P1). f_equal.
      * apply filter_ext; intros a; zbool.
      * rewrite (@filter_by_partition _
                   (fun p => negb (comparator LessThan (value p) search_value)
                             && true) _ P2).
        f_equal; apply filter_ext; intros a; zbool.
  - repeat split; f_equal.
    + rewrite (@filter_by_partition _
                 (fun p => comparator LessThanEquals (value p) search_value)
                 _ P2).
      f_equal; apply filter_ext; intros a; zbool.
    + rewrite (@filter_by_partition _
                 (fun p => comparator GreaterThanEquals (value p) search_value)
                 _ P1).
      f_equal; apply filter_ext; intros a; zbool.
    + rewrite (@filter_by_partition _
                 (fun p => comparator NotEquals (value p) search_value)
                 _ P1).
      f_equal; apply filter_ext; intros a; zbool.
    + rewrite <- (filter_true nn) at 1.
      rewrite (@filter_by_partition _ (fun _ => true) _ P2). f_equal.
      * rewrite (@filter_by_partition _
                   (fun p => comparator GreaterThanEquals (value p)
                                        search_value
                             && true) _ P1).
        f_equal; apply filter_ext; intros a; zbool.
      * apply filter_ext; intros a; zbool.
Qed.

Lemma sorted_scans_partition_the_range_witness :
  let data := [mkSegmentPosition 9 false 0; mkSegmentPosition 7 false 1;
               mkSegmentPosition 7 false 2; mkSegmentPosition 3 false 3;
               mkSegmentPosition 0 true 4] in
  exists lt eq gt,
    scan_sorted_segment data (fun r => r)
      (new_SortedSegmentSearch 0 5 DescendingNullsLast LessThan 7) = Ok lt
    /\ scan_sorted_segment data (fun r => r)
         (new_SortedSegmentSearch 0 5 DescendingNullsLast Equals 7) = Ok eq
    /\ scan_sorted_segment data (fun r => r)
         (new_SortedSegmentSearch 0 5 DescendingNullsLast GreaterThan 7) = Ok gt
    /\ filter (fun p => negb (is_null p)) (iterator_range data 0 5)
       = (gt ++ eq) ++ lt.
Proof.
  intros data.
  destruct (@sorted_scans_partition_the_range data 0 5 DescendingNullsLast 7)
    as (lt & eq & gt & H1 & H2 & H3 & _ & _ & _ & H7).
  - simpl. lia.
  - reflexivity.
  - exists lt, eq, gt. auto.
Defined.

(** X5: a sorted scan keeps the offsets in order: on a sorted range whose
    chunk offsets are strictly increasing, the row ids emitted for any of
    the six conditions, [NotEquals] with its two sub-ranges included, have
    strictly increasing offsets and are the offsets of the range with some
    left out. *)
Theorem sorted_scan_offsets_strictly_increasing :
  forall (data : list SegmentPosition) (b e : nat) (order_by : OrderByMode)
         (predicate_condition : PredicateCondition) (search_value chunk_id : Z),
    b <= e <= length data ->
    is_comparison predicate_condition = true ->
    sorted_per order_by (iterator_range data b e) = true ->
    strictly_increasing (map chunk_offset (iterator_range data b e)) = true ->
    exists matches,
      scan_sorted_segment data (emit_range chunk_id)
        (new_SortedSegmentSearch b e order_by predicate_condition search_value)
      = Ok matches
      /\ strictly_increasing (offsets_of matches) = true
      /\ subsequence (offsets_of matches)
                     (map chunk_offset (iterator_range data b e)).
Proof.
  intros data b e order_by predicate_condition search_value chunk_id
         Hbe Hc Hs Hinc.
  rewrite scan_sorted_segment_narrows by assumption.
  eexists. split; [reflexivity|]. rewrite offsets_of_emit_range. split.
  - apply strictly_increasing_filter. exact Hinc.
  - apply subsequence_map, subsequence_filter.
Qed.

Lemma sorted_scan_offsets_strictly_increasing_witness :
  let data := [mkSegmentPosition 1 false 10; mkSegmentPosition 2 false 20;
               mkSegmentPosition 2 false 30; mkSegmentPosition 5 false 40;
               mkSegmentPosition 0 true 50] in
  exists matches,
    scan_sorted_segment data (emit_range 3)
      (new_SortedSegmentSearch 0 5 AscendingNullsLast NotEquals 2)
    = Ok matches
    /\ strictly_increasing (offsets_of matches) = true
    /\ subsequence (offsets_of matches)
                   (map chunk_offset (iterator_range data 0 5)).
Proof.
  intros data.
  apply (@sorted_scan_offsets_strictly_increasing data 0 5 AscendingNullsLast
           NotEquals 2 3).
  - simpl. lia.
  - reflexivity.
  - reflexivity.
  - reflexivity.
Defined.

(** * Further properties of the scan loops *)

(** X6: scanning a range in two pieces, the second call continuing with the
    matches of the first, is scanning the whole range; this holds for
    [_unary_scan], for the scalar loop of [_unary_scan_with_value] and,
    piece by piece on both sides, for [_binary_scan]. *)
Theorem scans_compose_over_concatenation :
  forall (chunk_id : Z) (l1 l2 : list SegmentPosition) (matches_out : PosList),
    (forall func,
        _unary_scan chunk_id func (l1 ++ l2) matches_out
        = _unary_scan chunk_id func l2
                      (_unary_scan chunk_id func l1 matches_out))
    /\ (forall LeftIsNullable func right_value,
           _unary_scan_with_value chunk_id LeftIsNullable func right_value
                                  false (l1 ++ l2) matches_out
           = _unary_scan_with_value chunk_id LeftIsNullable func right_value
               false l2
               (_unary_scan_with_value chunk_id LeftIsNullable func
                                       right_value false l1 matches_out))
    /\ (forall func r1 r2,
           length l1 = length r1 ->
           _binary_scan chunk_id func (l1 ++ l2) (r1 ++ r2) matches_out
           = match _binary_scan chunk_id func l1 r1 matches_out with
             | Some matches => _binary_scan chunk_id func l2 r2 matches
             | None => None
             end).
Proof.
  intros chunk_id l1 l2 matches_out. split; [|split].
  - intros func. rewrite !_unary_scan_filter, filter_app.
    unfold emit_range. rewrite map_app, app_assoc. reflexivity.
  - intros LeftIsNullable func right_value.
    rewrite !_unary_scan_with_value_scalar, filter_app.
    unfold emit_range. rewrite map_app, app_assoc. reflexivity.
  - intros func r1. revert matches_out r1.
    induction l1 as [|l l1 IH]; intros matches_out r1 r2 Hlen;
      destruct r1 as [|r r1]; try discriminate; [reflexivity|].
    simpl in Hlen. injection Hlen as Hlen. simpl.
    destruct (is_null l || is_null r); [apply IH; exact Hlen|].
    destruct (func (value l) (value r)); apply IH; exact Hlen.
Qed.

Lemma scans_compose_over_concatenation_witness :
  let l1 := [mkSegmentPosition 1 false 0; mkSegmentPosition 2 true 1] in
  let r1 := [mkSegmentPosition 1 false 0; mkSegmentPosition 2 false 1] in
  let l2 := [mkSegmentPosition 3 false 2] in
  let r2 := [mkSegmentPosition 3 false 2] in
  _binary_scan 0 Z.eqb (l1 ++ l2) (r1 ++ r2) []
  = match _binary_scan 0 Z.eqb l1 r1 [] with
    | Some matches => _binary_scan 0 Z.eqb l2 r2 matches
    | None => None
    end.
Proof.
  intros l1 r1 l2 r2.
  apply (proj2 (proj2 (@scans_compose_over_concatenation 0 l1 l2 []))).
  reflexivity.
Defined.

(** X7: [_unary_scan_with_value] with the value bound into the functor is
    [_unary_scan]: always when [LeftIsNullable] is set, and on ranges
    without nulls when it is not (scalar loop). *)
Theorem unary_scan_with_value_is_unary_scan :
  forall (chunk_id : Z) (func : Z -> Z -> bool) (right_value : Z)
         (left : list SegmentPosition) (matches_out : PosList),
    _unary_scan_with_value chunk_id true func right_value false left
                           matches_out
    = _unary_scan chunk_id (fun v => func v right_value) left matches_out
    /\ (forallb (fun p => negb (is_null p)) left = true ->
        _unary_scan_with_value chunk_id false func right_value false left
                               matches_out
        = _unary_scan chunk_id (fun v => func v right_value) left matches_out).
Proof.
  intros chunk_id func right_value left matches_out.
  rewrite !_unary_scan_with_value_scalar, _unary_scan_filter. split.
  - reflexivity.
  - intros Hn. f_equal. f_equal. apply filter_ext_in. intros p Hp.
    rewrite forallb_forall in Hn. rewrite (Hn p Hp). reflexivity.
Qed.

Lemma unary_scan_with_value_is_unary_scan_witness :
  let left := [mkSegmentPosition 3 false 0; mkSegmentPosition 5 false 1] in
  _unary_scan_with_value 0 false Z.ltb 4 false left []
  = _unary_scan 0 (fun v => Z.ltb v 4) left [].
Proof.
  intros left.
  apply (proj2 (@unary_scan_with_value_is_unary_scan 0 Z.ltb 4 left [])).
  reflexivity.
Defined.

(** X8: a [_binary_scan] against a right column that holds the same
    non-null value in every row is the [_unary_scan] with that value bound
    into the functor. *)
Theorem binary_scan_against_constant_column :
  forall (chunk_id : Z) (func : Z -> Z -> bool) (right_value : Z)
         (left right : list SegmentPosition) (matches_out : PosList),
    length left <= length right ->
    Forall (fun r => is_null r = false /\ value r = right_value) right ->
    _binary_scan chunk_id func left right matches_out
    = Some (_unary_scan chunk_id (fun v => func v right_value) left
                        matches_out).
Proof.
  intros chunk_id func right_value left.
  induction left as [|l left IH]; intros right matches_out Hlen Hr;
    [reflexivity|].
  destruct right as [|r right]; [simpl in Hlen; lia|].
  inversion Hr as [|? ? [Hn Hv] Hr']; subst. simpl in Hlen. simpl.
  rewrite Hn, orb_false_r.
  destruct (is_null l); [apply IH; [lia|exact Hr']|].
  destruct (func (value l) (value r)); apply IH; try lia; exact Hr'.
Qed.

Lemma binary_scan_against_constant_column_witness :
  let left := [mkSegmentPosition 3 false 0; mkSegmentPosition 5 true 1;
               mkSegmentPosition 4 false 2] in
  let right := [mkSegmentPosition 4 false 0; mkSegmentPosition 4 false 1;
                mkSegmentPosition 4 false 2] in
  _binary_scan 0 Z.leb left right []
  = Some (_unary_scan 0 (fun v => Z.leb v 4) left []).
Proof.
  intros left right.
  apply (@binary_scan_against_constant_column 0 Z.leb 4 left right []).
  - simpl. lia.
  - repeat constructor.
Defined.

(** X9: a range of at most [BUFFER_SIZE] positions never enters the block
    loop, because its condition is a strict comparison: on such a range the
    vectorized instantiation is the scalar loop, whatever the offsets. *)
Theorem short_ranges_skip_the_block_loop :
  forall (chunk_id : Z) (LeftIsNullable : bool) (func : Z -> Z -> bool)
         (right_value : Z) (left : list SegmentPosition)
         (matches_out : PosList),
    length left <= BUFFER_SIZE ->
    vectorized_blocks chunk_id LeftIsNullable func right_value left
                      matches_out
    = (left, matches_out)
    /\ _unary_scan_with_value chunk_id LeftIsNullable func right_value true
                              left matches_out
       = _unary_scan_with_value chunk_id LeftIsNullable func right_value
                                false left matches_out.
Proof.
  intros chunk_id LeftIsNullable func right_value left matches_out Hlen.
  assert (E : vectorized_blocks chunk_id LeftIsNullable func right_value left
                                matches_out = (left, matches_out)).
  { rewrite vectorized_blocks_equation_1.
    destruct (lt_dec BUFFER_SIZE (length left)); [lia|reflexivity]. }
  split; [exact E|]. unfold _unary_scan_with_value. rewrite E. reflexivity.
Qed.

Lemma short_ranges_skip_the_block_loop_witness :
  let left := map (fun i => mkSegmentPosition 1 false
                                              (4294967295 - Z.of_nat i))
                  (seq 0 16) in
  _unary_scan_with_value 0 true Z.eqb 1 true left []
  = _unary_scan_with_value 0 true Z.eqb 1 false left [].
Proof.
  intros left.
  assert (Hlen : length left <= BUFFER_SIZE)
    by (apply Nat.leb_le; reflexivity).
  exact (proj2 (@short_ranges_skip_the_block_loop 0 true Z.eqb 1 left []
                  Hlen)).
Defined.

Lemma mod_16_step n : 16 < n -> (n - 1) mod 16 = (n - 16 - 1) mod 16.
Proof.
  intros H. replace (n - 1) with (n - 16 - 1 + 1 * 16).
  - apply Nat.Div0.mod_add.
  - clear - H. lia.
Qed.

(** X10: the block loop consumes whole blocks and always leaves work for the
    scalar loop: of [n > 0] positions it leaves the last
    [(n - 1) mod BUFFER_SIZE + 1], that is between one and [BUFFER_SIZE];
    a range whose length is a multiple of [BUFFER_SIZE] has its last block
    handled by the scalar loop. *)
Theorem block_loop_leaves_a_remainder :
  forall (chunk_id : Z) (LeftIsNullable : bool) (func : Z -> Z -> bool)
         (right_value : Z) (left : list SegmentPosition)
         (matches_out : PosList),
    let rest := fst (vectorized_blocks chunk_id LeftIsNullable func right_value
                                       left matches_out) in
    length rest = (if length left =? 0 then 0
                   else (length left - 1) mod BUFFER_SIZE + 1)
    /\ rest = skipn (length left - length rest) left.
Proof.
  intros chunk_id LeftIsNullable func right_value left matches_out.
  cbv zeta.
  funelim (vectorized_blocks chunk_id LeftIsNullable func right_value
                             left matches_out).
  - rewrite scan_block_decodes in H. cbn [fst snd] in H.
    rewrite scan_block_decodes. cbn [fst snd].
    destruct H as [Hlen Hrest].
    set (rest := fst (vectorized_blocks chunk_id LeftIsNullable func
                        right_value (skipn BUFFER_SIZE left_it)
                        (matches_out
                         ++ map (decode_entry chunk_id)
                              (filter (fun b => negb (b =? 0)%Z)
                                 (map (buffer_entry LeftIsNullable func
                                                    right_value)
                                      (firstn BUFFER_SIZE left_it)))))) in *.
    rewrite length_skipn in Hlen, Hrest.
    change BUFFER_SIZE with 16 in *. clearbody rest. clear Heq Heqcall.
    assert (Hl : length rest = (length left_it - 1) mod 16 + 1).
    { destruct (Nat.eqb_spec (length left_it - 16) 0) as [E|N];
        [exfalso; lia|].
      rewrite Hlen. f_equal. symmetry. apply mod_16_step. exact l. }
    split.
    + destruct (Nat.eqb_spec (length left_it) 0); [lia|exact Hl].
    + rewrite Hrest at 1. rewrite skipn_skipn. f_equal.
      assert (Hle : length rest <= length left_it - 16).
      { rewrite Hlen.
        destruct (Nat.eqb_spec (length left_it - 16) 0) as [E|N]; [lia|].
        pose proof (Nat.Div0.mod_le (length left_it - 16 - 1) 16) as Hm.
        clear - Hm N. lia. }
      clear - Hle l. lia.
  - cbn [fst]. change BUFFER_SIZE with 16 in *.
    destruct (Nat.eqb_spec (length left_it) 0) as [E|N].
    + split; [exact E|]. rewrite E. reflexivity.
    + split; [rewrite Nat.mod_small by lia; lia|].
      rewrite Nat.sub_diag. reflexivity.
Qed.

Lemma flags_of_testbit buffer :
  forall i,
    N.testbit (flags_of buffer) (N.of_nat i)
    = (i <? length buffer) && negb (nth i buffer 0 =? 0)%Z.
Proof.
  induction buffer as [|b rest IH]; intros i.
  - simpl. destruct i; reflexivity.
  - cbn [flags_of].
    replace ((if (b =? 0)%Z then 0 else 1) + 2 * flags_of rest)%N
      with (2 * flags_of rest + N.b2n (negb (b =? 0)%Z))%N
      by (destruct (b =? 0)%Z; simpl N.b2n; lia).
    destruct i as [|i].
    + rewrite N.testbit_0_r. reflexivity.
    + rewrite Nat2N.inj_succ, N.testbit_succ_r, IH. reflexivity.
Qed.

Lemma flags_of_bound buffer :
  (flags_of buffer < 2 ^ N.of_nat (length buffer))%N.
Proof.
  induction buffer as [|b rest IH]; [reflexivity|].
  cbn [flags_of length]. rewrite Nat2N.inj_succ, N.pow_succ_r'.
  destruct (b =? 0)%Z; lia.
Qed.

(** X11: after the second loop of a block, bit [i] of [match_positions] is
    set exactly when slot [i] of the buffer is non-zero, and no bit at or
    above the buffer length is set, so the flags of a buffer of
    [BUFFER_SIZE] slots need 16 of the 64 bits of [match_positions]. *)
Theorem match_positions_flag_nonzero_slots :
  forall (buffer : list Z) (i : nat),
    N.testbit (collect_match_positions buffer 0 0) (N.of_nat i)
    = (i <? length buffer) && negb (nth i buffer 0 =? 0)%Z
    /\ (collect_match_positions buffer 0 0 < 2 ^ N.of_nat (length buffer))%N
    /\ (length buffer = BUFFER_SIZE ->
        (collect_match_positions buffer 0 0 < 2 ^ 16)%N).
Proof.
  intros buffer i.
  rewrite collect_match_positions_flags, N.shiftl_0_r, N.lor_0_l.
  split; [apply flags_of_testbit|]. split; [apply flags_of_bound|].
  intros Hlen. pose proof (flags_of_bound buffer) as Hb.
  rewrite Hlen in Hb. exact Hb.
Qed.

Lemma match_positions_flag_nonzero_slots_witness :
  let buffer := [0; 3; 0; 0; 7; 0; 0; 0; 9; 0; 0; 0; 0; 0; 0; 16]%Z in
  (collect_match_positions buffer 0 0 < 2 ^ 16)%N.
Proof.
  intros buffer.
  apply (proj2 (proj2 (@match_positions_flag_nonzero_slots buffer 0))).
  reflexivity.
Defined.

(** X12: with offsets that are [ChunkOffset]s, the vectorized instantiation
    differs from the scalar loop in one way only: inside the blocks (all of
    the range but a remainder of one to [BUFFER_SIZE] positions) it leaves
    out the hits whose offset is [2^32 - 1].  It emits nothing the scalar
    loop does not emit. *)
Theorem vectorized_path_drops_only_wrapping_offsets :
  forall (chunk_id : Z) (LeftIsNullable : bool) (func : Z -> Z -> bool)
         (right_value : Z) (left : list SegmentPosition)
         (matches_out : PosList),
    offsets_in_range left ->
    let hit := scalar_hit LeftIsNullable func right_value in
    exists blocks remainder,
      left = blocks ++ remainder
      /\ length remainder <= BUFFER_SIZE
      /\ (left = [] \/ remainder <> [])
      /\ _unary_scan_with_value chunk_id LeftIsNullable func right_value true
                                left matches_out
         = matches_out
           ++ emit_range chunk_id
                (filter (fun p => hit p
                                  && negb (chunk_offset p
                                           =? ChunkOffset_modulus - 1)%Z)
                        blocks)
           ++ emit_range chunk_id (filter hit remainder)
      /\ _unary_scan_with_value chunk_id LeftIsNullable func right_value false
                                left matches_out
         = matches_out
           ++ emit_range chunk_id (filter hit blocks)
           ++ emit_range chunk_id (filter hit remainder).
Proof.
  intros chunk_id LeftIsNullable func right_value left matches_out Hr hit.
  destruct (vectorized_blocks_decodes chunk_id LeftIsNullable func right_value
              left matches_out) as (l1 & l2 & El & Ev & Hlen & Hne).
  exists l1, l2. split; [exact El|]. split; [exact Hlen|].
  split; [exact Hne|]. split.
  - unfold _unary_scan_with_value. rewrite Ev, scalar_loop_filter.
    subst left. apply Forall_app_inv in Hr. destruct Hr as [Hr1 _].
    rewrite (decoded_in_range chunk_id LeftIsNullable func right_value Hr1).
    rewrite <- app_assoc. reflexivity.
  - rewrite _unary_scan_with_value_scalar. subst left.
    rewrite filter_app. unfold emit_range. rewrite map_app. reflexivity.
Qed.

Lemma vectorized_path_drops_only_wrapping_offsets_witness :
  let left := mkSegmentPosition 1 false 4294967295
              :: map (fun i => mkSegmentPosition 1 false (Z.of_nat i))
                     (seq 0 20) in
  exists blocks remainder,
    left = blocks ++ remainder
    /\ length remainder <= BUFFER_SIZE
    /\ _unary_scan_with_value 0 true Z.eqb 1 true left []
       = [] ++ emit_range 0
                 (filter (fun p => scalar_hit true Z.eqb 1 p
                                   && negb (chunk_offset p
                                            =? ChunkOffset_modulus - 1)%Z)
                         blocks)
            ++ emit_range 0 (filter (scalar_hit true Z.eqb 1) remainder).
Proof.
  intros left.
  destruct (@vectorized_path_drops_only_wrapping_offsets 0 true Z.eqb 1 left [])
    as (blocks & remainder & H1 & H2 & _ & H4 & _).
  - unfold offsets_in_range, ChunkOffset_modulus, left. simpl.
    repeat constructor; discriminate.
  - exists blocks, remainder. auto.
Defined.

(** * Expression functors *)

(** X13: [TernaryOr] is SQL's three-valued OR: read as truth values, its
    result is the OR of its arguments, whatever value a null argument
    carries and whether it is a [NullValue] or an [int32_t]; a NULL result
    comes with [result_value = false]. *)
Theorem ternary_or_is_sql_or :
  forall (a_value : ExpressionFunctors.Argument) (a_null : bool)
         (b_value : ExpressionFunctors.Argument) (b_null : bool),
    let r := ExpressionFunctors.TernaryOr a_value a_null b_value b_null in
    ExpressionFunctors.truth_of_result r
    = ExpressionFunctors.sql_or (ExpressionFunctors.truth a_value a_null)
                                (ExpressionFunctors.truth b_value b_null)
    /\ (if snd r then fst r = false else True)
    /\ r = ExpressionFunctors.TernaryOr b_value b_null a_value a_null.
Proof.
  intros [x|] [|] [y|] [|]; cbv zeta;
    unfold ExpressionFunctors.TernaryOr, ExpressionFunctors.truth,
      ExpressionFunctors.truth_of_result, ExpressionFunctors.to_bool;
    simpl;
    try destruct (x =? 0)%Z; try destruct (y =? 0)%Z; simpl; auto.
Qed.

(** X14: [TernaryAnd] is SQL's three-valued AND, in the same sense: FALSE
    AND NULL is FALSE, TRUE AND NULL is NULL, and the value a null argument
    carries has no influence. *)
Theorem ternary_and_is_sql_and :
  forall (a_value : ExpressionFunctors.Argument) (a_null : bool)
         (b_value : ExpressionFunctors.Argument) (b_null : bool),
    let r := ExpressionFunctors.TernaryAnd a_value a_null b_value b_null in
    ExpressionFunctors.truth_of_result r
    = ExpressionFunctors.sql_and (ExpressionFunctors.truth a_value a_null)
                                 (ExpressionFunctors.truth b_value b_null)
    /\ (if snd r then fst r = false else True)
    /\ ExpressionFunctors.truth_of_result r
       = ExpressionFunctors.truth_of_result
           (ExpressionFunctors.TernaryAnd b_value b_null a_value a_null).
Proof.
  intros [x|] [|] [y|] [|]; cbv zeta;
    unfold ExpressionFunctors.TernaryAnd, ExpressionFunctors.truth,
      ExpressionFunctors.truth_of_result, ExpressionFunctors.to_bool;
    simpl;
    try destruct (x =? 0)%Z; try destruct (y =? 0)%Z; simpl; auto.
Qed.

(** X15: the six comparison functors on integers: each yields 0 or 1,
    [NotEquals] is the complement of [Equals], [LessThanEquals] of
    [GreaterThan] and [GreaterThanEquals] of [LessThan], swapping the
    arguments turns [GreaterThan] into [LessThan], and exactly one of
    [LessThan], [Equals], [GreaterThan] yields 1.  With a [NullValue]
    argument all six yield 0, so there [NotEquals] is not the complement
    of [Equals]. *)
Theorem comparison_functors_are_consistent :
  forall (x y : Z) (c : ExpressionFunctors.Argument),
    let a := ExpressionFunctors.Int32 x in
    let b := ExpressionFunctors.Int32 y in
    (ExpressionFunctors.NotEquals a b = 1 - ExpressionFunctors.Equals a b
     /\ ExpressionFunctors.LessThanEquals a b
        = 1 - ExpressionFunctors.GreaterThan a b
     /\ ExpressionFunctors.GreaterThanEquals a b
        = 1 - ExpressionFunctors.LessThan a b
     /\ ExpressionFunctors.GreaterThan a b = ExpressionFunctors.LessThan b a
     /\ ExpressionFunctors.LessThan a b + ExpressionFunctors.Equals a b
        + ExpressionFunctors.GreaterThan a b = 1
     /\ (ExpressionFunctors.Equals a b = 1 <-> x = y)
     /\ (ExpressionFunctors.LessThan a b = 1 <-> x < y))%Z
    /\ Forall (fun F => F c ExpressionFunctors.NullValue = 0%Z
                        /\ F ExpressionFunctors.NullValue c = 0%Z)
              [ExpressionFunctors.Equals; ExpressionFunctors.NotEquals;
               ExpressionFunctors.GreaterThan;
               ExpressionFunctors.GreaterThanEquals;
               ExpressionFunctors.LessThan;
               ExpressionFunctors.LessThanEquals]
    /\ Forall (fun F => forall a' b', F a' b' = 0%Z \/ F a' b' = 1%Z)
              [ExpressionFunctors.Equals; ExpressionFunctors.NotEquals;
               ExpressionFunctors.GreaterThan;
               ExpressionFunctors.GreaterThanEquals;
               ExpressionFunctors.LessThan;
               ExpressionFunctors.LessThanEquals].
Proof.
  intros x y c a b. split; [|split].
  - unfold a, b, ExpressionFunctors.NotEquals, ExpressionFunctors.Equals,
      ExpressionFunctors.LessThanEquals, ExpressionFunctors.GreaterThan,
      ExpressionFunctors.GreaterThanEquals, ExpressionFunctors.LessThan,
      ExpressionFunctors.STLComparisonFunctorWrapper.
    rewrite !Z.gtb_ltb, !Z.geb_leb.
    destruct (Z.eqb_spec x y), (Z.ltb_spec x y), (Z.ltb_spec y x),
      (Z.leb_spec x y), (Z.leb_spec y x); simpl;
      repeat split; intros; try reflexivity; try discriminate; lia.
  - repeat constructor; destruct c; reflexivity.
  - repeat (apply Forall_cons;
            [intros [u|] [w|];
             cbv [ExpressionFunctors.NotEquals ExpressionFunctors.Equals
                  ExpressionFunctors.LessThanEquals
                  ExpressionFunctors.GreaterThan
                  ExpressionFunctors.GreaterThanEquals
                  ExpressionFunctors.LessThan
                  ExpressionFunctors.STLComparisonFunctorWrapper];
             auto;
             match goal with
             | |- context [if ?cond then _ else _] => destruct cond
             end; auto|]).
    apply Forall_nil.
Qed.

Lemma is_int32_t_spec z :
  ExpressionFunctors.is_int32_t z = true <-> (- 2 ^ 31 <= z < 2 ^ 31)%Z.
Proof.
  unfold ExpressionFunctors.is_int32_t, ExpressionFunctors.INT32_MIN,
    ExpressionFunctors.INT32_MAX.
  rewrite andb_true_iff, Z.leb_le, Z.leb_le. lia.
Qed.

(** The one quotient of two [int32_t]s that is no [int32_t]. *)
Lemma int32_t_quot_overflow a b :
  ExpressionFunctors.is_int32_t a = true ->
  ExpressionFunctors.is_int32_t b = true ->
  b <> 0%Z ->
  (ExpressionFunctors.is_int32_t (a ÷ b) = false
   <-> a = ExpressionFunctors.INT32_MIN /\ b = (-1)%Z).
Proof.
  intros Ha Hb Hb0. apply is_int32_t_spec in Ha, Hb.
  unfold ExpressionFunctors.INT32_MIN.
  change (2 ^ 31)%Z with 2147483648%Z in *.
  split.
  - intros H.
    assert (Hout : ~ (-2147483648 <= a ÷ b < 2147483648)%Z).
    { intros Hin. apply is_int32_t_spec in Hin. congruence. }
    assert (Hq : (Z.abs (a ÷ b) <= Z.abs a)%Z).
    { rewrite <- Z.quot_abs by exact Hb0.
      apply Z.quot_le_upper_bound; [lia|]. nia. }
    assert (Ea : a = (-2147483648)%Z) by lia.
    split; [exact Ea|].
    assert (H2 : (Z.abs b * Z.abs (a ÷ b) <= Z.abs a)%Z).
    { rewrite <- Z.quot_abs by exact Hb0. apply Z.mul_quot_le; lia. }
    assert (Hsign : (0 <= a ÷ b)%Z) by lia.
    assert (Hneg : (b < 0)%Z).
    { destruct (Z.lt_ge_cases b 0) as [|Hpos]; [assumption|].
      assert (a ÷ b <= 0)%Z by (apply Z.quot_le_upper_bound; lia).
      lia. }
    nia.
  - intros [-> ->]. reflexivity.
Qed.

(** X16: [Division] and [Modulo] on [int32_t] arguments.  Neither divides
    by zero: a zero divisor gives NULL and leaves [result_value] as it was.
    The one undefined computation is [INT32_MIN] by [-1]: [Division]
    reaches it whenever these are the values, also when an argument is
    null, because it has no early return; [Modulo] only when no argument is
    null.  In every other case the result is NULL exactly when an argument
    is null or the divisor is zero, [Modulo] leaves [result_value]
    untouched when its result is NULL, and quotient and remainder are
    [int32_t]s with [a = b * q + r], [|r| < |b|] and [r] of the sign of
    [a]. *)
Theorem division_and_modulo_null_logic :
  forall (result_value a b : Z) (a_null b_null : bool),
    ExpressionFunctors.is_int32_t a = true ->
    ExpressionFunctors.is_int32_t b = true ->
    let division :=
      ExpressionFunctors.Division result_value (ExpressionFunctors.Int32 a)
        a_null (ExpressionFunctors.Int32 b) b_null in
    let modulo :=
      ExpressionFunctors.Modulo result_value (ExpressionFunctors.Int32 a)
        a_null (ExpressionFunctors.Int32 b) b_null in
    let overflow := a = ExpressionFunctors.INT32_MIN /\ b = (-1)%Z in
    (division = None <-> overflow)
    /\ (modulo = None <-> overflow /\ a_null = false /\ b_null = false)
    /\ (forall q null,
          division = Some (q, null) ->
          null = a_null || b_null || (b =? 0)%Z
          /\ (if (b =? 0)%Z then q = result_value
              else q = (a ÷ b)%Z /\ ExpressionFunctors.is_int32_t q = true))
    /\ (forall r null,
          modulo = Some (r, null) ->
          null = a_null || b_null || (b =? 0)%Z
          /\ (if null then r = result_value
              else (r = Z.rem a b
                    /\ a = b * (a ÷ b) + r
                    /\ Z.abs r < Z.abs b
                    /\ 0 <= r * a)%Z
                   /\ ExpressionFunctors.is_int32_t r = true)).
Proof.
  intros result_value a b a_null b_null Ha Hb division modulo overflow.
  unfold division, modulo, overflow, ExpressionFunctors.Division,
    ExpressionFunctors.Modulo, ExpressionFunctors.int32_t_quot,
    ExpressionFunctors.int32_t_rem.
  clear division modulo overflow.
  destruct (Z.eqb_spec b 0) as [E|Hb0].
  - assert (Hno : ~ (a = ExpressionFunctors.INT32_MIN /\ b = (-1)%Z)) by lia.
    split; [split; [discriminate|tauto]|].
    split; [split; [destruct (a_null || b_null); discriminate|tauto]|].
    split.
    + intros q null H. injection H as <- <-.
      split; [|reflexivity]. rewrite orb_true_r. reflexivity.
    + intros r null H.
      destruct (a_null || b_null); injection H as <- <-; auto.
  - pose proof (@int32_t_quot_overflow a b Ha Hb Hb0) as Hov.
    pose proof (Z.quot_rem' a b) as Hqr.
    pose proof (Z.rem_bound_abs a b Hb0) as Hr.
    pose proof (Z.rem_sign_mul a b Hb0) as Hs.
    assert (Hrem : ExpressionFunctors.is_int32_t (Z.rem a b) = true).
    { apply is_int32_t_spec. apply is_int32_t_spec in Ha, Hb.
      assert (Hm : (Z.abs (Z.rem a b) <= Z.abs a)%Z).
      { rewrite <- Z.rem_abs by exact Hb0. apply Z.rem_le; lia. }
      change (2 ^ 31)%Z with 2147483648%Z in *. lia. }
    rewrite orb_false_r.
    destruct (ExpressionFunctors.is_int32_t (a ÷ b)) eqn:Eq.
    + assert (Hno : ~ (a = ExpressionFunctors.INT32_MIN /\ b = (-1)%Z)).
      { intros H. apply Hov in H. discriminate. }
      split; [split; [discriminate|tauto]|].
      split; [split; [destruct (a_null || b_null); discriminate|tauto]|].
      split.
      * intros q null H. injection H as <- <-. auto.
      * intros r null H.
        destruct (a_null || b_null); injection H as <- <-; auto.
        split; [reflexivity|]. split; [|exact Hrem]. auto.
    + assert (Hyes : a = ExpressionFunctors.INT32_MIN /\ b = (-1)%Z)
        by (apply Hov; reflexivity).
      split; [tauto|].
      split.
      * destruct a_null, b_null; simpl; split; try discriminate; try tauto;
          intros (_ & H1 & H2); discriminate.
      * split; [intros q null H; discriminate|].
        intros r null H.
        destruct (a_null || b_null); [|discriminate].
        injection H as <- <-. auto.
Qed.

Lemma division_and_modulo_null_logic_witness :
  ExpressionFunctors.Division 0 (ExpressionFunctors.Int32 (-7)) false
                              (ExpressionFunctors.Int32 2) false
  = Some ((-3)%Z, false)
  /\ (ExpressionFunctors.Division 0
        (ExpressionFunctors.Int32 ExpressionFunctors.INT32_MIN) true
        (ExpressionFunctors.Int32 (-1)) false
      = None).
Proof.
  split; [reflexivity|].
  apply (proj1 (@division_and_modulo_null_logic
                  0 ExpressionFunctors.INT32_MIN (-1) true false
                  eq_refl eq_refl)).
  split; reflexivity.
Defined.

(** * Expression results *)

Lemma clamped_index_nonempty idx n :
  0 < n ->
  (N.of_nat n < ExpressionResult.size_t_modulus)%N ->
  N.to_nat (ExpressionResult.clamped_index idx n)
  = Nat.min (N.to_nat idx) (n - 1).
Proof.
  intros Hn Hlt. unfold ExpressionResult.clamped_index.
  replace (N.of_nat n + ExpressionResult.size_t_modulus - 1)%N
    with (N.of_nat (n - 1) + 1 * ExpressionResult.size_t_modulus)%N by lia.
  rewrite N.Div0.mod_add, N.mod_small by lia.
  rewrite N2Nat.inj_min, Nat2N.id. reflexivity.
Qed.

Lemma valid_access_spec (T : Type) (r : ExpressionResult.ExpressionResult T)
      (idx : N) :
  ExpressionResult.valid_access r idx = true
  <-> ExpressionResult.size r = 1 \/ N.to_nat idx < ExpressionResult.size r.
Proof.
  unfold ExpressionResult.valid_access.
  rewrite orb_true_iff, Nat.eqb_eq, N.ltb_lt. lia.
Qed.

(** When an accessor fails: in a debug build, outside the asserted range. *)
Lemma DebugAssert_fails (A : Type) IS_DEBUG expr msg (a : A) :
  ExpressionResult.DebugAssert IS_DEBUG expr msg (Ok a) = Failed msg
  <-> IS_DEBUG = true /\ expr = false.
Proof.
  unfold ExpressionResult.DebugAssert.
  destruct IS_DEBUG, expr; simpl; split; try discriminate; try tauto;
    intros [? ?]; discriminate.
Qed.

Lemma DebugAssert_passes (A : Type) IS_DEBUG expr msg (a : A) :
  IS_DEBUG = false \/ expr = true ->
  ExpressionResult.DebugAssert IS_DEBUG expr msg (Ok a) = Ok a.
Proof.
  unfold ExpressionResult.DebugAssert.
  intros [-> | ->]; [reflexivity|]. rewrite andb_false_r. reflexivity.
Qed.

(** X17: [value(idx)].  In a debug build the call fails exactly when the
    result has a size other than one and [idx] is not below that size.
    Otherwise, and always in a release build, it never reads outside a
    non-empty vector: an index beyond the end is clamped to the last
    element, a result of size one answers every index with its single
    value (a literal is broadcast), and an index below the size reads that
    element. *)
Theorem value_is_clamped_into_bounds :
  forall (T : Type) (IS_DEBUG : bool)
         (r : ExpressionResult.ExpressionResult T) (idx : N),
    (N.of_nat (ExpressionResult.size r) < ExpressionResult.size_t_modulus)%N ->
    (ExpressionResult.value IS_DEBUG r idx
     = Failed ExpressionResult.Invalid_ExpressionResult_access
     <-> IS_DEBUG = true /\ ExpressionResult.size r <> 1
         /\ ExpressionResult.size r <= N.to_nat idx)
    /\ (IS_DEBUG = false \/ ExpressionResult.size r = 1
        \/ N.to_nat idx < ExpressionResult.size r ->
        exists o,
          ExpressionResult.value IS_DEBUG r idx = Ok o
          /\ (o = None <-> ExpressionResult.values r = [])
          /\ (forall v, ExpressionResult.values r = [v] -> o = Some v)
          /\ (N.to_nat idx < ExpressionResult.size r ->
              o = nth_error (ExpressionResult.values r) (N.to_nat idx))
          /\ (ExpressionResult.size r - 1 <= N.to_nat idx ->
              o = nth_error (ExpressionResult.values r)
                            (ExpressionResult.size r - 1))).
Proof.
  intros T IS_DEBUG r idx Hlt. unfold ExpressionResult.value. split.
  - rewrite DebugAssert_fails, <- not_true_iff_false, valid_access_spec.
    intuition lia.
  - intros Hok. eexists. split.
    { apply DebugAssert_passes. rewrite valid_access_spec. tauto. }
    clear Hok. unfold ExpressionResult.size in *.
    destruct (ExpressionResult.values r) as [|v vs] eqn:Ev.
    + rewrite !nth_error_nil. split; [tauto|]. split; [discriminate|].
      split; [simpl; lia|]. reflexivity.
    + rewrite clamped_index_nonempty by (simpl; lia || exact Hlt).
      split; [|split; [|split]].
      * split; [|discriminate]. intros H. apply nth_error_None in H.
        simpl in H. lia.
      * intros w E. injection E as -> ->. simpl. rewrite Nat.min_0_r.
        reflexivity.
      * intros Hi. f_equal. simpl in *. lia.
      * intros Hi. f_equal. simpl in *. lia.
Qed.

Lemma value_is_clamped_into_bounds_witness :
  ExpressionResult.value true
    (ExpressionResult.mkExpressionResult [4; 5; 6] []) 3
  = Failed ExpressionResult.Invalid_ExpressionResult_access
  /\ exists o,
      ExpressionResult.value false
        (ExpressionResult.mkExpressionResult [4; 5; 6] []) 7
      = Ok o
      /\ o = nth_error [4; 5; 6] 2.
Proof.
  split.
  - apply (proj1 (@value_is_clamped_into_bounds nat true
                    (ExpressionResult.mkExpressionResult [4; 5; 6] []) 3%N
                    eq_refl)).
    split; [reflexivity|]. split; [discriminate|]. apply Nat.leb_le.
    reflexivity.
  - destruct (proj2 (@value_is_clamped_into_bounds nat false
                       (ExpressionResult.mkExpressionResult [4; 5; 6] [])
                       7%N eq_refl) (or_introl eq_refl))
      as (o & E & _ & _ & _ & H).
    exists o. split; [exact E|]. apply H. apply Nat.leb_le. reflexivity.
Defined.

(** X18: [is_null(idx)].  In a debug build the call fails exactly when the
    result has a size other than one and [idx] is not below that size.
    Otherwise, and always in a release build, it never reads outside the
    vector of nulls: it is [false] for every index when there are no nulls,
    the single flag for every index when there is one flag, the flag at
    [idx] when [idx] is below the number of flags, and the last flag
    beyond. *)
Theorem is_null_is_always_in_bounds :
  forall (T : Type) (IS_DEBUG : bool)
         (r : ExpressionResult.ExpressionResult T) (idx : N),
    (N.of_nat (length (ExpressionResult.nulls r))
     < ExpressionResult.size_t_modulus)%N ->
    (ExpressionResult.is_null IS_DEBUG r idx
     = Failed ExpressionResult.Null_idx_out_of_bounds
     <-> IS_DEBUG = true /\ ExpressionResult.size r <> 1
         /\ ExpressionResult.size r <= N.to_nat idx)
    /\ (IS_DEBUG = false \/ ExpressionResult.size r = 1
        \/ N.to_nat idx < ExpressionResult.size r ->
        exists b,
          ExpressionResult.is_null IS_DEBUG r idx = Ok (Some b)
          /\ (ExpressionResult.nulls r = [] -> b = false)
          /\ (forall n, ExpressionResult.nulls r = [n] -> b = n)
          /\ nth_error (ExpressionResult.nulls r)
                       (Nat.min (N.to_nat idx)
                                (length (ExpressionResult.nulls r) - 1))
             = (if ExpressionResult.is_nullable r then Some b else None)).
Proof.
  intros T IS_DEBUG r idx Hlt. unfold ExpressionResult.is_null. split.
  - rewrite DebugAssert_fails, <- not_true_iff_false, valid_access_spec.
    intuition lia.
  - intros Hok.
    rewrite DebugAssert_passes by (rewrite valid_access_spec; tauto).
    clear Hok. unfold ExpressionResult.is_nullable.
    destruct (ExpressionResult.nulls r) as [|n ns] eqn:En.
    + exists false. repeat split; try discriminate. destruct (Nat.min _ _);
        reflexivity.
    + rewrite clamped_index_nonempty by (simpl; lia || exact Hlt).
      destruct (nth_error (n :: ns)
                          (Nat.min (N.to_nat idx) (length (n :: ns) - 1)))
        as [b|] eqn:Eb.
      * exists b. repeat split; try discriminate.
        intros m E. injection E as -> ->.
        simpl in Eb. rewrite Nat.min_0_r in Eb. simpl in Eb. congruence.
      * apply nth_error_None in Eb. simpl in Eb. lia.
Qed.

Lemma is_null_is_always_in_bounds_witness :
  ExpressionResult.is_null true
    (ExpressionResult.mkExpressionResult [1; 2; 3; 4] [true]) 4
  = Failed ExpressionResult.Null_idx_out_of_bounds
  /\ exists b,
      ExpressionResult.is_null true
        (ExpressionResult.mkExpressionResult [1; 2; 3; 4] [true]) 3
      = Ok (Some b)
      /\ b = true.
Proof.
  split.
  - apply (proj1 (@is_null_is_always_in_bounds nat true
                    (ExpressionResult.mkExpressionResult [1; 2; 3; 4] [true])
                    4%N eq_refl)).
    split; [reflexivity|]. split; [discriminate|]. apply Nat.leb_le.
    reflexivity.
  - destruct (proj2 (@is_null_is_always_in_bounds nat true
                       (ExpressionResult.mkExpressionResult [1; 2; 3; 4]
                                                            [true])
                       3%N eq_refl))
      as (b & H1 & _ & H3 & _).
    + right. right. apply Nat.ltb_lt. reflexivity.
    + exists b. split; [exact H1|]. apply H3. reflexivity.
Defined.

(** X19: the view [as_view] resolves to agrees with the accessors wherever
    these do not fail (in a release build, for a result of size one, and
    for an index below the size), provided there are no nulls, one null
    flag, or as many as values.  A literal view carries the null flag
    [is_null] reports and, when it is not null, the value [value] reports;
    it is chosen exactly for results of size one and for results whose only
    null flag is set.  The series views are handed the vectors unchanged,
    the non-null one only when [is_null] is [false]. *)
Theorem as_view_agrees_with_accessors :
  forall (T : Type) (T_default : T) (IS_DEBUG : bool)
         (r : ExpressionResult.ExpressionResult T) (idx : N),
    length (ExpressionResult.nulls r) <= 1
    \/ length (ExpressionResult.nulls r) = ExpressionResult.size r ->
    (N.of_nat (ExpressionResult.size r) < ExpressionResult.size_t_modulus)%N ->
    IS_DEBUG = false \/ ExpressionResult.size r = 1
    \/ N.to_nat idx < ExpressionResult.size r ->
    match ExpressionResult.as_view T_default (fun v => v) r with
    | ExpressionResult.ExpressionResultLiteral v n =>
        ExpressionResult.is_null IS_DEBUG r idx = Ok (Some n)
        /\ (n = false -> ExpressionResult.value IS_DEBUG r idx = Ok (Some v))
        /\ (ExpressionResult.size r = 1 \/ ExpressionResult.nulls r = [true])
    | ExpressionResult.ExpressionResultNonNullSeries vs =>
        vs = ExpressionResult.values r
        /\ ExpressionResult.is_null IS_DEBUG r idx = Ok (Some false)
        /\ ExpressionResult.size r <> 1
    | ExpressionResult.ExpressionResultNullableSeries vs ns =>
        vs = ExpressionResult.values r /\ ns = ExpressionResult.nulls r
        /\ ExpressionResult.size r <> 1
        /\ ExpressionResult.nulls r <> []
        /\ ExpressionResult.nulls r <> [true]
    end.
Proof.
  intros T T_default IS_DEBUG [vs ns] idx Hinv Hlt Hok.
  unfold ExpressionResult.is_null, ExpressionResult.value.
  rewrite !DebugAssert_passes by (rewrite valid_access_spec; tauto).
  clear Hok.
  unfold ExpressionResult.as_view, ExpressionResult.size,
    ExpressionResult.is_nullable in *.
  simpl in *.
  destruct (Nat.eqb_spec (length vs) 1) as [E1|N1].
  - destruct vs as [|v [|? ?]]; try discriminate. simpl.
    rewrite (@clamped_index_nonempty idx 1) by (try exact Hlt; lia).
    rewrite Nat.min_0_r. simpl.
    destruct ns as [|n [|? ?]]; simpl in *; try lia.
    + repeat split; auto.
    + rewrite (@clamped_index_nonempty idx 1)
        by (try reflexivity; lia).
      rewrite Nat.min_0_r. simpl. repeat split; auto.
  - destruct ns as [|n ns]; simpl.
    + repeat split; auto.
    + destruct ns as [|m ns]; simpl.
      * destruct n; simpl.
        -- rewrite (@clamped_index_nonempty idx 1)
             by (try reflexivity; lia).
           rewrite Nat.min_0_r. simpl. repeat split; auto. discriminate.
        -- repeat split; auto; discriminate.
      * repeat split; auto; discriminate.
Qed.

Lemma as_view_agrees_with_accessors_witness :
  match ExpressionResult.as_view 0 (fun v => v)
          (ExpressionResult.mkExpressionResult [1; 2; 3; 4] [true]) with
  | ExpressionResult.ExpressionResultLiteral v n =>
      ExpressionResult.is_null true
        (ExpressionResult.mkExpressionResult [1; 2; 3; 4] [true]) 2
      = Ok (Some n)
  | _ => True
  end.
Proof.
  pose proof (@as_view_agrees_with_accessors nat 0 true
                (ExpressionResult.mkExpressionResult [1; 2; 3; 4] [true]) 2%N)
    as H.
  destruct (ExpressionResult.as_view 0 (fun v => v)
              (ExpressionResult.mkExpressionResult [1; 2; 3; 4] [true]));
    try exact I.
  apply H.
  - left. simpl. lia.
  - reflexivity.
  - right. right. apply Nat.ltb_lt. reflexivity.
Defined.

(** * The text logger *)

Section StringFacts.
Local Open Scope string_scope.

Lemma sapp_assoc (a b c : string) : (a ++ b) ++ c = a ++ (b ++ c).
Proof. induction a as [|x a IH]; simpl; [reflexivity|]. rewrite IH. reflexivity. Qed.

Lemma sapp_inv_head (a b c : string) : a ++ b = a ++ c -> b = c.
Proof.
  induction a as [|x a IH]; simpl; intros H; [exact H|].
  injection H as H. auto.
Qed.

Lemma sapp_same_length (a b r1 r2 : string) :
  String.length a = String.length b ->
  a ++ r1 = b ++ r2 -> a = b /\ r1 = r2.
Proof.
  revert b. induction a as [|x a IH]; intros [|y b] Hlen H;
    try discriminate; simpl in *; [auto|].
  injection H as -> H. injection Hlen as Hlen.
  destruct (IH b Hlen H) as [-> ->]. auto.
Qed.

(** A run of digits ends where the first other character stands. *)
Lemma digits_split (s1 s2 : string) c1 c2 r1 r2 :
  SimpleLogger.all_digits s1 = true ->
  SimpleLogger.all_digits s2 = true ->
  SimpleLogger.is_digit c1 = false ->
  SimpleLogger.is_digit c2 = false ->
  s1 ++ String c1 r1 = s2 ++ String c2 r2 ->
  s1 = s2 /\ c1 = c2 /\ r1 = r2.
Proof.
  revert s2. induction s1 as [|x s1 IH]; intros [|y s2] H1 H2 Hc1 Hc2 H;
    simpl in *.
  - injection H as -> ->. auto.
  - injection H as -> _. apply andb_prop in H2. destruct H2 as [Hy _].
    congruence.
  - injection H as -> _. apply andb_prop in H1. destruct H1 as [Hx _].
    congruence.
  - injection H as -> H. apply andb_prop in H1. apply andb_prop in H2.
    destruct (IH s2) as (-> & -> & ->); tauto.
Qed.

Lemma string_of_uint_all_digits d :
  SimpleLogger.all_digits (DecimalString.NilEmpty.string_of_uint d) = true.
Proof. induction d; simpl; auto. Qed.

Lemma decimal_all_digits n :
  SimpleLogger.all_digits (SimpleLogger.decimal n) = true.
Proof.
  unfold SimpleLogger.decimal, DecimalString.NilZero.string_of_uint.
  destruct (N.to_uint n); try reflexivity;
    apply (string_of_uint_all_digits (_ _)).
Qed.

Lemma decimal_inj n m :
  SimpleLogger.decimal n = SimpleLogger.decimal m -> n = m.
Proof.
  unfold SimpleLogger.decimal. intros H.
  apply DecimalN.Unsigned.to_uint_inj.
  assert (Hn : forall k, N.to_uint k <> Decimal.Nil).
  { intros [|p]; [discriminate|]. apply DecimalPos.Unsigned.to_uint_nonnil. }
  pose proof (DecimalString.NilZero.usu _ (Hn n)) as E1.
  pose proof (DecimalString.NilZero.usu _ (Hn m)) as E2.
  rewrite H in E1. congruence.
Qed.

(** A number followed by a character that is no digit. *)
Lemma decimal_split n m c r1 r2 :
  SimpleLogger.is_digit c = false ->
  SimpleLogger.decimal n ++ String c r1
  = SimpleLogger.decimal m ++ String c r2 ->
  n = m /\ r1 = r2.
Proof.
  intros Hc H.
  destruct (digits_split _ _ _ _ _ _ (decimal_all_digits n)
              (decimal_all_digits m) Hc Hc H) as (E & _ & ->).
  split; [apply decimal_inj; exact E|reflexivity].
Qed.

(** A text that follows its own length and a comma. *)
Lemma sized_text_split (t1 t2 r1 r2 : string) :
  SimpleLogger.decimal (SimpleLogger.size t1) ++ "," ++ t1 ++ r1
  = SimpleLogger.decimal (SimpleLogger.size t2) ++ "," ++ t2 ++ r2 ->
  t1 = t2 /\ r1 = r2.
Proof.
  intros H. apply decimal_split in H; [|reflexivity].
  destruct H as [Hsize H]. unfold SimpleLogger.size in Hsize.
  apply Nat2N.inj in Hsize. apply sapp_same_length; assumption.
Qed.
End StringFacts.

Section LoggerFacts.
Import Ascii.
Local Open Scope string_scope.
Variable AllTypeVariant : Type.
Variable print_value : AllTypeVariant -> string.
Variable print_RowID : RowID -> string.

Local Abbreviation further_values :=
  (SimpleLogger.further_values print_value).

Lemma further_values_split vs1 :
  forall vs2 r1 r2,
    further_values vs1 ++ String ")"%char r1
    = further_values vs2 ++ String ")"%char r2 ->
    map print_value vs1 = map print_value vs2 /\ r1 = r2.
Proof.
  induction vs1 as [|v1 vs1 IH]; intros [|v2 vs2] r1 r2 H;
    cbn [SimpleLogger.further_values] in H; rewrite ?sapp_assoc in H;
    cbn [append] in H; try discriminate.
  - injection H as H. auto.
  - injection H as H. apply sized_text_split in H. destruct H as [E H].
    destruct (IH _ _ _ H) as [Em ->]. simpl. rewrite E, Em. auto.
Qed.

(** The leading fields of an entry that names a transaction and a table. *)
Lemma transaction_and_table_split t1 t2 (n1 n2 r1 r2 : string) :
  SimpleLogger.decimal t1 ++ "," ++ SimpleLogger.decimal (SimpleLogger.size n1)
    ++ "," ++ n1 ++ r1
  = SimpleLogger.decimal t2 ++ "," ++ SimpleLogger.decimal (SimpleLogger.size n2)
      ++ "," ++ n2 ++ r2 ->
  t1 = t2 /\ n1 = n2 /\ r1 = r2.
Proof.
  intros H. apply decimal_split in H; [|reflexivity].
  destruct H as [-> H]. apply sized_text_split in H. tauto.
Qed.

Ltac flatten_in H :=
  repeat first [rewrite sapp_assoc in H | progress cbn [append] in H].

Ltac entry_equation H :=
  unfold SimpleLogger.commit_entry, SimpleLogger.load_table_entry,
    SimpleLogger.invalidate_entry, SimpleLogger.newline in H;
  flatten_in H; try discriminate; injection H as H.

Lemma commit_entry_split t1 t2 r1 r2 :
  SimpleLogger.commit_entry t1 ++ r1 = SimpleLogger.commit_entry t2 ++ r2 ->
  t1 = t2 /\ r1 = r2.
Proof.
  intros H. entry_equation H.
  apply decimal_split in H; [|reflexivity]. destruct H as [-> H].
  injection H as H. auto.
Qed.

Lemma load_table_entry_split p1 n1 p2 n2 r1 r2 :
  SimpleLogger.load_table_entry p1 n1 ++ r1
  = SimpleLogger.load_table_entry p2 n2 ++ r2 ->
  p1 = p2 /\ n1 = n2 /\ r1 = r2.
Proof.
  intros H. entry_equation H.
  apply sized_text_split in H. destruct H as [-> H]. injection H as H.
  apply sized_text_split in H. destruct H as [-> H]. injection H as H.
  auto.
Qed.

Lemma invalidate_entry_split t1 n1 rid1 t2 n2 rid2 r1 r2 :
  SimpleLogger.invalidate_entry print_RowID t1 n1 rid1 ++ r1
  = SimpleLogger.invalidate_entry print_RowID t2 n2 rid2 ++ r2 ->
  t1 = t2 /\ n1 = n2
  /\ print_RowID rid1 ++ ")" ++ SimpleLogger.newline ++ r1
     = print_RowID rid2 ++ ")" ++ SimpleLogger.newline ++ r2.
Proof.
  intros H. entry_equation H.
  apply transaction_and_table_split in H. destruct H as (-> & -> & H).
  injection H as H. auto.
Qed.

Lemma value_entry_split t1 n1 rid1 vs1 e1 t2 n2 rid2 vs2 e2 r1 r2 :
  SimpleLogger.value_entry print_value print_RowID t1 n1 rid1 vs1 = Some e1 ->
  SimpleLogger.value_entry print_value print_RowID t2 n2 rid2 vs2 = Some e2 ->
  e1 ++ r1 = e2 ++ r2 ->
  t1 = t2 /\ n1 = n2
  /\ exists tail1 tail2,
      print_RowID rid1 ++ tail1 = print_RowID rid2 ++ tail2
      /\ (tail1 = tail2 ->
          map print_value vs1 = map print_value vs2 /\ r1 = r2).
Proof.
  destruct vs1 as [|v1 vs1], vs2 as [|v2 vs2]; try discriminate.
  cbn [SimpleLogger.value_entry]. intros E1 E2 H.
  injection E1 as <-. injection E2 as <-.
  unfold SimpleLogger.newline in H. flatten_in H. injection H as H.
  apply transaction_and_table_split in H. destruct H as (-> & -> & H).
  injection H as H. split; [reflexivity|]. split; [reflexivity|].
  do 2 eexists. split; [exact H|]. intros Ht. injection Ht as Ht.
  apply sized_text_split in Ht. destruct Ht as [Ev Ht].
  apply further_values_split in Ht. destruct Ht as [Em Hr].
  injection Hr as Hr. simpl. rewrite Ev, Em. auto.
Qed.

Lemma entry_of_split c1 c2 e1 e2 r1 r2 :
  SimpleLogger.unambiguous_RowIDs print_RowID ->
  SimpleLogger.entry_of print_value print_RowID c1 = Some e1 ->
  SimpleLogger.entry_of print_value print_RowID c2 = Some e2 ->
  e1 ++ r1 = e2 ++ r2 ->
  SimpleLogger.same_call print_value c1 c2 /\ r1 = r2.
Proof.
  intros Hrid E1 E2 H.
  destruct c1 as [t1|t1 n1 rid1 vs1|t1 n1 rid1|p1 n1],
           c2 as [t2|t2 n2 rid2 vs2|t2 n2 rid2|p2 n2];
    cbn [SimpleLogger.entry_of] in E1, E2.
  all: try (destruct vs1 as [|v1 vs1]; [discriminate E1|]).
  all: try (destruct vs2 as [|v2 vs2]; [discriminate E2|]).
  all: try solve
         [ exfalso; cbn [SimpleLogger.value_entry] in E1, E2;
           injection E1 as <-; injection E2 as <-;
           unfold SimpleLogger.commit_entry, SimpleLogger.load_table_entry,
             SimpleLogger.invalidate_entry in H;
           cbn [append] in H; discriminate H ].
  - injection E1 as <-. injection E2 as <-.
    apply commit_entry_split in H. exact H.
  - destruct (value_entry_split _ _ _ _ _ _ _ _ _ _ E1 E2 H)
      as (-> & -> & tail1 & tail2 & Hp & Hrest).
    apply Hrid in Hp. destruct Hp as [-> Ht].
    destruct (Hrest Ht) as [Em ->]. simpl. auto.
  - injection E1 as <-. injection E2 as <-.
    apply invalidate_entry_split in H. destruct H as (-> & -> & H).
    apply Hrid in H. destruct H as [-> H].
    unfold SimpleLogger.newline in H. cbn [append] in H.
    injection H as H. simpl. auto.
  - injection E1 as <-. injection E2 as <-.
    apply load_table_entry_split in H. destruct H as (-> & -> & ->).
    simpl. auto.
Qed.

Lemma entry_of_starts c e :
  SimpleLogger.entry_of print_value print_RowID c = Some e ->
  exists x, e = String "(" x.
Proof.
  destruct c as [t|t n rid [|v vs]|t n rid|p n];
    cbn [SimpleLogger.entry_of SimpleLogger.value_entry]; intros E;
    try discriminate; injection E as <-; eexists; reflexivity.
Qed.

Lemma entries_determine_the_calls calls1 :
  SimpleLogger.unambiguous_RowIDs print_RowID ->
  forall calls2 s,
    SimpleLogger.entries print_value print_RowID calls1 = Some s ->
    SimpleLogger.entries print_value print_RowID calls2 = Some s ->
    Forall2 (SimpleLogger.same_call print_value) calls1 calls2.
Proof.
  intros Hrid.
  induction calls1 as [|c1 calls1 IH]; intros [|c2 calls2] s E1 E2;
    cbn [SimpleLogger.entries] in E1, E2.
  - constructor.
  - exfalso. injection E1 as <-.
    destruct (SimpleLogger.entry_of print_value print_RowID c2) as [e|] eqn:Ee;
      [|discriminate].
    destruct (SimpleLogger.entries print_value print_RowID calls2);
      [|discriminate].
    destruct (entry_of_starts _ Ee) as [x ->]. discriminate.
  - exfalso. injection E2 as <-.
    destruct (SimpleLogger.entry_of print_value print_RowID c1) as [e|] eqn:Ee;
      [|discriminate].
    destruct (SimpleLogger.entries print_value print_RowID calls1);
      [|discriminate].
    destruct (entry_of_starts _ Ee) as [x ->]. discriminate.
  - destruct (SimpleLogger.entry_of print_value print_RowID c1) as [e1|]
      eqn:Ee1; [|discriminate].
    destruct (SimpleLogger.entries print_value print_RowID calls1) as [s1|]
      eqn:Es1; [|discriminate].
    destruct (SimpleLogger.entry_of print_value print_RowID c2) as [e2|]
      eqn:Ee2; [|discriminate].
    destruct (SimpleLogger.entries print_value print_RowID calls2) as [s2|]
      eqn:Es2; [|discriminate].
    injection E1 as <-. injection E2 as E2.
    destruct (entry_of_split _ _ _ _ Hrid Ee1 Ee2 (eq_sym E2)) as [Hc ->].
    constructor; [exact Hc|]. eapply IH; eauto.
Qed.

Lemma call_appends logger c logger' :
  SimpleLogger.call print_value print_RowID logger c = Some logger' ->
  exists e,
    SimpleLogger.entry_of print_value print_RowID c = Some e
    /\ SimpleLogger.logfile logger' = SimpleLogger.logfile logger ++ e.
Proof.
  destruct c as [t|t n rid vs|t n rid|p n];
    cbn [SimpleLogger.call SimpleLogger.entry_of]; intros E.
  - injection E as <-. eexists. split; reflexivity.
  - unfold SimpleLogger.log_value in E.
    destruct (SimpleLogger.value_entry print_value print_RowID t n rid vs)
      as [e|]; [|discriminate].
    injection E as <-. eexists. split; reflexivity.
  - injection E as <-. eexists. split; reflexivity.
  - injection E as <-. eexists. split; reflexivity.
Qed.

Lemma run_appends calls :
  forall logger logger',
    SimpleLogger.run print_value print_RowID logger calls = Some logger' ->
    exists s,
      SimpleLogger.entries print_value print_RowID calls = Some s
      /\ SimpleLogger.logfile logger' = SimpleLogger.logfile logger ++ s.
Proof.
  induction calls as [|c calls IH]; intros logger logger' E;
    cbn [SimpleLogger.run SimpleLogger.entries] in *.
  - injection E as <-. exists "". split; [reflexivity|].
    clear. induction (SimpleLogger.logfile logger) as [|x l IHl];
      simpl; congruence.
  - destruct (SimpleLogger.call print_value print_RowID logger c) as [l1|]
      eqn:Ec; [|discriminate].
    destruct (call_appends _ _ Ec) as (e & Ee & El).
    destruct (IH _ _ E) as (s & Es & Els).
    exists (e ++ s). rewrite Ee, Es. split; [reflexivity|].
    rewrite Els, El. apply sapp_assoc.
Qed.
End LoggerFacts.

Section LoggerRuns.
Local Open Scope string_scope.

Lemma fold_Z_inj z1 z2 :
  SimpleLogger.fold_Z z1 = SimpleLogger.fold_Z z2 -> z1 = z2.
Proof.
  unfold SimpleLogger.fold_Z. intros H.
  destruct (Z.ltb_spec z1 0), (Z.ltb_spec z2 0);
    apply Z2N.inj in H; lia.
Qed.

Lemma example_print_RowID_unambiguous :
  SimpleLogger.unambiguous_RowIDs SimpleLogger.example_print_RowID.
Proof.
  intros [c1 o1] [c2 o2] tail1 tail2 H.
  unfold SimpleLogger.example_print_RowID in H.
  cbn [rid_chunk_id rid_chunk_offset] in H.
  repeat first [rewrite sapp_assoc in H | progress cbn [append] in H].
  injection H as H.
  apply decimal_split in H; [|reflexivity]. destruct H as [Ec H].
  apply decimal_split in H; [|reflexivity]. destruct H as [Eo H].
  apply fold_Z_inj in Ec. apply fold_Z_inj in Eo. subst. auto.
Qed.

Lemma slength_app (a b : string) :
  String.length (a ++ b) = String.length a + String.length b.
Proof. induction a as [|x a IH]; simpl; [reflexivity|]. rewrite IH. reflexivity. Qed.

Lemma call_flushed (AllTypeVariant : Type)
      (print_value : AllTypeVariant -> string)
      (print_RowID : RowID -> string) logger c logger' :
  SimpleLogger.call print_value print_RowID logger c = Some logger' ->
  SimpleLogger.flushed logger' =
    if SimpleLogger.flushes c
    then String.length (SimpleLogger.logfile logger')
    else SimpleLogger.flushed logger.
Proof.
  destruct c as [t|t n rid vs|t n rid|p n];
    cbn [SimpleLogger.call SimpleLogger.flushes]; intros E.
  - injection E as <-. reflexivity.
  - unfold SimpleLogger.log_value in E.
    destruct (SimpleLogger.value_entry print_value print_RowID t n rid vs);
      [|discriminate].
    injection E as <-. reflexivity.
  - injection E as <-. reflexivity.
  - injection E as <-. reflexivity.
Qed.
End LoggerRuns.

(** X20: the log file tells which calls wrote it.  Two runs of calls that
    start from the same log and leave the same log file made the same
    calls in the same order, with the same transaction ids, names, paths
    and row ids and with values that print alike, whatever characters the
    names and the printed values hold; row ids have to print so that none
    can be read as the start of another. *)
Theorem log_file_determines_the_calls (AllTypeVariant : Type)
        (print_value : AllTypeVariant -> string)
        (print_RowID : RowID -> string)
        logger calls1 calls2 logger1 logger2 :
  SimpleLogger.unambiguous_RowIDs print_RowID ->
  SimpleLogger.run print_value print_RowID logger calls1 = Some logger1 ->
  SimpleLogger.run print_value print_RowID logger calls2 = Some logger2 ->
  SimpleLogger.logfile logger1 = SimpleLogger.logfile logger2 ->
  Forall2 (SimpleLogger.same_call print_value) calls1 calls2.
Proof.
  intros Hrid R1 R2 E.
  destruct (run_appends _ _ _ _ R1) as (s1 & Es1 & L1).
  destruct (run_appends _ _ _ _ R2) as (s2 & Es2 & L2).
  rewrite L1, L2 in E. apply sapp_inv_head in E. subst s2.
  eapply entries_determine_the_calls; eauto.
Qed.

Lemma log_file_determines_the_calls_witness :
  let logger := SimpleLogger.mkLogger "(t,1)"%string 0 in
  let calls :=
    [@SimpleLogger.Value N 7%N "a,(b)"%string (mkRowID 0 3) [12%N; 5%N];
     @SimpleLogger.Invalidate N 7%N "a,(b)"%string (mkRowID 0 (-2));
     @SimpleLogger.LoadTable N "x)y"%string "t"%string;
     @SimpleLogger.Commit N 7%N] in
  Forall2 (SimpleLogger.same_call SimpleLogger.decimal) calls calls.
Proof.
  intros logger calls.
  refine (@log_file_determines_the_calls N SimpleLogger.decimal
            SimpleLogger.example_print_RowID logger calls calls
            _ _ example_print_RowID_unambiguous _ _ _).
  - vm_compute. reflexivity.
  - vm_compute. reflexivity.
  - reflexivity.
Defined.

(** X21: what a run of calls leaves flushed.  The flushed part of the log
    never shrinks and never passes the end of the file, and after a run
    whose last call is [log_commit] or [log_load_table] the whole file is
    flushed, the entries of earlier [log_value] and [log_invalidate] calls
    with it. *)
Theorem flushed_part_after_a_run (AllTypeVariant : Type)
        (print_value : AllTypeVariant -> string)
        (print_RowID : RowID -> string) calls :
  forall logger logger',
    SimpleLogger.flushed logger <= String.length (SimpleLogger.logfile logger) ->
    SimpleLogger.run print_value print_RowID logger calls = Some logger' ->
    SimpleLogger.flushed logger <= SimpleLogger.flushed logger'
    /\ SimpleLogger.flushed logger'
       <= String.length (SimpleLogger.logfile logger')
    /\ (forall earlier c,
          calls = earlier ++ [c] -> SimpleLogger.flushes c = true ->
          SimpleLogger.flushed logger'
          = String.length (SimpleLogger.logfile logger')).
Proof.
  induction calls as [|c calls IH]; intros logger logger' Hinv R;
    cbn [SimpleLogger.run] in R.
  - injection R as <-. split; [lia|]. split; [exact Hinv|].
    intros [|x earlier] c E; discriminate.
  - destruct (SimpleLogger.call print_value print_RowID logger c) as [l1|]
      eqn:Ec; [|discriminate].
    pose proof (call_flushed _ _ _ _ Ec) as Hf.
    destruct (call_appends _ _ _ _ Ec) as (e & _ & Hl).
    assert (Hlen : String.length (SimpleLogger.logfile l1)
                   = String.length (SimpleLogger.logfile logger)
                     + String.length e).
    { rewrite Hl. apply slength_app. }
    assert (H1 : SimpleLogger.flushed logger <= SimpleLogger.flushed l1
                 /\ SimpleLogger.flushed l1
                    <= String.length (SimpleLogger.logfile l1)).
    { destruct (SimpleLogger.flushes c); lia. }
    destruct (IH _ _ (proj2 H1) R) as (Hmono & Hbound & Hlast).
    split; [lia|]. split; [exact Hbound|].
    intros [|x earlier] c' E Hc'.
    + injection E as Ec' Ecalls. subst c' calls.
      cbn [SimpleLogger.run] in R.
      injection R as <-. rewrite Hc' in Hf. exact Hf.
    + injection E as _ E. eapply Hlast; eauto.
Qed.

Lemma flushed_part_after_a_run_witness :
  let logger := SimpleLogger.mkLogger "(t,1)"%string 2 in
  let calls :=
    [@SimpleLogger.Value N 7%N "a"%string (mkRowID 0 3) [12%N];
     @SimpleLogger.Invalidate N 7%N "a"%string (mkRowID 0 2);
     @SimpleLogger.Commit N 7%N] in
  exists logger',
    SimpleLogger.run SimpleLogger.decimal SimpleLogger.example_print_RowID
      logger calls = Some logger'
    /\ SimpleLogger.flushed logger'
       = String.length (SimpleLogger.logfile logger').
Proof.
  intros logger calls. eexists. split; [vm_compute; reflexivity|].
  refine (proj2 (proj2 (@flushed_part_after_a_run N SimpleLogger.decimal
            SimpleLogger.example_print_RowID calls logger _ _ _))
            (firstn 2 calls) (@SimpleLogger.Commit N 7%N) _ _).
  - vm_compute. lia.
  - vm_compute. reflexivity.
  - reflexivity.
  - reflexivity.
Defined.

Section BenchmarkFacts.

Lemma firstn_seq_prefix k :
  forall start len, k <= len -> firstn k (seq start len) = seq start k.
Proof.
  induction k as [|k IH]; intros start [|len] H; try reflexivity; [lia|].
  simpl. f_equal. apply IH. lia.
Qed.

Lemma firstn_plus (A : Type) a b :
  forall l : list A, firstn (a + b) l = firstn a l ++ firstn b (skipn a l).
Proof.
  induction a as [|a IH]; intros [|x l]; simpl; try reflexivity.
  - rewrite firstn_nil. reflexivity.
  - f_equal. apply IH.
Qed.

Lemma iota_counts n :
  forall counter,
    (- 2 ^ 31 <= counter)%Z -> (counter + Z.of_nat n <= 2 ^ 31)%Z ->
    Benchmark.iota n counter
    = map (fun i => (counter + Z.of_nat i)%Z) (seq 0 n).
Proof.
  induction n as [|n IH]; intros counter Hlo Hhi; [reflexivity|].
  cbn [Benchmark.iota seq map]. f_equal; [lia|].
  rewrite <- seq_shift, map_map.
  destruct n as [|n]; [reflexivity|].
  assert (E : Benchmark.int32_t (counter + 1) = (counter + 1)%Z).
  { unfold Benchmark.int32_t. rewrite Z.mod_small; lia. }
  rewrite E, IH by lia. apply map_ext. intros i. lia.
Qed.

Lemma rev_counts n :
  rev (map Z.of_nat (seq 0 n))
  = map (fun i => Z.of_nat (n - 1 - i)) (seq 0 n).
Proof.
  induction n as [|n IH]; [reflexivity|].
  rewrite seq_S at 1. rewrite map_app, rev_app_distr. cbn [map rev app seq].
  f_equal; [f_equal; lia|].
  rewrite IH, <- seq_shift, map_map. apply map_ext. intros i. f_equal. lia.
Qed.

Lemma generate_values_int32_t_counts table_size order_by :
  (Z.of_nat table_size < 2 ^ 31)%Z ->
  Benchmark.generate_values_int32_t table_size order_by
  = if order_is_ascending order_by
    then map Z.of_nat (seq 0 table_size)
    else map (fun i => Z.of_nat (table_size - 1 - i)) (seq 0 table_size).
Proof.
  intros H. unfold Benchmark.generate_values_int32_t, order_is_ascending.
  rewrite iota_counts by lia.
  rewrite <- rev_counts.
  destruct (OrderByMode_eqb order_by Ascending
            || OrderByMode_eqb order_by AscendingNullsLast);
    [|f_equal]; apply map_ext; intros i; lia.
Qed.

Lemma chunk_of_counts (f : nat -> Z) C i n :
  C * i + C <= n ->
  firstn C (skipn (C * i) (map f (seq 0 n))) = map f (seq (C * i) C).
Proof.
  intros H. rewrite skipn_map, firstn_map, skipn_seq. f_equal.
  apply firstn_seq_prefix. lia.
Qed.

Lemma length_generate_values_int32_t table_size order_by :
  length (Benchmark.generate_values_int32_t table_size order_by) = table_size.
Proof.
  assert (H : forall n c, length (Benchmark.iota n c) = n).
  { induction n as [|n IH]; intros c; simpl; [reflexivity|].
    rewrite IH. reflexivity. }
  unfold Benchmark.generate_values_int32_t.
  destruct (_ || _); rewrite ?length_rev; apply H.
Qed.

Lemma concat_chunks (A : Type) C (values : list A) q :
  concat (map (fun i => firstn C (skipn (C * i) values)) (seq 0 q))
  = firstn (C * q) values.
Proof.
  induction q as [|q IH]; [rewrite Nat.mul_0_r; reflexivity|].
  rewrite seq_S, map_app, concat_app, IH. cbn [map concat Nat.add].
  rewrite app_nil_r. replace (C * S q) with (C * q + C) by lia.
  symmetry. apply firstn_plus.
Qed.

Lemma sorted_per_positions_of_run order_by (f : nat -> Z) n :
  forall offset start,
    (forall i, start <= i -> S i < start + n ->
               if order_is_ascending order_by then (f i <= f (S i))%Z
               else (f (S i) <= f i)%Z) ->
    sorted_per order_by (Benchmark.positions_from offset (map f (seq start n)))
    = true.
Proof.
  induction n as [|n IH]; intros offset start H; [reflexivity|].
  destruct n as [|n]; [reflexivity|].
  change (position_before order_by
            (mkSegmentPosition (f start) false offset)
            (mkSegmentPosition (f (S start)) false (offset + 1))
          && sorted_per order_by
               (Benchmark.positions_from (offset + 1)
                                         (map f (seq (S start) (S n))))
          = true).
  rewrite IH by (intros i Hi1 Hi2; apply H; lia).
  rewrite andb_true_r. unfold position_before. cbn [is_null value].
  specialize (H start). 
  destruct (order_is_ascending order_by), (order_is_nulls_first order_by);
    cbn [negb orb andb]; apply Z.leb_le; apply H; lia.
Qed.

Lemma sorted_chunk_of_generated_values order_by C i table_size :
  (Z.of_nat table_size < 2 ^ 31)%Z ->
  C * i + C <= table_size ->
  sorted_per order_by
    (Benchmark.value_segment_positions
       (firstn C (skipn (C * i)
                        (Benchmark.generate_values_int32_t table_size
                                                           order_by))))
  = true.
Proof.
  intros Hsize Hi. rewrite generate_values_int32_t_counts by exact Hsize.
  unfold Benchmark.value_segment_positions.
  destruct (order_is_ascending order_by) eqn:Ea;
    rewrite chunk_of_counts by exact Hi;
    apply sorted_per_positions_of_run; intros j Hj1 Hj2; rewrite Ea; lia.
Qed.

Lemma create_table_chunks (A : Type) C (shuffle : list A -> list A)
      table_size value_generator order_by chunks :
  Benchmark.create_table C shuffle table_size value_generator order_by
  = Some chunks ->
  let values :=
    match order_by with
    | Some o => value_generator table_size o
    | None => shuffle (value_generator table_size Ascending)
    end in
  C <> 0
  /\ chunks
     = map (fun i => Benchmark.mkChunk
                       (firstn C (skipn (C * i) values))
                       (option_map (pair 0) order_by))
           (seq 0 (table_size / C)).
Proof.
  unfold Benchmark.create_table. intros H.
  destruct (Nat.eqb_spec C 0) as [|Hc]; [discriminate|].
  injection H as <-. split; [exact Hc|].
  destruct order_by as [o|]; [|reflexivity].
  rewrite map_map. reflexivity.
Qed.
End BenchmarkFacts.

(** X22: [generate_values<int32_t>] in closed form.  For a table size that
    an [int] can hold, the values are [0 .. table_size - 1] for the two
    ascending modes and [table_size - 1 .. 0] for the two descending ones:
    [table_size] values, none twice, no counter wrapping. *)
Theorem generate_values_counts_up_or_down (table_size : nat)
        (order_by : OrderByMode) :
  (Z.of_nat table_size < 2 ^ 31)%Z ->
  Benchmark.generate_values_int32_t table_size order_by
  = (if order_is_ascending order_by
     then map Z.of_nat (seq 0 table_size)
     else map (fun i => Z.of_nat (table_size - 1 - i)) (seq 0 table_size))
  /\ NoDup (Benchmark.generate_values_int32_t table_size order_by).
Proof.
  intros H. rewrite generate_values_int32_t_counts by exact H.
  split; [reflexivity|].
  destruct (order_is_ascending order_by).
  - apply Finite.Injective_map_NoDup; [|apply seq_NoDup].
    intros x y. apply Nat2Z.inj.
  - apply Finite.Injective_map_NoDup_in; [|apply seq_NoDup].
    intros x y Hx Hy E. apply in_seq in Hx, Hy. lia.
Qed.

Lemma generate_values_counts_up_or_down_witness :
  Benchmark.generate_values_int32_t 5 DescendingNullsLast
  = [4; 3; 2; 1; 0]%Z.
Proof.
  refine (eq_trans
            (proj1 (@generate_values_counts_up_or_down 5 DescendingNullsLast _))
            _).
  - reflexivity.
  - reflexivity.
Defined.

(** X23: [create_table] builds full chunks only.  There are
    [table_size / CHUNK_SIZE] chunks of [CHUNK_SIZE] values each, holding
    the first values in their order; the last [table_size mod CHUNK_SIZE]
    values are in no chunk.  Every chunk is marked as ordered exactly when
    an order was asked for. *)
Theorem create_table_keeps_full_chunks_only (A : Type) (CHUNK_SIZE : nat)
        (shuffle : list A -> list A) (table_size : nat)
        (value_generator : nat -> OrderByMode -> list A)
        (order_by : option OrderByMode) (chunks : list (Benchmark.Chunk A)) :
  (forall l, length (shuffle l) = length l) ->
  (forall o, length (value_generator table_size o) = table_size) ->
  Benchmark.create_table CHUNK_SIZE shuffle table_size value_generator order_by
  = Some chunks ->
  let values :=
    match order_by with
    | Some o => value_generator table_size o
    | None => shuffle (value_generator table_size Ascending)
    end in
  length chunks = table_size / CHUNK_SIZE
  /\ Forall (fun chunk =>
               length (Benchmark.segment chunk) = CHUNK_SIZE
               /\ Benchmark.ordered_by chunk = option_map (pair 0) order_by)
            chunks
  /\ concat (map (@Benchmark.segment _) chunks)
     = firstn (table_size - table_size mod CHUNK_SIZE) values.
Proof.
  intros Hshuffle Hgenerator H values.
  destruct (create_table_chunks _ _ _ _ _ H) as [Hc ->].
  fold values.
  assert (Hlen : length values = table_size).
  { unfold values. destruct order_by; rewrite ?Hshuffle; apply Hgenerator. }
  pose proof (Nat.div_mod_eq table_size CHUNK_SIZE) as Hdm.
  split; [|split].
  - rewrite length_map, length_seq. reflexivity.
  - apply Forall_forall. intros chunk Hin. apply in_map_iff in Hin.
    destruct Hin as (i & <- & Hi). apply in_seq in Hi.
    cbn [Benchmark.segment Benchmark.ordered_by]. split; [|reflexivity].
    rewrite length_firstn, length_skipn, Hlen.
    assert (CHUNK_SIZE * i + CHUNK_SIZE <= CHUNK_SIZE * (table_size / CHUNK_SIZE))
      by nia.
    lia.
  - rewrite map_map. cbn [Benchmark.segment].
    rewrite concat_chunks. f_equal. lia.
Qed.

Lemma create_table_keeps_full_chunks_only_witness :
  exists chunks,
    Benchmark.create_table 3 (@rev Z) 7 Benchmark.generate_values_int32_t None
    = Some chunks
    /\ concat (map (@Benchmark.segment _) chunks) = [6; 5; 4; 3; 2; 1]%Z.
Proof.
  eexists. split; [reflexivity|].
  refine (eq_trans
            (proj2 (proj2 (@create_table_keeps_full_chunks_only
                             Z 3 (@rev Z) 7 Benchmark.generate_values_int32_t
                             None _ _ _ _)))
            _).
  - intros l. apply length_rev.
  - intros o. apply length_generate_values_int32_t.
  - reflexivity.
  - reflexivity.
Defined.

(** X24: the order that [create_table] records is the order the chunks have.
    For a table size that an [int] can hold and a requested order, the
    positions of every chunk are sorted per that order, so a sorted search
    over the whole chunk with any of the six comparisons emits the row ids a
    plain scan of the chunk emits. *)
Theorem sorted_benchmark_chunks_are_sorted (CHUNK_SIZE : nat)
        (shuffle : list Z -> list Z) (table_size : nat)
        (order_by : OrderByMode) (chunks : list (Benchmark.Chunk Z)) :
  (Z.of_nat table_size < 2 ^ 31)%Z ->
  Benchmark.create_table CHUNK_SIZE shuffle table_size
                         Benchmark.generate_values_int32_t (Some order_by)
  = Some chunks ->
  Forall (fun chunk =>
            let positions :=
              Benchmark.value_segment_positions (Benchmark.segment chunk) in
            Benchmark.ordered_by chunk = Some (0, order_by)
            /\ sorted_per order_by positions = true
            /\ forall predicate_condition search_value chunk_id,
                is_comparison predicate_condition = true ->
                scan_sorted_segment positions (emit_range chunk_id)
                  (new_SortedSegmentSearch 0 (length positions) order_by
                                           predicate_condition search_value)
                = Ok (plain_scan chunk_id predicate_condition search_value
                                 positions))
         chunks.
Proof.
  intros Hsize H.
  destruct (create_table_chunks _ _ _ _ _ H) as [Hc ->].
  apply Forall_forall. intros chunk Hin. apply in_map_iff in Hin.
  destruct Hin as (i & <- & Hi). apply in_seq in Hi.
  cbn [Benchmark.segment Benchmark.ordered_by option_map].
  assert (Hs : sorted_per order_by
                 (Benchmark.value_segment_positions
                    (firstn CHUNK_SIZE
                       (skipn (CHUNK_SIZE * i)
                          (Benchmark.generate_values_int32_t table_size
                                                             order_by))))
               = true).
  { apply sorted_chunk_of_generated_values; [exact Hsize|].
    pose proof (Nat.div_mod_eq table_size CHUNK_SIZE).
    assert (CHUNK_SIZE * i + CHUNK_SIZE <= CHUNK_SIZE * (table_size / CHUNK_SIZE))
      by nia.
    lia. }
  split; [reflexivity|]. split; [exact Hs|].
  intros predicate_condition search_value chunk_id Hcmp.
  rewrite scan_sorted_segment_narrows;
    rewrite ?iterator_range_all; auto; [|lia].
  rewrite plain_scan_filter. reflexivity.
Qed.

Lemma sorted_benchmark_chunks_are_sorted_witness :
  scan_sorted_segment
    (Benchmark.value_segment_positions [5; 4; 3]%Z) (emit_range 1)
    (new_SortedSegmentSearch 0 3 Descending GreaterThan 3)
  = Ok [mkRowID 1 0; mkRowID 1 1].
Proof.
  pose proof (@sorted_benchmark_chunks_are_sorted
                3 (fun l => l) 9 Descending _ ltac:(reflexivity) eq_refl) as H.
  apply Forall_inv_tail in H. apply Forall_inv in H.
  exact (proj2 (proj2 H) GreaterThan 3%Z 1%Z eq_refl).
Defined.

Section DigitFacts.
Import Ascii.
Local Open Scope N_scope.

Lemma pow10_succ k : 10 ^ N.of_nat (S k) = 10 * 10 ^ N.of_nat k.
Proof. rewrite Nat2N.inj_succ, N.pow_succ_r'. reflexivity. Qed.

Lemma of_uint_acc_value d :
  forall acc,
    Npos (Pos.of_uint_acc d acc)
    = Npos acc
      * 10 ^ N.of_nat (String.length (DecimalString.NilEmpty.string_of_uint d))
      + Benchmark.digits_value (DecimalString.NilEmpty.string_of_uint d).
Proof.
  induction d as [|d IH|d IH|d IH|d IH|d IH|d IH|d IH|d IH|d IH|d IH];
    intros acc;
    cbn [Pos.of_uint_acc DecimalString.NilEmpty.string_of_uint String.length
         Benchmark.digits_value];
    [cbn; lia|..];
    rewrite IH, pow10_succ;
    set (p := 10 ^ N.of_nat _); set (v := Benchmark.digits_value _);
    clearbody p v;
    match goal with
    | |- context [N_of_ascii ?c - 48] =>
        let x := eval vm_compute in (N_of_ascii c - 48) in
        change (N_of_ascii c - 48) with x
    end; lia.
Qed.

Lemma of_uint_value d :
  N.of_uint d = Benchmark.digits_value (DecimalString.NilEmpty.string_of_uint d).
Proof.
  unfold N.of_uint.
  induction d as [|d IH|d IH|d IH|d IH|d IH|d IH|d IH|d IH|d IH|d IH];
    cbn [Pos.of_uint DecimalString.NilEmpty.string_of_uint Benchmark.digits_value];
    [reflexivity|rewrite IH; cbn; lia|..];
    rewrite of_uint_acc_value;
    match goal with
    | |- context [N_of_ascii ?c - 48] =>
        let x := eval vm_compute in (N_of_ascii c - 48) in
        change (N_of_ascii c - 48) with x
    end; reflexivity.
Qed.

Lemma to_string_as_uint n :
  Benchmark.to_string n = DecimalString.NilEmpty.string_of_uint (N.to_uint n)
  /\ N.to_uint n <> Decimal.Nil.
Proof.
  assert (H : N.to_uint n <> Decimal.Nil).
  { destruct n; [discriminate|]. apply DecimalPos.Unsigned.to_uint_nonnil. }
  split; [|exact H].
  unfold Benchmark.to_string, DecimalString.NilZero.string_of_uint.
  destruct (N.to_uint n); [contradiction|reflexivity..].
Qed.

Lemma digits_value_to_string n : Benchmark.digits_value (Benchmark.to_string n) = n.
Proof.
  rewrite (proj1 (to_string_as_uint n)), <- of_uint_value.
  apply DecimalN.Unsigned.of_to.
Qed.

Lemma digits_value_bound s :
  SimpleLogger.all_digits s = true -> Benchmark.digits_value s < 10 ^ N.of_nat (String.length s).
Proof.
  induction s as [|c s IH]; intros H; [cbn; lia|].
  cbn [SimpleLogger.all_digits] in H. apply andb_prop in H. destruct H as [Hc Hs].
  specialize (IH Hs). cbn [Benchmark.digits_value String.length].
  rewrite pow10_succ.
  unfold SimpleLogger.is_digit, nat_of_ascii in Hc. apply andb_prop in Hc.
  destruct Hc as [H1 H2]. apply Nat.leb_le in H1, H2.
  set (p := 10 ^ N.of_nat _) in *. set (v := Benchmark.digits_value _) in *.
  clearbody p v. nia.
Qed.

Lemma compare_digits s1 :
  forall s2,
    SimpleLogger.all_digits s1 = true -> SimpleLogger.all_digits s2 = true ->
    String.length s1 = String.length s2 ->
    String.compare s1 s2 = N.compare (Benchmark.digits_value s1) (Benchmark.digits_value s2).
Proof.
  induction s1 as [|c1 s1 IH]; intros [|c2 s2] H1 H2 Hlen;
    try discriminate; [reflexivity|].
  cbn [SimpleLogger.all_digits] in H1, H2.
  apply andb_prop in H1, H2. destruct H1 as [Hc1 Hs1], H2 as [Hc2 Hs2].
  injection Hlen as Hlen.
  pose proof (digits_value_bound _ Hs1) as B1.
  pose proof (digits_value_bound _ Hs2) as B2.
  cbn [String.compare Benchmark.digits_value]. rewrite (IH _ Hs1 Hs2 Hlen), <- Hlen.
  rewrite <- Hlen in B2.
  unfold Ascii.compare.
  unfold SimpleLogger.is_digit, nat_of_ascii in Hc1, Hc2.
  apply andb_prop in Hc1, Hc2.
  destruct Hc1 as [L1 U1], Hc2 as [L2 U2].
  apply Nat.leb_le in L1, U1, L2, U2.
  set (p := 10 ^ N.of_nat _) in *.
  set (v1 := Benchmark.digits_value s1) in *. set (v2 := Benchmark.digits_value s2) in *.
  set (a1 := N_of_ascii c1) in *. set (a2 := N_of_ascii c2) in *.
  clearbody p v1 v2 a1 a2.
  assert (E1 : exists d1, a1 = d1 + 48) by (exists (a1 - 48); lia).
  assert (E2 : exists d2, a2 = d2 + 48) by (exists (a2 - 48); lia).
  destruct E1 as [d1 ->], E2 as [d2 ->].
  replace (d1 + 48 - 48) with d1 by lia.
  replace (d2 + 48 - 48) with d2 by lia.
  destruct (N.compare_spec (d1 + 48) (d2 + 48)) as [E|L|G].
  - assert (d1 = d2) by lia. subst d2.
    destruct (N.compare_spec v1 v2) as [E'|L|G]; symmetry.
    + apply N.compare_eq_iff. lia.
    + apply N.compare_lt_iff. lia.
    + apply N.compare_gt_iff. lia.
  - symmetry. apply N.compare_lt_iff.
    assert ((d1 + 1) * p <= d2 * p) by (apply N.mul_le_mono_r; lia). lia.
  - symmetry. apply N.compare_gt_iff.
    assert ((d2 + 1) * p <= d1 * p) by (apply N.mul_le_mono_r; lia). lia.
Qed.

Lemma length_zeros k : String.length (Benchmark.zeros k) = k.
Proof. induction k as [|k IH]; simpl; congruence. Qed.

Lemma all_digits_zeros k s : SimpleLogger.all_digits (Benchmark.zeros k ++ s) = SimpleLogger.all_digits s.
Proof. induction k as [|k IH]; [reflexivity|]. simpl. exact IH. Qed.

Lemma digits_value_zeros k s : Benchmark.digits_value (Benchmark.zeros k ++ s) = Benchmark.digits_value s.
Proof.
  induction k as [|k IH]; [reflexivity|].
  cbn [Benchmark.zeros append Benchmark.digits_value]. rewrite IH.
  change (N_of_ascii "0" - 48) with 0. lia.
Qed.

Lemma to_string_all_digits n : SimpleLogger.all_digits (Benchmark.to_string n) = true.
Proof.
  rewrite (proj1 (to_string_as_uint n)). apply string_of_uint_all_digits.
Qed.

Lemma normal_uint_value d :
  Decimal.unorm d = d ->
  d = Decimal.zero
  \/ 10 ^ N.of_nat (String.length (DecimalString.NilEmpty.string_of_uint d) - 1)
     <= Benchmark.digits_value (DecimalString.NilEmpty.string_of_uint d).
Proof.
  intros H.
  destruct d as [|d|d|d|d|d|d|d|d|d|d]; [discriminate|..].
  1:{ left. rewrite DecimalFacts.unorm_D0 in H.
      unfold Decimal.unorm in H.
      destruct (Decimal.nzhead d) eqn:En;
        try (exfalso; revert En; rewrite H; apply DecimalFacts.nzhead_nonzero).
      exact (eq_sym H). }
  all: right;
    cbn [DecimalString.NilEmpty.string_of_uint String.length Benchmark.digits_value];
    rewrite Nat.sub_succ, Nat.sub_0_r;
    set (p := 10 ^ N.of_nat _); set (v := Benchmark.digits_value _); clearbody p v;
    match goal with
    | |- context [N_of_ascii ?c - 48] =>
        let x := eval vm_compute in (N_of_ascii c - 48) in
        change (N_of_ascii c - 48) with x
    end; lia.
Qed.

Lemma to_string_length n k :
  n < 10 ^ N.of_nat k -> (0 < k)%nat -> (String.length (Benchmark.to_string n) <= k)%nat.
Proof.
  intros Hn Hk.
  pose proof (digits_value_to_string n) as Hv.
  rewrite (proj1 (to_string_as_uint n)) in *.
  assert (Hnorm : Decimal.unorm (N.to_uint n) = N.to_uint n).
  { rewrite <- (DecimalN.Unsigned.of_to n) at 2.
    symmetry. apply DecimalN.Unsigned.to_of. }
  destruct (normal_uint_value Hnorm) as [E|Hle].
  - rewrite E. simpl. lia.
  - rewrite Hv in Hle.
    assert (Hlt : 10 ^ N.of_nat
                         (String.length
                            (DecimalString.NilEmpty.string_of_uint (N.to_uint n))
                          - 1)
                  < 10 ^ N.of_nat k) by lia.
    apply N.pow_lt_mono_r_iff in Hlt; lia.
Qed.
Lemma padded_to_string n :
  n < 2 ^ 64 ->
  exists s,
    Benchmark.pad_string (Benchmark.to_string n) Benchmark.string_size = Some s
    /\ String.length s = Benchmark.string_size
    /\ SimpleLogger.all_digits s = true
    /\ Benchmark.digits_value s = n.
Proof.
  intros Hn.
  assert (Hlen : (String.length (Benchmark.to_string n)
                  <= Benchmark.string_size)%nat).
  { apply to_string_length; [|unfold Benchmark.string_size; lia].
    eapply N.lt_le_trans; [exact Hn|]. vm_compute. discriminate. }
  unfold Benchmark.pad_string.
  destruct (Nat.leb_spec (String.length (Benchmark.to_string n))
                         Benchmark.string_size) as [_|Hgt]; [|lia].
  eexists. split; [reflexivity|]. split; [|split].
  - rewrite slength_app, length_zeros. lia.
  - rewrite all_digits_zeros. apply to_string_all_digits.
  - rewrite digits_value_zeros. apply digits_value_to_string.
Qed.

Lemma fill_rows_values number rows :
  (forall r, In r rows -> number r < 2 ^ 64) ->
  exists values,
    Benchmark.fill_rows number rows = Some values
    /\ length values = length rows
    /\ forall i, (i < length rows)%nat ->
         let s := nth i values EmptyString in
         String.length s = Benchmark.string_size
         /\ SimpleLogger.all_digits s = true
         /\ Benchmark.digits_value s = number (nth i rows O).
Proof.
  induction rows as [|r rows IH]; intros H.
  - exists []. split; [reflexivity|]. split; [reflexivity|].
    intros i Hi. simpl in Hi. lia.
  - destruct (padded_to_string (H r (or_introl eq_refl)))
      as (s & Es & Hs).
    destruct IH as (values & Ev & Hlen & Hvalues);
      [intros r' Hr'; apply H; right; exact Hr'|].
    exists (s :: values). cbn [Benchmark.fill_rows]. rewrite Es, Ev.
    split; [reflexivity|]. split; [simpl; congruence|].
    intros [|i] Hi; [exact Hs|]. apply Hvalues. simpl in Hi. lia.
Qed.
End DigitFacts.

(** X25: the strings of [generate_values<pmr_string>] are in the order asked
    for.  For every table size of a [size_t] the function returns
    [table_size] strings of [string_size] digits each; the string of row [i]
    denotes [i] for the two ascending modes and [table_size - 1 - i] for the
    two descending ones, and compared as strings an earlier row is smaller
    than a later one for the ascending modes and greater for the descending
    ones. *)
Theorem generated_strings_are_sorted (table_size : nat)
        (order_by : OrderByMode) :
  (N.of_nat table_size < 2 ^ 64)%N ->
  exists values,
    Benchmark.generate_values_pmr_string table_size order_by = Some values
    /\ length values = table_size
    /\ (forall i, i < table_size ->
          String.length (nth i values EmptyString) = Benchmark.string_size
          /\ SimpleLogger.all_digits (nth i values EmptyString) = true
          /\ Benchmark.digits_value (nth i values EmptyString)
             = N.of_nat (if order_is_ascending order_by then i
                         else table_size - 1 - i))
    /\ (forall i j, i < j < table_size ->
          String.compare (nth i values EmptyString) (nth j values EmptyString)
          = if order_is_ascending order_by then Lt else Gt).
Proof.
  intros Hsize.
  unfold Benchmark.generate_values_pmr_string, order_is_ascending.
  set (number := fun row_index : nat =>
                   N.of_nat (if OrderByMode_eqb order_by Ascending
                                || OrderByMode_eqb order_by AscendingNullsLast
                             then row_index
                             else table_size - row_index - 1)).
  assert (Hfill : Benchmark.fill_rows number (seq 0 table_size)
                  = if OrderByMode_eqb order_by Ascending
                       || OrderByMode_eqb order_by AscendingNullsLast
                    then Benchmark.fill_rows (fun row_index => N.of_nat row_index)
                                             (seq 0 table_size)
                    else Benchmark.fill_rows
                           (fun row_index =>
                              N.of_nat (table_size - row_index - 1))
                           (seq 0 table_size)).
  { unfold number. destruct (_ || _); reflexivity. }
  rewrite <- Hfill. clear Hfill.
  destruct (@fill_rows_values number (seq 0 table_size))
    as (values & Ev & Hlen & Hvalues).
  { intros r Hr. apply in_seq in Hr. unfold number.
    destruct (_ || _); lia. }
  rewrite length_seq in Hlen, Hvalues.
  exists values. split; [exact Ev|]. split; [exact Hlen|].
  assert (Hrow : forall i, i < table_size ->
                   String.length (nth i values EmptyString)
                   = Benchmark.string_size
                   /\ SimpleLogger.all_digits (nth i values EmptyString) = true
                   /\ Benchmark.digits_value (nth i values EmptyString)
                      = number i).
  { intros i Hi. destruct (Hvalues i Hi) as (H1 & H2 & H3).
    rewrite seq_nth in H3 by exact Hi. auto. }
  split.
  - intros i Hi. destruct (Hrow i Hi) as (H1 & H2 & H3).
    split; [exact H1|]. split; [exact H2|]. rewrite H3. unfold number.
    destruct (_ || _); f_equal; lia.
  - intros i j Hij.
    destruct (Hrow i) as (Li & Di & Vi); [lia|].
    destruct (Hrow j) as (Lj & Dj & Vj); [lia|].
    rewrite (@compare_digits _ _ Di Dj) by congruence.
    rewrite Vi, Vj. unfold number.
    destruct (_ || _).
    + apply N.compare_lt_iff. lia.
    + apply N.compare_gt_iff. lia.
Qed.

Lemma generated_strings_are_sorted_witness :
  exists values,
    Benchmark.generate_values_pmr_string 3 Descending = Some values
    /\ String.compare (nth 0 values EmptyString) (nth 2 values EmptyString)
       = Gt.
Proof.
  destruct (@generated_strings_are_sorted 3 Descending)
    as (values & Ev & _ & _ & Hsorted); [reflexivity|].
  exists values. split; [exact Ev|]. apply (Hsorted 0 2). lia.
Defined.

(** * The search at any value type *)

Section PullBack.
Variables A B : Type.
Variable f : A -> B.
Variable P : B -> bool.

Lemma filter_map_commute (l : list A) :
  filter P (map f l) = map f (filter (fun x => P (f x)) l).
Proof.
  induction l as [|x l IH]; simpl; [reflexivity|].
  destruct (P (f x)); simpl; rewrite IH; reflexivity.
Qed.

Lemma subsequence_nil_l (l : list A) : subsequence [] l.
Proof. induction l; constructor; assumption. Qed.

Lemma subsequence_filter_length (Q : A -> bool) (xs ys : list A) :
  subsequence xs ys ->
  Forall (fun x => Q x = true) xs ->
  length xs <= length (filter Q ys).
Proof.
  intros H. induction H as [|x xs ys H IH|y xs ys H IH]; intros Hall.
  - simpl. lia.
  - apply Forall_cons_iff in Hall. destruct Hall as [Hx Hall].
    simpl. rewrite Hx. simpl. specialize (IH Hall). lia.
  - specialize (IH Hall). simpl. destruct (Q y); simpl; lia.
Qed.

(** A part of a list whose image is the filtered image of the list is the
    list filtered. *)
Lemma subsequence_of_filtered_image (xs ys : list A) :
  subsequence xs ys ->
  map f xs = filter P (map f ys) ->
  xs = filter (fun x => P (f x)) ys.
Proof.
  intros H. induction H as [|x xs ys H IH|y xs ys H IH]; intros E.
  - reflexivity.
  - simpl in E. cbn [filter]. destruct (P (f x)) eqn:Ex.
    + injection E as E. f_equal. apply IH. exact E.
    + exfalso.
      assert (Hin : In (f x) (filter P (map f ys)))
        by (rewrite <- E; left; reflexivity).
      apply filter_In in Hin. destruct Hin as [_ Hp]. congruence.
  - simpl in E. cbn [filter]. destruct (P (f y)) eqn:Ey.
    + exfalso.
      assert (Hall : Forall (fun x => P (f x) = true) xs).
      { apply Forall_forall. intros x Hx.
        assert (Hin : In (f x) (map f xs)) by (apply in_map; exact Hx).
        rewrite E in Hin.
        destruct Hin as [<-|Hin]; [exact Ey|].
        apply filter_In in Hin. tauto. }
      pose proof (subsequence_filter_length (fun x => P (f x)) H Hall) as Hle.
      apply (f_equal (@length B)) in E. simpl in E.
      rewrite filter_map_commute, !length_map in E. lia.
    + apply IH. exact E.
Qed.
End PullBack.


Lemma filter_length_implies (A : Type) (f g : A -> bool) (l : list A) :
  (forall x, f x = true -> g x = true) ->
  length (filter f l) <= length (filter g l).
Proof.
  intros H. induction l as [|x l IH]; simpl; [lia|].
  destruct (f x) eqn:Ef.
  - rewrite (H x Ef). simpl. lia.
  - destruct (g x); simpl; lia.
Qed.

(** On a sorted range without nulls the first bound is not behind the
    last. *)
Lemma first_bound_before_last_bound data order_by s :
  sorted_non_null data order_by s ->
  _get_first_bound data s <= _get_last_bound data s.
Proof.
  intros Hvs.
  destruct (first_bound_cut Hvs) as (Hf & F1 & _).
  destruct (last_bound_cut Hvs) as (Hl & L1 & _).
  destruct Hvs as (Hv & _).
  unfold valid_range in Hv.
  apply (f_equal (@length _)) in F1, L1.
  rewrite iterator_range_length in F1, L1 by lia.
  assert (Hle : _get_first_bound data s - _begin s
                <= _get_last_bound data s - _begin s).
  { rewrite F1, L1. apply filter_length_implies. intros p.
    destruct (_is_ascending s); unfold comparator;
      rewrite ?Z.gtb_ltb, ?Z.geb_leb, ?Z.ltb_lt, ?Z.leb_le; lia. }
  lia.
Qed.

(** On a sorted range without nulls the two bounds cut the range three
    ways. *)
Lemma bounds_cut_three_ways data order_by s :
  sorted_non_null data order_by s ->
  let first_bound := _get_first_bound data s in
  let last_bound := _get_last_bound data s in
  (_begin s <= first_bound /\ first_bound <= last_bound
   /\ last_bound <= _end s)
  /\ iterator_range data (_begin s) first_bound
     = filter (fun p => comparator
                          (if _is_ascending s then LessThan else GreaterThan)
                          (value p) (_search_value s))
              (range_of data s)
  /\ iterator_range data first_bound last_bound
     = filter (fun p => comparator Equals (value p) (_search_value s))
              (range_of data s)
  /\ iterator_range data last_bound (_end s)
     = filter (fun p => comparator
                          (if _is_ascending s then GreaterThan else LessThan)
                          (value p) (_search_value s))
              (range_of data s).
Proof.
  intros Hvs first_bound last_bound.
  destruct (first_bound_cut Hvs) as (Hf & F1 & F2).
  destruct (last_bound_cut Hvs) as (Hl & L1 & L2).
  fold first_bound in Hf, F1, F2. fold last_bound in Hl, L1, L2.
  pose proof (first_bound_before_last_bound Hvs) as Hfl.
  fold first_bound in Hfl. fold last_bound in Hfl.
  split; [lia|]. split; [exact F1|]. split; [|exact L2].
  set (v := _search_value s) in *. set (r := range_of data s) in *.
  assert (Hp : partitioned
                 (fun p => comparator
                             (if _is_ascending s then LessThan else GreaterThan)
                             (value p) v) r = true).
  { destruct Hvs as (Hv & Ha & Hs & Hn).
    apply sorted_values_partitioned with order_by; auto.
    intros p q. rewrite <- Ha. destruct (_is_ascending s); simpl;
      rewrite ?Z.gtb_ltb, !Z.ltb_lt; lia. }
  assert (Hle : filter (fun p => comparator
                                   (if _is_ascending s then LessThanEquals
                                    else GreaterThanEquals) (value p) v) r
                = filter (fun p => comparator
                                     (if _is_ascending s then LessThan
                                      else GreaterThan) (value p) v) r
                  ++ filter (fun p => comparator Equals (value p) v) r).
  { rewrite (@filter_by_partition _
               (fun p => comparator (if _is_ascending s then LessThanEquals
                                     else GreaterThanEquals) (value p) v)
               _ Hp).
    f_equal; apply filter_ext; intros a; destruct (_is_ascending s); zbool. }
  pose proof (@iterator_range_split data (_begin s) first_bound last_bound)
    as Hsplit.
  rewrite L1, Hle, F1 in Hsplit.
  apply app_inv_head in Hsplit; [symmetry; exact Hsplit|lia].
Qed.

Section GenericRanges.
Variable T : Type.
Variable data : list (Generic.SegmentPosition T).

Lemma generic_range_split b mid e :
  b <= mid <= e ->
  Generic.iterator_range data b e
  = Generic.iterator_range data b mid ++ Generic.iterator_range data mid e.
Proof.
  intros H. unfold Generic.iterator_range.
  replace (e - b) with ((mid - b) + (e - mid)) by lia.
  rewrite firstn_plus, skipn_skipn. do 3 f_equal. lia.
Qed.

Lemma generic_ranges_subsequence b e b1 e1 b2 e2 :
  b <= b1 <= e1 -> e1 <= b2 <= e2 -> e2 <= e ->
  subsequence (Generic.iterator_range data b1 e1
               ++ Generic.iterator_range data b2 e2)
              (Generic.iterator_range data b e).
Proof.
  intros H1 H2 H3.
  rewrite (@generic_range_split b b1 e) by lia.
  rewrite (@generic_range_split b1 e1 e) by lia.
  rewrite (@generic_range_split e1 b2 e) by lia.
  rewrite (@generic_range_split b2 e2 e) by lia.
  change (Generic.iterator_range data b1 e1
          ++ Generic.iterator_range data b2 e2)
    with ([] ++ Generic.iterator_range data b1 e1
          ++ Generic.iterator_range data b2 e2).
  apply subsequence_app; [apply subsequence_nil_l|].
  apply subsequence_app; [apply subsequence_refl|].
  rewrite <- (app_nil_l (Generic.iterator_range data b2 e2)) at 1.
  apply subsequence_app; [apply subsequence_nil_l|].
  rewrite <- (app_nil_r (Generic.iterator_range data b2 e2)) at 1.
  apply subsequence_app; [apply subsequence_refl|apply subsequence_nil_l].
Qed.

End GenericRanges.

Section ComparedColumn.
Variable T : Type.
Variable ops : Generic.Comparisons T.
Variable d : T.
Variable v : T.
Variable data : list (Generic.SegmentPosition T).
Local Abbreviation m := (as_compared_with ops v).

Lemma deref_compared i :
  i < length data ->
  deref (map m data) i = m (Generic.deref d data i).
Proof.
  intros Hi. unfold deref, Generic.deref.
  rewrite (nth_indep _ null_position (m (Generic.null_position d)))
    by (rewrite length_map; exact Hi).
  apply map_nth.
Qed.

Lemma lower_bound_loop_compared comp_g comp :
  (forall p, comp_g p = comp (m p)) ->
  forall first len,
    first + len <= length data ->
    Generic.lower_bound_loop d data comp_g first len
    = lower_bound_loop (map m data) comp first len.
Proof.
  intros Hc first len.
  funelim (lower_bound_loop (map m data) comp first len); intros Hlen.
  - simp lower_bound_loop. reflexivity.
  - rewrite Generic.lower_bound_loop_equation_2.
    rewrite Hc, <- deref_compared, Heq
      by (pose proof (Nat.lt_div2 (S n)); lia).
    cbn [Generic.lower_bound_loop_unfold_clause_2].
    apply H; [exact Hc|].
    pose proof (Nat.lt_div2 (S n)). lia.
  - rewrite Generic.lower_bound_loop_equation_2.
    rewrite Hc, <- deref_compared, Heq
      by (pose proof (Nat.lt_div2 (S n)); lia).
    cbn [Generic.lower_bound_loop_unfold_clause_2].
    apply H; [exact Hc|].
    pose proof (Nat.lt_div2 (S n)). lia.
Qed.

Lemma upper_bound_loop_compared comp_g comp :
  (forall p, comp_g p = comp (m p)) ->
  forall first len,
    first + len <= length data ->
    Generic.upper_bound_loop d data comp_g first len
    = upper_bound_loop (map m data) comp first len.
Proof.
  intros Hc first len.
  funelim (upper_bound_loop (map m data) comp first len); intros Hlen.
  - simp upper_bound_loop. reflexivity.
  - rewrite Generic.upper_bound_loop_equation_2.
    rewrite Hc, <- deref_compared, Heq
      by (pose proof (Nat.lt_div2 (S n)); lia).
    cbn [Generic.upper_bound_loop_unfold_clause_2].
    apply H; [exact Hc|].
    pose proof (Nat.lt_div2 (S n)). lia.
  - rewrite Generic.upper_bound_loop_equation_2.
    rewrite Hc, <- deref_compared, Heq
      by (pose proof (Nat.lt_div2 (S n)); lia).
    cbn [Generic.upper_bound_loop_unfold_clause_2].
    apply H; [exact Hc|].
    pose proof (Nat.lt_div2 (S n)). lia.
Qed.

Lemma lower_bound_compared comp_g comp first last :
  (forall p, comp_g p = comp (m p)) ->
  first <= length data -> last <= length data ->
  Generic.lower_bound d data first last comp_g
  = lower_bound (map m data) first last comp.
Proof.
  intros Hc Hf Hl. apply lower_bound_loop_compared; [exact Hc|lia].
Qed.

Lemma upper_bound_compared comp_g comp first last :
  (forall p, comp_g p = comp (m p)) ->
  first <= length data -> last <= length data ->
  Generic.upper_bound d data first last comp_g
  = upper_bound (map m data) first last comp.
Proof.
  intros Hc Hf Hl. apply upper_bound_loop_compared; [exact Hc|lia].
Qed.


Hypothesis Hord : Generic.strict_total_order ops.

Lemma less_asymmetric a b :
  Generic.less ops a b = true -> Generic.less ops b a = false.
Proof.
  intros H. destruct (Generic.less ops b a) eqn:E; [|reflexivity].
  pose proof (Generic.less_transitive Hord _ _ _ H E) as Haa.
  rewrite (Generic.less_irreflexive Hord) in Haa. discriminate.
Qed.

Lemma compared_with_spec x :
  let c := compared_with ops v x in
  (c <? 0)%Z = Generic.less ops x v
  /\ (c >? 0)%Z = Generic.greater ops x v
  /\ (c =? 0)%Z = Generic.equal_to ops x v.
Proof.
  unfold compared_with.
  rewrite (Generic.greater_is_converse Hord).
  destruct (Generic.less ops x v) eqn:El.
  - rewrite (less_asymmetric _ _ El). repeat split.
    destruct (Generic.equal_to ops x v) eqn:Ee; [|reflexivity].
    apply (Generic.equal_to_is_equality Hord) in Ee. subst x.
    rewrite (Generic.less_irreflexive Hord) in El. discriminate.
  - destruct (Generic.less ops v x) eqn:Eg; repeat split.
    + destruct (Generic.equal_to ops x v) eqn:Ee; [|reflexivity].
      apply (Generic.equal_to_is_equality Hord) in Ee. subst x.
      rewrite (Generic.less_irreflexive Hord) in Eg. discriminate.
    + symmetry. apply (Generic.equal_to_is_equality Hord).
      apply (Generic.less_total Hord); assumption.
Qed.

Lemma comparator_compared c x :
  is_comparison c = true ->
  comparator c (compared_with ops v x) 0 = Generic.comparator ops c x v.
Proof.
  intros Hc. destruct (compared_with_spec x) as (Hl & Hg & He).
  destruct c; try discriminate; unfold comparator, Generic.comparator.
  - exact He.
  - rewrite (Generic.not_equal_to_is_negation Hord), He. reflexivity.
  - exact Hl.
  - rewrite (Generic.less_equal_is_not_greater Hord),
      <- (Generic.greater_is_converse Hord), <- Hg.
    rewrite Z.gtb_ltb, Z.leb_antisym. reflexivity.
  - exact Hg.
  - rewrite (Generic.greater_equal_is_not_less Hord), <- Hl.
    rewrite Z.geb_leb, Z.ltb_antisym, negb_involutive. reflexivity.
Qed.


(** Both bounds are found at the same index. *)
Lemma first_bound_compared gs :
  Generic._search_value gs = v ->
  Generic._begin gs <= length data -> Generic._end gs <= length data ->
  Generic._get_first_bound ops d data gs
  = _get_first_bound (map m data) (search_compared gs).
Proof.
  intros Hv Hb He. unfold Generic._get_first_bound, _get_first_bound.
  cbn [search_compared _is_ascending _begin _end _search_value].
  rewrite Hv.
  destruct (Generic._is_ascending gs);
    apply lower_bound_compared; try assumption; intros p;
    cbn [as_compared_with value]; symmetry; apply compared_with_spec.
Qed.

Lemma last_bound_compared gs :
  Generic._search_value gs = v ->
  Generic._begin gs <= length data -> Generic._end gs <= length data ->
  Generic._get_last_bound ops d data gs
  = _get_last_bound (map m data) (search_compared gs).
Proof.
  intros Hv Hb He. unfold Generic._get_last_bound, _get_last_bound.
  cbn [search_compared _is_ascending _begin _end _search_value].
  rewrite Hv.
  destruct (Generic._is_ascending gs);
    apply upper_bound_compared; try assumption; intros p;
    cbn [as_compared_with value]; symmetry; apply compared_with_spec.
Qed.



Lemma map_generic_range b e :
  map m (Generic.iterator_range data b e) = iterator_range (map m data) b e.
Proof.
  unfold Generic.iterator_range, iterator_range.
  rewrite skipn_map, firstn_map. reflexivity.
Qed.

Lemma position_before_compared order_by p q :
  Generic.position_before ops order_by p q = true ->
  position_before order_by (m p) (m q) = true.
Proof.
  assert (Hmono : forall a b,
             Generic.less_equal ops a b = true ->
             (compared_with ops v a <=? compared_with ops v b)%Z = true).
  { intros a b Hab.
    rewrite (Generic.less_equal_is_not_greater Hord) in Hab.
    apply negb_true_iff in Hab.
    apply Z.leb_le. unfold compared_with.
    rewrite !(Generic.greater_is_converse Hord).
    destruct (Generic.less ops a v) eqn:Eav.
    - destruct (Generic.less ops b v), (Generic.less ops v b); lia.
    - destruct (Generic.less ops b v) eqn:Ebv.
      + exfalso.
        destruct (Generic.less ops a b) eqn:Eab.
        * rewrite (Generic.less_transitive Hord _ _ _ Eab Ebv) in Eav.
          discriminate.
        * rewrite (Generic.less_total Hord _ _ Eab Hab) in Eav. congruence.
      + destruct (Generic.less ops v a) eqn:Eva;
          destruct (Generic.less ops v b) eqn:Evb; try lia.
        exfalso.
        assert (Ebv' : b = v)
          by (apply (Generic.less_total Hord); assumption).
        subst b. congruence. }
  unfold Generic.position_before, position_before.
  cbn [as_compared_with is_null value].
  destruct (order_is_ascending order_by), (order_is_nulls_first order_by),
    (Generic.is_null p), (Generic.is_null q); simpl;
    try reflexivity; try discriminate; apply Hmono.
Qed.

Lemma sorted_per_compared order_by l :
  Generic.sorted_per ops order_by l = true ->
  sorted_per order_by (map m l) = true.
Proof.
  induction l as [|p l IH]; [reflexivity|].
  destruct l as [|q l]; [reflexivity|].
  change (Generic.position_before ops order_by p q
          && Generic.sorted_per ops order_by (q :: l) = true ->
          position_before order_by (m p) (m q)
          && sorted_per order_by (map m (q :: l)) = true).
  intros H. apply andb_prop in H. destruct H as [Hpq Hs].
  rewrite (position_before_compared _ _ _ Hpq), (IH Hs). reflexivity.
Qed.

Lemma generic_range_empty b : Generic.iterator_range data b b = [].
Proof. unfold Generic.iterator_range. rewrite Nat.sub_diag. reflexivity. Qed.



Lemma generic_range_subsequence b e b1 e1 :
  b <= b1 <= e1 -> e1 <= e ->
  subsequence (Generic.iterator_range data b1 e1)
              (Generic.iterator_range data b e).
Proof.
  intros H1 H2.
  rewrite <- (app_nil_r (Generic.iterator_range data b1 e1)).
  rewrite <- (generic_range_empty e).
  apply generic_ranges_subsequence; lia.
Qed.

(** A range that the [int32_t] column cuts out by a comparison with 0 is
    cut out of the column of [T] by the comparison with the search
    value. *)
Lemma generic_range_cut b e b1 e1 c :
  b <= b1 <= e1 -> e1 <= e ->
  is_comparison c = true ->
  iterator_range (map m data) b1 e1
  = filter (fun p => comparator c (value p) 0)
           (iterator_range (map m data) b e) ->
  Generic.iterator_range data b1 e1
  = filter (fun p => Generic.comparator ops c (Generic.value p) v)
           (Generic.iterator_range data b e).
Proof.
  intros H1 H2 Hc E.
  rewrite <- !map_generic_range in E.
  rewrite (@subsequence_of_filtered_image _ _ m
             (fun p => comparator c (value p) 0) _ _
             (generic_range_subsequence H1 H2) E).
  apply filter_ext. intros p. cbn [as_compared_with value].
  apply comparator_compared. exact Hc.
Qed.

Lemma generic_deref_in_range b e :
  b < e -> e <= length data ->
  In (Generic.deref d data b) (Generic.iterator_range data b e).
Proof.
  intros Hbe He. unfold Generic.deref, Generic.iterator_range.
  rewrite <- (Nat.add_0_r b) at 1. rewrite <- nth_skipn.
  assert (Hlen : 0 < length (firstn (e - b) (skipn b data)))
    by (rewrite length_firstn, length_skipn; lia).
  replace (nth 0 (skipn b data) (Generic.null_position d))
    with (nth 0 (firstn (e - b) (skipn b data)) (Generic.null_position d)).
  - apply nth_In. exact Hlen.
  - rewrite nth_firstn. destruct (Nat.ltb_spec 0 (e - b)); [reflexivity|lia].
Qed.

Lemma generic_bounds_cut order_by gs :
  Generic._search_value gs = v ->
  Generic._begin gs <= Generic._end gs <= length data ->
  Generic._is_ascending gs = order_is_ascending order_by ->
  Generic.sorted_per ops order_by
    (Generic.iterator_range data (Generic._begin gs) (Generic._end gs))
  = true ->
  forallb (fun p => negb (Generic.is_null p))
          (Generic.iterator_range data (Generic._begin gs) (Generic._end gs))
  = true ->
  let first_bound := Generic._get_first_bound ops d data gs in
  let last_bound := Generic._get_last_bound ops d data gs in
  let whole :=
    Generic.iterator_range data (Generic._begin gs) (Generic._end gs) in
  (Generic._begin gs <= first_bound /\ first_bound <= last_bound
   /\ last_bound <= Generic._end gs)
  /\ Generic.iterator_range data (Generic._begin gs) first_bound
     = filter (fun p => Generic.comparator ops
                          (if Generic._is_ascending gs then LessThan
                           else GreaterThan) (Generic.value p) v) whole
  /\ Generic.iterator_range data first_bound last_bound
     = filter (fun p => Generic.comparator ops Equals (Generic.value p) v)
              whole
  /\ Generic.iterator_range data last_bound (Generic._end gs)
     = filter (fun p => Generic.comparator ops
                          (if Generic._is_ascending gs then GreaterThan
                           else LessThan) (Generic.value p) v) whole.
Proof.
  intros Hv Hbe Ha Hs Hnn first_bound last_bound whole.
  unfold first_bound, last_bound, whole.
  rewrite (first_bound_compared gs), (last_bound_compared gs) by (auto; lia).
  assert (Hvs : sorted_non_null (map m data) order_by (search_compared gs)).
  { unfold sorted_non_null, valid_range, range_of.
    cbn [search_compared _begin _end _is_ascending].
    rewrite length_map, <- map_generic_range.
    split; [exact Hbe|]. split; [exact Ha|].
    split; [apply sorted_per_compared; exact Hs|].
    apply forallb_forall. intros p Hp. apply in_map_iff in Hp.
    destruct Hp as (q & <- & Hq).
    rewrite forallb_forall in Hnn. exact (Hnn q Hq). }
  destruct (bounds_cut_three_ways Hvs) as (Hidx & E1 & E2 & E3).
  unfold range_of in E1, E2, E3.
  cbn [search_compared _begin _end _is_ascending _search_value] in *.
  split; [exact Hidx|].
  split; [|split].
  - apply generic_range_cut; try lia; [|exact E1].
    destruct (Generic._is_ascending gs); reflexivity.
  - apply generic_range_cut; try lia; [reflexivity|exact E2].
  - apply generic_range_cut; try lia; [|exact E3].
    destruct (Generic._is_ascending gs); reflexivity.
Qed.
End ComparedColumn.




Lemma int32_t_strict_total_order :
  Generic.strict_total_order Generic.int32_t_operators.
Proof.
  constructor; cbn; intros.
  - apply Z.ltb_irrefl.
  - apply Z.ltb_lt. apply Z.ltb_lt in H, H0. lia.
  - apply Z.ltb_ge in H, H0. lia.
  - apply Z.eqb_eq.
  - reflexivity.
  - apply Z.gtb_ltb.
  - apply Z.leb_antisym.
  - rewrite Z.geb_leb. rewrite Z.ltb_antisym, negb_involutive. reflexivity.
Qed.




(** X2: on a sorted range without nulls, of a value type whose operators are
    those of a strict total order, the first bound does not exceed the last
    bound; the positions before the first bound are exactly those whose
    value comes before the search value in the sort order, the positions
    between the bounds exactly those holding the search value, and the
    positions from the last bound on exactly those whose value comes after
    it.  So the bounds are placed also when no position holds the search
    value, and when one does the first bound points at one. *)
Theorem bounds_enclose_the_search_value :
  forall (T : Type) (operators : Generic.Comparisons T) (T_default : T)
         (data : list (Generic.SegmentPosition T)) (order_by : OrderByMode)
         (s : Generic.SortedSegmentSearch T),
    Generic.strict_total_order operators ->
    Generic._begin s <= Generic._end s <= length data ->
    Generic._is_ascending s = order_is_ascending order_by ->
    let whole :=
      Generic.iterator_range data (Generic._begin s) (Generic._end s) in
    Generic.sorted_per operators order_by whole = true ->
    forallb (fun p => negb (Generic.is_null p)) whole = true ->
    let first_bound := Generic._get_first_bound operators T_default data s in
    let last_bound := Generic._get_last_bound operators T_default data s in
    let v := Generic._search_value s in
    let before x :=
      if Generic._is_ascending s then Generic.less operators x v
      else Generic.greater operators x v in
    let after x :=
      if Generic._is_ascending s then Generic.greater operators x v
      else Generic.less operators x v in
    (Generic._begin s <= first_bound /\ first_bound <= last_bound
     /\ last_bound <= Generic._end s)
    /\ Generic.iterator_range data (Generic._begin s) first_bound
       = filter (fun p => before (Generic.value p)) whole
    /\ Generic.iterator_range data first_bound last_bound
       = filter (fun p => Generic.equal_to operators (Generic.value p) v)
                whole
    /\ Generic.iterator_range data last_bound (Generic._end s)
       = filter (fun p => after (Generic.value p)) whole
    /\ whole
       = Generic.iterator_range data (Generic._begin s) first_bound
         ++ Generic.iterator_range data first_bound last_bound
         ++ Generic.iterator_range data last_bound (Generic._end s)
    /\ (first_bound < last_bound ->
        Generic.value (Generic.deref T_default data first_bound) = v).
Proof.
  intros T operators T_default data order_by s Hord Hbe Ha whole Hs Hnn
         first_bound last_bound v before after.
  destruct (@generic_bounds_cut T operators T_default v data Hord order_by s
              eq_refl Hbe Ha Hs Hnn) as (Hidx & E1 & E2 & E3).
  fold first_bound in Hidx, E1, E2, E3. fold last_bound in Hidx, E2, E3.
  fold whole in E1, E2, E3.
  split; [exact Hidx|].
  split; [rewrite E1; apply filter_ext; intros p; unfold before;
          destruct (Generic._is_ascending s); reflexivity|].
  split; [exact E2|].
  split; [rewrite E3; apply filter_ext; intros p; unfold after;
          destruct (Generic._is_ascending s); reflexivity|].
  split.
  - unfold whole.
    rewrite (@generic_range_split T data (Generic._begin s) first_bound
               (Generic._end s)) by lia.
    rewrite (@generic_range_split T data first_bound last_bound
               (Generic._end s)) by lia.
    reflexivity.
  - intros Hlt.
    assert (Hin : In (Generic.deref T_default data first_bound)
                     (Generic.iterator_range data first_bound last_bound))
      by (apply generic_deref_in_range; lia).
    rewrite E2 in Hin. apply filter_In in Hin. destruct Hin as [_ Hin].
    apply (Generic.equal_to_is_equality Hord). exact Hin.
Qed.

Lemma bounds_enclose_the_search_value_witness :
  let data := [Generic.mkSegmentPosition 9%Z false 0;
               Generic.mkSegmentPosition 7%Z false 1;
               Generic.mkSegmentPosition 7%Z false 2;
               Generic.mkSegmentPosition 3%Z false 3] in
  let s := Generic.new_SortedSegmentSearch 0 4 DescendingNullsLast Equals
                                           5%Z in
  let first_bound :=
    Generic._get_first_bound Generic.int32_t_operators 0%Z data s in
  let last_bound :=
    Generic._get_last_bound Generic.int32_t_operators 0%Z data s in
  Generic.iterator_range data 0 first_bound
  = filter (fun p => (Generic.value p >? 5)%Z) data
  /\ Generic.iterator_range data first_bound last_bound = [].
Proof.
  intros data s first_bound last_bound.
  destruct (@bounds_enclose_the_search_value
              Z Generic.int32_t_operators 0%Z data DescendingNullsLast s
              int32_t_strict_total_order)
    as (_ & E1 & E2 & _).
  - simpl. lia.
  - reflexivity.
  - reflexivity.
  - reflexivity.
  - split; [exact E1|exact E2].
Defined.
